(** * The connection registry and dispatcher of the wsp server

    A shallow embedding of [server/server.go]: the registration handshake
    ([Register]), the sweep of empty pools ([clean]), the dispatcher loop
    ([dispatchConnections]), the request intake ([Request]) and [Shutdown].

    Go pointers are indices into heaps kept in the state ([pool_heap],
    [conn_heap], [ws_heap]); a [*Pool] held in [Server.pools], a [*Connection]
    travelling through an idle channel and the one in its pool's live set are
    therefore the same object.  Goroutines are interleaved at the granularity of
    their synchronisation points: the dispatcher is a machine with one location
    per blocking or shared-memory operation, every other goroutine is an
    atomic action of the environment. *)

From Stdlib Require Import ZArith String Ascii List Lia.
From stdpp Require Import base option strings numbers list.

Local Open Scope Z_scope.
Local Open Scope nat_scope.

(** ** Data model *)

Abbreviation PoolID := string (only parsing).
Abbreviation PoolRef := nat (only parsing).
Abbreviation ConnRef := nat (only parsing).
Abbreviation WsRef := nat (only parsing).
Abbreviation ReqRef := nat (only parsing).

(** Modelled from the spec: the [Config] type is declared outside
    [server.go]; the server reads the shared secret and the dispatch timeout
    (a [time.Duration], here in clock ticks). *)
Record Config := mkConfig {
  SecretKey : string;
  Timeout : Z
}.

Definition GetTimeout (c : Config) : Z := Timeout c.

(** Modelled from the spec: a Connection has a tri-state status. *)
Inductive Status := Idle | Busy | Closed.

#[global] Instance Status_eq_dec : EqDecision Status.
Proof. solve_decision. Defined.

(** Modelled from the spec: a Connection holds a back-reference to its owning
    Pool, its transport handle and its status. *)
Record Connection := mkConnection {
  c_pool : PoolRef;
  c_ws : WsRef;
  c_status : Status
}.

(** Modelled from the spec: a Pool has an identity, the declared size of the
    last greeting, its live set, and one readiness token per idle Connection
    ([server.go] reads [pool.id], writes [pool.size] and receives from
    [pool.idle]).  [p_idle] lists the tokens waiting on the [idle] channel,
    oldest first. *)
Record Pool := mkPool {
  p_id : PoolID;
  p_size : Z;
  p_connections : list ConnRef;
  p_idle : list ConnRef
}.

(** How a dispatch ended: which [break] left the scan loop. *)
Inductive Outcome :=
| Matched (c : ConnRef)
| TimedOut
| Unavailable.

(** What the dispatcher goroutine did, in program order. *)
Inductive Event :=
| EvDequeue (r : ReqRef) (submitted received deadline : Z)
| EvToken (p : PoolRef) (c : ConnRef)
| EvTake (c : ConnRef) (ok : bool)
| EvSend (r : ReqRef) (c : ConnRef)
| EvClose (r : ReqRef) (o : Outcome).

(** The [Server] struct ([s_config], [s_pools], [s_done], [s_dispatcher]),
    the objects its pointers reach, the clock, and the dispatcher's history
    (newest event first).  [s_dispatcher] lists the handlers blocked in
    [s.dispatcher <- request], oldest first, each with the time it got there:
    the channel is unbuffered.  [panicked] lists the requests whose handler
    panicked in that send because the channel was closed. *)
Record World := mkWorld {
  s_config : Config;
  s_pools : list PoolRef;
  s_done : bool;
  s_dispatcher : list (ReqRef * Z);
  s_dispatcher_closed : bool;
  pool_heap : list Pool;
  conn_heap : list Connection;
  ws_heap : list bool;
  next_request : nat;
  now : Z;
  trace : list Event;
  panicked : list ReqRef
}.

Definition set_pools (v : list PoolRef) (w : World) : World :=
  mkWorld (s_config w) v (s_done w) (s_dispatcher w) (s_dispatcher_closed w)
    (pool_heap w) (conn_heap w) (ws_heap w) (next_request w) (now w) (trace w) (panicked w).
Definition set_done (v : bool) (w : World) : World :=
  mkWorld (s_config w) (s_pools w) v (s_dispatcher w) (s_dispatcher_closed w)
    (pool_heap w) (conn_heap w) (ws_heap w) (next_request w) (now w) (trace w) (panicked w).
Definition set_dispatcher (v : list (ReqRef * Z)) (w : World) : World :=
  mkWorld (s_config w) (s_pools w) (s_done w) v (s_dispatcher_closed w)
    (pool_heap w) (conn_heap w) (ws_heap w) (next_request w) (now w) (trace w) (panicked w).
Definition set_dispatcher_closed (v : bool) (w : World) : World :=
  mkWorld (s_config w) (s_pools w) (s_done w) (s_dispatcher w) v
    (pool_heap w) (conn_heap w) (ws_heap w) (next_request w) (now w) (trace w) (panicked w).
Definition set_pool_heap (v : list Pool) (w : World) : World :=
  mkWorld (s_config w) (s_pools w) (s_done w) (s_dispatcher w) (s_dispatcher_closed w)
    v (conn_heap w) (ws_heap w) (next_request w) (now w) (trace w) (panicked w).
Definition set_conn_heap (v : list Connection) (w : World) : World :=
  mkWorld (s_config w) (s_pools w) (s_done w) (s_dispatcher w) (s_dispatcher_closed w)
    (pool_heap w) v (ws_heap w) (next_request w) (now w) (trace w) (panicked w).
Definition set_ws_heap (v : list bool) (w : World) : World :=
  mkWorld (s_config w) (s_pools w) (s_done w) (s_dispatcher w) (s_dispatcher_closed w)
    (pool_heap w) (conn_heap w) v (next_request w) (now w) (trace w) (panicked w).
Definition set_next_request (v : nat) (w : World) : World :=
  mkWorld (s_config w) (s_pools w) (s_done w) (s_dispatcher w) (s_dispatcher_closed w)
    (pool_heap w) (conn_heap w) (ws_heap w) v (now w) (trace w) (panicked w).
Definition set_now (v : Z) (w : World) : World :=
  mkWorld (s_config w) (s_pools w) (s_done w) (s_dispatcher w) (s_dispatcher_closed w)
    (pool_heap w) (conn_heap w) (ws_heap w) (next_request w) v (trace w) (panicked w).
Definition log (e : Event) (w : World) : World :=
  mkWorld (s_config w) (s_pools w) (s_done w) (s_dispatcher w) (s_dispatcher_closed w)
    (pool_heap w) (conn_heap w) (ws_heap w) (next_request w) (now w) (e :: trace w) (panicked w).

Definition set_panicked (v : list ReqRef) (w : World) : World :=
  mkWorld (s_config w) (s_pools w) (s_done w) (s_dispatcher w) (s_dispatcher_closed w)
    (pool_heap w) (conn_heap w) (ws_heap w) (next_request w) (now w) (trace w) v.

Definition with_status (st : Status) (c : Connection) : Connection :=
  mkConnection (c_pool c) (c_ws c) st.
Definition with_size (n : Z) (p : Pool) : Pool :=
  mkPool (p_id p) n (p_connections p) (p_idle p).
Definition with_connections (cs : list ConnRef) (p : Pool) : Pool :=
  mkPool (p_id p) (p_size p) cs (p_idle p).
Definition with_idle (ts : list ConnRef) (p : Pool) : Pool :=
  mkPool (p_id p) (p_size p) (p_connections p) ts.

(** [NewServer]: no pools, both channels open, nobody waiting. *)
Definition NewServer (config : Config) : World :=
  mkWorld config [] false [] false [] [] [] 0 0%Z [] [].

(** ** Connection and Pool operations *)

Definition status_of (c : ConnRef) (w : World) : option Status :=
  c_status <$> conn_heap w !! c.

(** Modelled from the spec: [take() -> bool] attempts the Idle->Busy
    transition and returns whether it succeeded. *)
Definition Connection_Take (c : ConnRef) (w : World) : bool * World :=
  match conn_heap w !! c with
  | Some conn =>
      match c_status conn with
      | Idle => (true, set_conn_heap (<[c := with_status Busy conn]> (conn_heap w)) w)
      | _ => (false, w)
      end
  | None => (false, w)
  end.

(** Modelled from the spec: [release()] is Busy->Idle and re-signals
    readiness to the Pool. *)
Definition Connection_Release (c : ConnRef) (w : World) : World :=
  match conn_heap w !! c with
  | Some conn =>
      match c_status conn with
      | Busy =>
          let w1 := set_conn_heap (<[c := with_status Idle conn]> (conn_heap w)) w in
          match pool_heap w1 !! c_pool conn with
          | Some pool =>
              set_pool_heap
                (<[c_pool conn := with_idle (p_idle pool ++ [c]) pool]> (pool_heap w1)) w1
          | None => w1
          end
      | _ => w
      end
  | None => w
  end.

(** Modelled from the spec: [close()] is Busy|Idle -> Closed, releases the
    transport, is a no-op when repeated, and unregisters the Connection from
    the owning Pool. *)
Definition Connection_Close (c : ConnRef) (w : World) : World :=
  match conn_heap w !! c with
  | Some conn =>
      match c_status conn with
      | Closed => w
      | _ =>
          let w1 := set_conn_heap (<[c := with_status Closed conn]> (conn_heap w)) w in
          let w2 := set_ws_heap (<[c_ws conn := true]> (ws_heap w1)) w1 in
          match pool_heap w2 !! c_pool conn with
          | Some pool =>
              set_pool_heap
                (<[c_pool conn :=
                     with_connections
                       (List.filter (fun c' => negb (Nat.eqb c' c)) (p_connections pool)) pool]>
                   (pool_heap w2)) w2
          | None => w2
          end
      end
  | None => w
  end.

(** Modelled from the spec: a Pool is created for an Identity with no
    Connection; [NewPool] returns the new pointer. *)
Definition NewPool (id : PoolID) (w : World) : PoolRef * World :=
  (length (pool_heap w), set_pool_heap (pool_heap w ++ [mkPool id 0%Z [] []]) w).

(** Modelled from the spec: [register(transport)] wraps the transport as a
    new Idle Connection, adds it to the live set and signals readiness. *)
Definition Pool_Register (p : PoolRef) (ws : WsRef) (w : World) : World :=
  let c := length (conn_heap w) in
  let w1 := set_conn_heap (conn_heap w ++ [mkConnection p ws Idle]) w in
  match pool_heap w1 !! p with
  | Some pool =>
      set_pool_heap
        (<[p := with_idle (p_idle pool ++ [c])
                  (with_connections (p_connections pool ++ [c]) pool)]> (pool_heap w1)) w1
  | None => w1
  end.

(** Modelled from the spec: [isEmpty()] is true iff the live set is empty. *)
Definition Pool_IsEmpty (p : PoolRef) (w : World) : bool :=
  match pool_heap w !! p with
  | Some pool => match p_connections pool with [] => true | _ => false end
  | None => true
  end.

Definition count_status (st : Status) (cs : list ConnRef) (w : World) : nat :=
  length (List.filter (fun c => bool_decide (status_of c w = Some st)) cs).

(** Modelled from the spec: [size() -> (idle, busy)] counts the live set by
    status. *)
Definition Pool_Size (p : PoolRef) (w : World) : nat * nat :=
  match pool_heap w !! p with
  | Some pool =>
      (count_status Idle (p_connections pool) w, count_status Busy (p_connections pool) w)
  | None => (0, 0)
  end.

(** Modelled from the spec: [shutdown()] closes every live Connection and
    clears the set. *)
Definition Pool_Shutdown (p : PoolRef) (w : World) : World :=
  match pool_heap w !! p with
  | Some pool =>
      let w1 := fold_left (fun w c => Connection_Close c w) (p_connections pool) w in
      match pool_heap w1 !! p with
      | Some pool1 => set_pool_heap (<[p := with_connections [] pool1]> (pool_heap w1)) w1
      | None => w1
      end
  | None => w
  end.

(** ** The greeting *)

(** [strings.Split(s, sep)] for a one-byte separator: the fields between
    the separators, one more than there are separators. *)
Fixpoint Split (s : string) (sep : ascii) : list string :=
  match s with
  | EmptyString => [EmptyString]
  | String ch rest =>
      if Ascii.eqb ch sep then EmptyString :: Split rest sep
      else
        match Split rest sep with
        | field :: fields => String ch field :: fields
        | [] => [String ch EmptyString]
        end
  end.

Definition digit (ch : ascii) : option Z :=
  let n := nat_of_ascii ch in
  if (48 <=? n) && (n <=? 57) then Some (Z.of_nat (n - 48)) else None.

Fixpoint digits (acc : Z) (s : string) : option Z :=
  match s with
  | EmptyString => Some acc
  | String ch rest =>
      match digit ch with
      | Some d => digits (10 * acc + d)%Z rest
      | None => None
      end
  end.

Definition unsigned_body (neg : bool) (s : string) : option Z :=
  match s with
  | EmptyString => None
  | _ =>
      match digits 0%Z s with
      | Some v =>
          let n := if neg then (- v)%Z else v in
          if ((- 2 ^ 63 <=? n) && (n <=? 2 ^ 63 - 1))%Z then Some n else None
      | None => None
      end
  end.

(** [strconv.Atoi] on a 64-bit platform: an optional sign and decimal
    digits, in the range of [int]; [None] is its error. *)
Definition Atoi (s : string) : option Z :=
  match s with
  | EmptyString => None
  | String ch rest =>
      if Ascii.eqb ch "+"%char then unsigned_body false rest
      else if Ascii.eqb ch "-"%char then unsigned_body true rest
      else unsigned_body false s
  end.

(** ** Handlers *)

(** How a handler invocation ended.  [Waiting r] is a [Request] handler
    parked in [s.dispatcher <- request]. *)
Inductive HandlerResult :=
| Done
| ProxyError (msg : string)
| Panic (msg : string)
| Waiting (r : ReqRef).

(** What [Register] reads from the outside: the secret header, whether the
    upgrade succeeded, and the first message ([None]: [ReadMessage] failed). *)
Record RegisterReq := mkRegisterReq {
  secretKey : string;
  upgrade_ok : bool;
  greeting : option string
}.

(** The loop of lines 297-302: the first pool of the list whose id is [id]. *)
Fixpoint lookup_pool (heap : list Pool) (id : PoolID) (ps : list PoolRef) : option PoolRef :=
  match ps with
  | [] => None
  | p :: ps' =>
      match heap !! p with
      | Some pool => if decide (p_id pool = id) then Some p else lookup_pool heap id ps'
      | None => lookup_pool heap id ps'
      end
  end.

(** A successful [upgrader.Upgrade]: a new transport, open. *)
Definition Upgrade (w : World) : WsRef * World :=
  (length (ws_heap w), set_ws_heap (ws_heap w ++ [false]) w).

(** [ws.Close()]. *)
Definition ws_Close (ws : WsRef) (w : World) : World :=
  set_ws_heap (<[ws := true]> (ws_heap w)) w.

(** Lines 289-311, under the write lock. *)
Definition register_pool (id : PoolID) (size : Z) (ws : WsRef) (w : World) : World :=
  let '(pool, w1) :=
    match lookup_pool (pool_heap w) id (s_pools w) with
    | Some p => (p, w)
    | None =>
        let '(p, w') := NewPool id w in
        (p, set_pools (s_pools w' ++ [p]) w')
    end in
  let w2 :=
    match pool_heap w1 !! pool with
    | Some po => set_pool_heap (<[pool := with_size size po]> (pool_heap w1)) w1
    | None => w1
    end in
  Pool_Register pool ws w2.

(** [Register], lines 256-312.  [split[1]] on a greeting without separator
    is an index out of range: a run-time panic, which unwinds the handler
    without running the [ws.Close()] of the error paths. *)
Definition Register (rq : RegisterReq) (w : World) : HandlerResult * World :=
  if negb (bool_decide (secretKey rq = SecretKey (s_config w)))
  then (ProxyError "Invalid X-SECRET-KEY", w)
  else if negb (upgrade_ok rq) then (ProxyError "HTTP upgrade error", w)
  else
    let '(ws, w1) := Upgrade w in
    match greeting rq with
    | None => (ProxyError "Unable to read greeting message", ws_Close ws w1)
    | Some g =>
        let split := Split g "_"%char in
        match split !! 0 with
        | None => (Panic "index out of range [0]", w1)
        | Some id =>
            match split !! 1 with
            | None => (Panic "index out of range [1]", w1)
            | Some field =>
                match Atoi field with
                | None => (ProxyError "Unable to parse greeting message", ws_Close ws w1)
                | Some size => (Done, register_pool id size ws w1)
                end
            end
        end
    end.

(** The loop state of [clean]: the world, the pools kept so far, and the
    two counters that end up in the log line. *)
Record Sweep := mkSweep {
  sw_world : World;
  sw_pools : list PoolRef;
  sw_idle : nat;
  sw_busy : nat
}.

(** The body of the loop of lines 121-132. *)
Definition clean_body (acc : Sweep) (pool : PoolRef) : Sweep :=
  let w := sw_world acc in
  let '(w1, kept) :=
    if Pool_IsEmpty pool w then (Pool_Shutdown pool w, sw_pools acc)
    else (w, sw_pools acc ++ [pool]) in
  let ps := Pool_Size pool w1 in
  mkSweep w1 kept (sw_idle acc + fst ps) (sw_busy acc + snd ps).

Definition clean_loop (w : World) : Sweep :=
  fold_left clean_body (s_pools w) (mkSweep w [] 0 0).

(** [clean], lines 109-137, under the write lock. *)
Definition clean (w : World) : World :=
  match s_pools w with
  | [] => w
  | _ => let acc := clean_loop w in set_pools (sw_pools acc) (sw_world acc)
  end.

(** [NewConnectionRequest]: a fresh request with its own channel; the
    [timeout] argument is not used. *)
Definition NewConnectionRequest (timeout : Z) (w : World) : ReqRef * World :=
  (next_request w, set_next_request (S (next_request w)) w).

(** What [Request] reads from the outside: the destination header and
    whether [url.Parse] accepts it. *)
Record ProxyReq := mkProxyReq {
  destination : string;
  url_ok : bool
}.

(** [Request] up to the send of line 229, which panics on a closed
    channel. *)
Definition Request (rq : ProxyReq) (w : World) : HandlerResult * World :=
  if bool_decide (destination rq = EmptyString)
  then (ProxyError "Missing X-PROXY-DESTINATION header", w)
  else if negb (url_ok rq) then (ProxyError "Unable to parse X-PROXY-DESTINATION header", w)
  else
    match s_pools w with
    | [] => (ProxyError "No proxy available", w)
    | _ =>
        let '(request, w1) := NewConnectionRequest (GetTimeout (s_config w)) w in
        if s_dispatcher_closed w1
        then (Panic "send on closed channel", set_panicked (panicked w1 ++ [request]) w1)
        else (Waiting request, set_dispatcher (s_dispatcher w1 ++ [(request, now w1)]) w1)
    end.

(** [close(s.dispatcher)]: the handlers parked in the send of line 229
    panic and leave the channel. *)
Definition close_dispatcher (w : World) : World :=
  set_dispatcher_closed true
    (set_dispatcher [] (set_panicked (panicked w ++ (fst <$> s_dispatcher w)) w)).

(** [Shutdown], lines 319-326; closing a closed channel panics. *)
Definition Shutdown (w : World) : HandlerResult * World :=
  if s_done w then (Panic "close of closed channel", w)
  else
    let w1 := set_done true w in
    if s_dispatcher_closed w1 then (Panic "close of closed channel", w1)
    else
      let w2 := close_dispatcher w1 in
      let w3 := fold_left (fun w pool => Pool_Shutdown pool w) (s_pools w2) w2 in
      (Done, clean w3).

(** ** The dispatcher *)

(** Where the dispatcher goroutine stands in [dispatchConnections]: at the
    receive of line 144, the deadline check of lines 158-162, the snapshot of
    lines 164-181, the [reflect.Select] of line 183, the [Take] of line 190,
    the send of line 191, the close of line 196, or past the [break] of line
    148.  The request in hand, the deadline of its context, the snapshot and
    the Connection received are its locals. *)
Inductive Loc :=
| AtRecv
| AtDeadline (r : ReqRef) (d : Z)
| AtScan (r : ReqRef) (d : Z)
| AtSelect (r : ReqRef) (d : Z) (cases : list PoolRef)
| AtTake (r : ReqRef) (d : Z) (c : ConnRef)
| AtSend (r : ReqRef) (d : Z) (c : ConnRef)
| AtClose (r : ReqRef) (o : Outcome)
| Returned.

(** A token is waiting on the idle channel of pool [p]. *)
Definition ready (w : World) (p : PoolRef) : bool :=
  match pool_heap w !! p with
  | Some pool => match p_idle pool with [] => false | _ => true end
  | None => false
  end.

(** [reflect.Select] over one receive per snapshotted idle channel plus a
    default: [pick] is the runtime's choice among the ready channels; [None]
    is the default branch. *)
Definition Select (pick : nat) (cases : list PoolRef) (w : World)
  : option (PoolRef * ConnRef * World) :=
  let rs := List.filter (ready w) cases in
  match rs !! (pick mod length rs) with
  | Some p =>
      match pool_heap w !! p with
      | Some pool =>
          match p_idle pool with
          | c :: rest =>
              Some (p, c, set_pool_heap (<[p := with_idle rest pool]> (pool_heap w)) w)
          | [] => None
          end
      | None => None
      end
  | None => None
  end.

(** [dispatchConnections], one step at a time: from the location [l], the
    next blocking or shared-memory operation of the goroutine.  [None] when it
    is blocked (line 144 with nobody sending) or has returned.  The send of
    line 191 always goes through: the handler that owns [r] is parked at line
    235. *)
Definition dispatchConnections (pick : nat) (l : Loc) (w : World) : option (Loc * World) :=
  match l with
  | AtRecv =>
      match s_dispatcher w with
      | (r, t0) :: q =>
          let d := (now w + GetTimeout (s_config w))%Z in
          Some (AtDeadline r d, log (EvDequeue r t0 (now w) d) (set_dispatcher q w))
      | [] => if s_dispatcher_closed w then Some (Returned, w) else None
      end
  | AtDeadline r d =>
      if (d <=? now w)%Z then Some (AtClose r TimedOut, w) else Some (AtScan r d, w)
  | AtScan r d =>
      match s_pools w with
      | [] => Some (AtClose r Unavailable, w)
      | ps => Some (AtSelect r d ps, w)
      end
  | AtSelect r d cases =>
      match Select pick cases w with
      | Some (p, c, w') => Some (AtTake r d c, log (EvToken p c) w')
      | None => Some (AtDeadline r d, w)
      end
  | AtTake r d c =>
      let '(ok, w') := Connection_Take c w in
      Some (if ok then AtSend r d c else AtDeadline r d, log (EvTake c ok) w')
  | AtSend r d c => Some (AtClose r (Matched c), log (EvSend r c) w)
  | AtClose r o => Some (AtRecv, log (EvClose r o) w)
  | Returned => None
  end.

(** ** The other goroutines *)

(** What the other goroutines do, each in one step: the clock ticks, an
    agent registers, a client request reaches line 229, the sweeper runs
    [clean], the server is shut down, a handler closes the Connection it was
    given (line 247) or gives it back. *)
Inductive EnvAct :=
| ActTick
| ActRegister (rq : RegisterReq)
| ActRequest (rq : ProxyReq)
| ActClean
| ActShutdown
| ActClose (c : ConnRef)
| ActRelease (c : ConnRef).

Definition env_step (a : EnvAct) (w : World) : World :=
  match a with
  | ActTick => set_now (now w + 1)%Z w
  | ActRegister rq => snd (Register rq w)
  | ActRequest rq => snd (Request rq w)
  | ActClean => clean w
  | ActShutdown => snd (Shutdown w)
  | ActClose c => Connection_Close c w
  | ActRelease c => Connection_Release c w
  end.

(** A schedule is a list of moves: a step of the dispatcher, with the
    choice [reflect.Select] makes if it gets to choose, or an action of another
    goroutine. *)
Inductive Move :=
| Disp (pick : nat)
| Env (a : EnvAct).

Definition move_step (st : Loc * World) (m : Move) : Loc * World :=
  match m with
  | Disp pick =>
      match dispatchConnections pick (fst st) (snd st) with
      | Some st' => st'
      | None => st
      end
  | Env a => (fst st, env_step a (snd st))
  end.

Definition exec (ms : list Move) (st : Loc * World) : Loc * World :=
  fold_left move_step ms st.

Definition init (config : Config) : Loc * World := (AtRecv, NewServer config).

(** The scan loop of lines 157-194 for the request in hand, under a
    schedule: [Some] when the loop is left, with the [break] taken and the
    part of the schedule not yet played. *)
Fixpoint scan (ms : list Move) (l : Loc) (w : World)
  : option (Outcome * World * list Move) :=
  match l with
  | AtClose _ o => Some (o, w, ms)
  | _ =>
      match ms with
      | [] => None
      | m :: ms' => let st := move_step (l, w) m in scan ms' (fst st) (snd st)
      end
  end.

(** What the other goroutines alone make of a world under a schedule. *)
Definition env_run (ms : list Move) (w : World) : World :=
  fold_left (fun w m => match m with Env a => env_step a w | Disp _ => w end) ms w.

(** * Predicates, invariants and sample runs *)

(** ** The registry *)

(** The registry holds a pool for [id]. *)
Definition has_pool (id : PoolID) (w : World) : Prop :=
  exists p pool, p ∈ s_pools w /\ pool_heap w !! p = Some pool /\ p_id pool = id.

(** The identity and the declared size behind a pool pointer. *)
Definition id_at (p : PoolRef) (w : World) : option PoolID := p_id <$> pool_heap w !! p.

Definition size_at (p : PoolRef) (w : World) : option Z := p_size <$> pool_heap w !! p.

(** A configuration and a well-formed registration to run the model on. *)
Definition config0 : Config := mkConfig "s3cret" 3.

Definition greet (g : string) : RegisterReq := mkRegisterReq "s3cret" true (Some g).

(** Everything of the world that is not the pool list or a heap. *)
Definition ctl (w : World)
  : Config * bool * list (ReqRef * Z) * bool * nat * Z * list Event :=
  (s_config w, s_done w, s_dispatcher w, s_dispatcher_closed w, next_request w, now w, trace w).

(** [w'] has the pool list of [w] and the same identity behind every pool
    pointer. *)
Definition pools_stable (w w' : World) : Prop :=
  s_pools w' = s_pools w /\ forall p, id_at p w' = id_at p w.

(** The test of the sweep. *)
Definition nonempty (w : World) (p : PoolRef) : bool := negb (Pool_IsEmpty p w).

(** The world after one registration of [agent1]. *)
Definition world1 : World := snd (Register (greet "agent1_3") (NewServer config0)).

(** The identities of the pools of the list, in order. *)
Definition ids (w : World) : list PoolID := omap (fun p => id_at p w) (s_pools w).

(** Every pointer of the pool list reaches a pool, and no identity occurs
    twice among the pools of the list. *)
Definition registry_ok (w : World) : Prop :=
  (forall p, p ∈ s_pools w -> is_Some (id_at p w)) /\ NoDup (ids w).

(** ** Requests and their slots *)

(** The ways an action of the environment can touch the intake: not at
    all, by parking a fresh request, by allocating a request it never parks
    (the send panics), or by closing the channel. *)
Inductive intake_change (w w' : World) : Prop :=
| intake_same :
    s_dispatcher w' = s_dispatcher w -> next_request w' = next_request w ->
    s_dispatcher_closed w' = s_dispatcher_closed w -> intake_change w w'
| intake_parked :
    s_dispatcher w' = s_dispatcher w ++ [(next_request w, now w)] ->
    next_request w' = S (next_request w) ->
    s_dispatcher_closed w' = s_dispatcher_closed w ->
    s_dispatcher_closed w = false -> intake_change w w'
| intake_refused :
    s_dispatcher w' = s_dispatcher w -> next_request w' = S (next_request w) ->
    s_dispatcher_closed w' = s_dispatcher_closed w -> intake_change w w'
| intake_closed :
    s_dispatcher w' = [] -> next_request w' = next_request w ->
    s_dispatcher_closed w' = true -> intake_change w w'.

(** The request the dispatcher has in hand, and the deadline of its context. *)
Definition holds (l : Loc) : option ReqRef :=
  match l with
  | AtDeadline r _ | AtScan r _ | AtSelect r _ _ | AtTake r _ _ | AtSend r _ _
  | AtClose r _ => Some r
  | AtRecv | Returned => None
  end.

Definition deadline_of (l : Loc) : option Z :=
  match l with
  | AtDeadline _ d | AtScan _ d | AtSelect _ d _ | AtTake _ d _ | AtSend _ d _ => Some d
  | _ => None
  end.

(** The events on the channel of request [r]. *)
Definition on_slot (r : ReqRef) (e : Event) : bool :=
  match e with
  | EvSend r' _ | EvClose r' _ => Nat.eqb r' r
  | _ => false
  end.

(** What happened on [request.connection] of request [r], oldest first. *)
Definition slot_of (r : ReqRef) (tr : list Event) : list Event :=
  rev (List.filter (on_slot r) tr).

Definition slot (r : ReqRef) (w : World) : list Event := slot_of r (trace w).

(** The dispatcher has consumed request [r]. *)
Definition dequeued (r : ReqRef) (tr : list Event) : Prop :=
  exists s t d, EvDequeue r s t d ∈ tr.

(** What is sent on the slot before it is closed with outcome [o]. *)
Definition delivery (r : ReqRef) (o : Outcome) : list Event :=
  match o with
  | Matched c => [EvSend r c]
  | _ => []
  end.

(** The slot got exactly one outcome: one Connection and then the close,
    or the close alone. *)
Definition resolved (r : ReqRef) (tr : list Event) : Prop :=
  exists o, slot_of r tr = delivery r o ++ [EvClose r o].

(** The slot of the request in hand: untouched until the send, holding the
    sent Connection between the send and the close. *)
Definition in_hand (l : Loc) (r : ReqRef) (tr : list Event) : Prop :=
  match l with
  | AtClose _ o => slot_of r tr = delivery r o
  | _ => slot_of r tr = []
  end.

(** The bookkeeping of requests: a parked request is fresh and was never
    consumed, a request never consumed has an untouched slot, the request in
    hand was consumed once, and every other consumed request got its one
    outcome. *)
Record req_inv (st : Loc * World) : Prop := mk_req_inv {
  ri_queue : forall r s, (r, s) ∈ s_dispatcher (snd st) ->
             r < next_request (snd st) /\ ~ dequeued r (trace (snd st));
  ri_nodup : NoDup (fst <$> s_dispatcher (snd st));
  ri_fresh : forall r, dequeued r (trace (snd st)) -> r < next_request (snd st);
  ri_silent : forall r, ~ dequeued r (trace (snd st)) -> slot r (snd st) = [];
  ri_hand : forall r, holds (fst st) = Some r ->
            dequeued r (trace (snd st)) /\ in_hand (fst st) r (trace (snd st))
            /\ forall d s t d', deadline_of (fst st) = Some d ->
                 EvDequeue r s t d' ∈ trace (snd st) -> d' = d;
  ri_resolved : forall r, dequeued r (trace (snd st)) -> holds (fst st) <> Some r ->
                resolved r (trace (snd st))
}.

(** Dispatcher steps left, at most, until the slot of the request in hand
    is closed, once its deadline has passed. *)
Definition togo (l : Loc) : nat :=
  match l with
  | AtScan _ _ => 5
  | AtSelect _ _ _ => 4
  | AtTake _ _ _ => 3
  | AtSend _ _ _ => 2
  | AtDeadline _ _ => 2
  | AtClose _ _ => 1
  | AtRecv | Returned => 0
  end.

(** The deadline of the request in hand, if any, has passed. *)
Definition expired (st : Loc * World) : Prop :=
  forall d, deadline_of (fst st) = Some d -> (d <= now (snd st))%Z.

(** How many steps of a schedule are the dispatcher's. *)
Definition disp_moves (ms : list Move) : nat :=
  length (List.filter (fun m => match m with Disp _ => true | Env _ => false end) ms).

(** A well-formed request to proxy. *)
Definition proxy0 : ProxyReq := mkProxyReq "http://backend/" true.

(** One agent registers, one request comes in and is matched. *)
Definition run_matched : list Move :=
  [Env (ActRegister (greet "agent1_3")); Env (ActRequest proxy0);
   Disp 0; Disp 0; Disp 0; Disp 0; Disp 0; Disp 0; Disp 0].

(** ** The history of the dispatcher *)

(** The outcomes that close the slot without a Connection. *)
Definition unmatched (o : Outcome) : bool :=
  match o with
  | Matched _ => false
  | _ => true
  end.

(** Which event of the dispatcher may come right after which. *)
Definition may_follow (prev next : Event) : bool :=
  match prev, next with
  | EvDequeue _ _ _ _, EvToken _ _ => true
  | EvDequeue r _ _ _, EvClose r' o => Nat.eqb r r' && unmatched o
  | EvToken _ c, EvTake c' _ => Nat.eqb c c'
  | EvTake c true, EvSend _ c' => Nat.eqb c c'
  | EvTake _ false, EvToken _ _ => true
  | EvTake _ false, EvClose _ o => unmatched o
  | EvSend r c, EvClose r' (Matched c') => Nat.eqb r r' && Nat.eqb c c'
  | EvClose _ _, EvDequeue _ _ _ _ => true
  | _, _ => false
  end.

(** A history (newest first) in which every event may follow the one
    before it, starting with a dequeue. *)
Fixpoint chain (tr : list Event) : Prop :=
  match tr with
  | [] => True
  | next :: rest =>
      match rest with
      | [] => exists r s t d, next = EvDequeue r s t d
      | prev :: _ => may_follow prev next = true
      end /\ chain rest
  end.

(** The newest event, given where the dispatcher stands. *)
Definition last_event (l : Loc) (tr : list Event) : Prop :=
  match l with
  | AtRecv | Returned => tr = [] \/ exists r o rest, tr = EvClose r o :: rest
  | AtDeadline r _ | AtScan r _ | AtSelect r _ _ | AtClose r TimedOut
  | AtClose r Unavailable =>
      (exists s t d rest, tr = EvDequeue r s t d :: rest)
      \/ (exists c rest, tr = EvTake c false :: rest)
  | AtTake _ _ c => exists p rest, tr = EvToken p c :: rest
  | AtSend _ _ c => exists rest, tr = EvTake c true :: rest
  | AtClose r (Matched c) => exists rest, tr = EvSend r c :: rest
  end.

(** The history is well formed and ends where the dispatcher stands. *)
Definition protocol (st : Loc * World) : Prop :=
  chain (trace (snd st)) /\ last_event (fst st) (trace (snd st)).

(** The history, oldest event first. *)
Definition history (w : World) : list Event := rev (trace w).

(** A request that passes the header checks of lines 203-212. *)
Definition valid_request (rq : ProxyReq) : Prop :=
  destination rq <> EmptyString /\ url_ok rq = true.

(** A request is parked, then the only Connection is closed and the
    registry swept. *)
Definition world_swept : World :=
  snd (exec [Env (ActRegister (greet "agent1_3")); Env (ActRequest proxy0);
             Env (ActClose 0); Env ActClean] (init config0)).

(** ** Deadlines *)

(** The deadline of every dequeue is the receipt time plus the configured
    timeout, and a request is received no earlier than it was submitted. *)
Definition deadline_inv (config : Config) (st : Loc * World) : Prop :=
  s_config (snd st) = config
  /\ (forall r s, (r, s) ∈ s_dispatcher (snd st) -> (s <= now (snd st))%Z)
  /\ (forall r s t d, EvDequeue r s t d ∈ trace (snd st) ->
        d = (t + GetTimeout config)%Z /\ (s <= t)%Z /\ (t <= now (snd st))%Z)
  /\ (forall d, deadline_of (fst st) = Some d ->
        exists r s t, holds (fst st) = Some r /\ EvDequeue r s t d ∈ trace (snd st)).

(** One Connection, three requests: the first is matched, the second
    waits out its deadline while the third is parked on the channel. *)
Definition run_queued : list Move :=
  [Env (ActRegister (greet "agent1_3")); Env (ActRequest proxy0);
   Disp 0; Disp 0; Disp 0; Disp 0; Disp 0; Disp 0; Disp 0;
   Env (ActRequest proxy0); Env (ActRequest proxy0);
   Disp 0; Disp 0; Disp 0; Disp 0;
   Env ActTick; Env ActTick; Env ActTick;
   Disp 0; Disp 0; Disp 0].

(** ** Worlds up to tokens and history *)

(** A pool without its tokens. *)
Definition strip (p : Pool) : Pool := with_idle [] p.

(** Two worlds that differ at most in the tokens waiting on the idle
    channels and in the dispatcher's history. *)
Definition sim (w1 w2 : World) : Prop :=
  s_config w1 = s_config w2 /\ s_pools w1 = s_pools w2 /\ s_done w1 = s_done w2
  /\ s_dispatcher w1 = s_dispatcher w2
  /\ s_dispatcher_closed w1 = s_dispatcher_closed w2
  /\ strip <$> pool_heap w1 = strip <$> pool_heap w2
  /\ conn_heap w1 = conn_heap w2 /\ ws_heap w1 = ws_heap w2
  /\ next_request w1 = next_request w2 /\ now w1 = now w2
  /\ panicked w1 = panicked w2.

(** The same pool slot up to tokens. *)
Inductive pool_sim : option Pool -> option Pool -> Prop :=
| pool_sim_none : pool_sim None None
| pool_sim_some a b :
    p_id a = p_id b -> p_size a = p_size b -> p_connections a = p_connections b ->
    pool_sim (Some a) (Some b).

Ltac sim_split H := unfold sim in H |- *; simpl in H |- *; destruct_and!; split_and!;
                    try done; try congruence.

(** Why the scan loop was left: a timeout is reported only past the
    deadline, unavailability only with an empty pool list. *)
Definition outcome_justified (d : Z) (o : Outcome) (w : World) : Prop :=
  match o with
  | TimedOut => (d <= now w)%Z
  | Unavailable => s_pools w = []
  | Matched _ => True
  end.

(** The only Connection is Busy and a second request has just been
    received; the schedule lets its deadline pass. *)
Definition world_busy : World :=
  snd (exec [Env (ActRegister (greet "agent1_3")); Env (ActRequest proxy0);
             Disp 0; Disp 0; Disp 0; Disp 0; Disp 0; Disp 0; Disp 0;
             Env (ActRequest proxy0); Disp 0] (init config0)).

Definition wait_out : list Move :=
  [Disp 0; Disp 0; Disp 0; Env ActTick; Env ActTick; Env ActTick; Disp 0].

(** ** Connections, pools and shutdown *)

(** Every Connection that is not Closed sits in the live set of its pool,
    and that pool is in the registry. *)
Definition conns_ok (w : World) : Prop :=
  forall c conn, conn_heap w !! c = Some conn -> c_status conn <> Closed ->
    c_pool conn ∈ s_pools w
    /\ exists pool, pool_heap w !! c_pool conn = Some pool /\ c ∈ p_connections pool.

(** Connection [c], if there is one, is Closed. *)
Definition dead (c : ConnRef) (w : World) : Prop :=
  forall conn, conn_heap w !! c = Some conn -> c_status conn = Closed.

(** The live sets of [w'] are within those of [w]. *)
Definition shrinks (w w' : World) : Prop :=
  forall q pool', pool_heap w' !! q = Some pool' ->
    exists pool, pool_heap w !! q = Some pool
      /\ forall c, c ∈ p_connections pool' -> c ∈ p_connections pool.

(** The live sets of [w'] contain those of [w], the pool list too, and the
    connections are the same. *)
Definition grows (w w' : World) : Prop :=
  conn_heap w' = conn_heap w
  /\ (forall p, p ∈ s_pools w -> p ∈ s_pools w')
  /\ forall q pool, pool_heap w !! q = Some pool ->
       exists pool', pool_heap w' !! q = Some pool'
         /\ forall c, c ∈ p_connections pool -> c ∈ p_connections pool'.

(** Both channels of the server are closed together. *)
Definition chans_ok (w : World) : Prop := s_dispatcher_closed w = s_done w.

(** The world [Shutdown] leaves behind: no pool, nobody parked on the
    closed dispatcher channel, every Connection Closed. *)
Definition drained (w : World) : Prop :=
  s_pools w = [] /\ s_dispatcher w = [] /\ s_dispatcher_closed w = true
  /\ forall c, dead c w.



(** The dispatcher is looking for a Connection for [r], or is about to
    close the slot of [r] without one. *)
Definition scanning (l : Loc) (r : ReqRef) : Prop :=
  match l with
  | AtDeadline r' _ | AtScan r' _ | AtSelect r' _ _ | AtTake r' _ _ => r' = r
  | AtClose r' o => r' = r /\ unmatched o = true
  | _ => False
  end.




(** One agent and one request that finds the Connection Busy; the server
    is shut down while the dispatcher is looking for another one. *)
Definition run_inflight : list Move :=
  [Env (ActRegister (greet "agent1_3")); Env (ActRequest proxy0);
   Disp 0; Disp 0; Disp 0; Disp 0; Disp 0; Disp 0; Disp 0;
   Env (ActRequest proxy0); Disp 0; Disp 0; Disp 0].

(** One Connection, Busy; the dispatcher looks for another one for request
    1 while the handler of request 2 is parked on the dispatcher channel. *)
Definition run_parked : list Move :=
  [Env (ActRegister (greet "agent1_3")); Env (ActRequest proxy0);
   Disp 0; Disp 0; Disp 0; Disp 0; Disp 0; Disp 0; Disp 0;
   Env (ActRequest proxy0); Env (ActRequest proxy0); Disp 0].

(** The run of [run_inflight], then the clock passes the deadline 3 of
    request 1 while the dispatcher stands at the select, the only Connection
    still Busy: nothing was taken for request 1. *)
Definition run_elapsed : list Move :=
  run_inflight ++ [Env ActTick; Env ActTick; Env ActTick; Env ActTick].

(** The handler of request 0 gives its Connection back, and the dispatcher
    goes on from the select. *)
Definition late_release : list Move :=
  [Env (ActRelease 0); Disp 0; Disp 0; Disp 0; Disp 0].

(** Request [r] was created, is not parked on the dispatcher channel and
    was never consumed by the dispatcher. *)
Definition stranded (r : ReqRef) (st : Loc * World) : Prop :=
  r < next_request (snd st)
  /\ (forall s, (r, s) ∉ s_dispatcher (snd st))
  /\ ~ dequeued r (trace (snd st)).

(** ** Greetings field by field *)

(** How many separators a string holds. *)
Fixpoint count_sep (sep : ascii) (s : string) : nat :=
  match s with
  | EmptyString => 0
  | String ch rest => (if Ascii.eqb ch sep then 1 else 0) + count_sep sep rest
  end.

(** The greeting of an agent: its identity, the separator, the size as
    written. *)
Definition greeting_of (id field : string) : string := id +:+ String "_" field.

(** A registration that passes the secret check and the upgrade. *)
Definition accepted (rq : RegisterReq) (w : World) : Prop :=
  secretKey rq = SecretKey (s_config w) /\ upgrade_ok rq = true.

(** ** The dispatcher on its own *)

(** A move of the dispatcher. *)
Definition is_disp (m : Move) : bool :=
  match m with
  | Disp _ => true
  | Env _ => false
  end.

(** No idle channel of the registry holds a token. *)
Definition no_token (w : World) : Prop := forall p, p ∈ s_pools w -> ready w p = false.

(** The dispatcher is somewhere in the polling part of the scan loop for
    [r], in world [w]. *)
Definition polling (r : ReqRef) (d : Z) (w : World) (st : Loc * World) : Prop :=
  snd st = w
  /\ (fst st = AtDeadline r d \/ fst st = AtScan r d \/ fst st = AtSelect r d (s_pools w)).

(** The events of a dispatcher that only ever times requests out. *)
Definition timeout_only (e : Event) : Prop :=
  match e with
  | EvDequeue _ _ _ _ | EvClose _ TimedOut => True
  | _ => False
  end.

(** Where the dispatcher can stand when every deadline has passed on
    arrival. *)
Definition never_scans (st : Loc * World) : Prop :=
  match fst st with
  | AtRecv | Returned | AtClose _ TimedOut => True
  | AtDeadline _ d => (d <= now (snd st))%Z
  | _ => False
  end.

(** A configuration whose timeout is zero. *)
Definition config_zero : Config := mkConfig "s3cret" 0.

(** The first registration and the first request of a new server, then
    the dispatcher alone. *)
Definition first_request (secret g : string) (rq : ProxyReq) (picks : list nat)
  : list Move :=
  Env (ActRegister (mkRegisterReq secret true (Some g))) :: Env (ActRequest rq)
  :: (Disp <$> picks).

(** * Properties *)

(** ** Field projections after an update *)

Lemma world_eta (w : World) :
  mkWorld (s_config w) (s_pools w) (s_done w) (s_dispatcher w) (s_dispatcher_closed w)
    (pool_heap w) (conn_heap w) (ws_heap w) (next_request w) (now w) (trace w) (panicked w)
  = w.
Proof. by destruct w. Qed.

Lemma pool_eta (p : Pool) : mkPool (p_id p) (p_size p) (p_connections p) (p_idle p) = p.
Proof. by destruct p. Qed.

(** ** The greeting *)

Lemma Split_nonempty (s : string) (sep : ascii) : Split s sep <> [].
Proof.
  induction s as [|ch rest IH]; simpl; [done|].
  destruct (Ascii.eqb ch sep); [done|].
  by destruct (Split rest sep).
Qed.

(** A greeting whose second field is not a number is refused: the error
    path of lines 283-287 closes the transport and leaves the registry as it
    was. *)
Lemma Register_bad_size (w : World) (rq : RegisterReq) (g id field : string)
    (rest : list string) :
  secretKey rq = SecretKey (s_config w) ->
  upgrade_ok rq = true ->
  greeting rq = Some g ->
  Split g "_"%char = id :: field :: rest ->
  Atoi field = None ->
  Register rq w
  = (ProxyError "Unable to parse greeting message",
     ws_Close (length (ws_heap w)) (snd (Upgrade w))).
Proof.
  intros Hkey Hup Hg Hsplit Hsize. unfold Register.
  rewrite Hkey, bool_decide_eq_true_2 by done. simpl.
  rewrite Hup, Hg. simpl. rewrite Hsplit. simpl. by rewrite Hsize.
Qed.

(** C1, at the greeting ["agent1"]: the split has one field, [split[1]]
    is out of range and the handler panics.  No pool is created, but the
    branch that closes the transport is not reached: the upgraded transport
    stays open. *)
Theorem Register_agent1_panics (w : World) :
  let rq := mkRegisterReq (SecretKey (s_config w)) true (Some "agent1"%string) in
  let ws := length (ws_heap w) in
  fst (Register rq w) = Panic "index out of range [1]"
  /\ ws_heap (snd (Register rq w)) !! ws = Some false
  /\ s_pools (snd (Register rq w)) = s_pools w
  /\ pool_heap (snd (Register rq w)) = pool_heap w.
Proof.
  intros rq ws. unfold Register. subst rq. cbn [secretKey upgrade_ok greeting].
  rewrite bool_decide_eq_true_2 by done. cbn.
  repeat split; try done.
  subst ws. by rewrite lookup_app_r, Nat.sub_diag.
Qed.

(** A greeting with three fields is not refused either: the fields after
    the second are ignored. *)
Example Register_three_fields :
  fst (Register (greet "a_3_x") (NewServer config0)) = Done
  /\ s_pools (snd (Register (greet "a_3_x") (NewServer config0))) = [0].
Proof. by vm_compute. Qed.

Example Split_agent1 : Split "agent1" "_" = ["agent1"%string].
Proof. reflexivity. Qed.

Example Split_agent1_3 : Split "agent1_3" "_" = ["agent1"%string; "3"%string].
Proof. reflexivity. Qed.

Example Atoi_examples :
  Atoi "3" = Some 3%Z /\ Atoi "-12" = Some (-12)%Z /\ Atoi "" = None /\ Atoi "x" = None
  /\ Atoi "9223372036854775808" = None /\ Atoi "+7" = Some 7%Z /\ Atoi "1_0" = None.
Proof. by vm_compute. Qed.

(** ** Registration *)

Lemma lookup_pool_Some (heap : list Pool) (id : PoolID) (ps : list PoolRef) (p : PoolRef) :
  lookup_pool heap id ps = Some p ->
  p ∈ ps /\ exists pool, heap !! p = Some pool /\ p_id pool = id.
Proof.
  induction ps as [|q ps IH]; simpl; [done|].
  destruct (heap !! q) as [pool|] eqn:Hq.
  - destruct (decide (p_id pool = id)) as [Hid|Hid].
    + intros [= <-]. split; [left|eauto].
    + intros H. destruct (IH H) as [Hin Hp]. split; [by right|done].
  - intros H. destruct (IH H) as [Hin Hp]. split; [by right|done].
Qed.

Lemma lookup_pool_None (heap : list Pool) (id : PoolID) (ps : list PoolRef) :
  lookup_pool heap id ps = None ->
  forall p pool, p ∈ ps -> heap !! p = Some pool -> p_id pool <> id.
Proof.
  induction ps as [|q ps IH]; simpl; intros Hnone p pool Hin Hp.
  - by apply elem_of_nil in Hin.
  - apply elem_of_cons in Hin as [->|Hin].
    + rewrite Hp in Hnone. by destruct (decide (p_id pool = id)).
    + destruct (heap !! q) as [pool'|]; [destruct (decide (p_id pool' = id)); [done|]|];
        by apply (IH Hnone p pool).
Qed.

Lemma has_pool_lookup (id : PoolID) (w : World) :
  has_pool id w <-> is_Some (lookup_pool (pool_heap w) id (s_pools w)).
Proof.
  split.
  - intros (p & pool & Hin & Hp & Hid).
    destruct (lookup_pool (pool_heap w) id (s_pools w)) eqn:E; [eauto|].
    by destruct (lookup_pool_None _ _ _ E p pool Hin Hp).
  - intros [p E]. apply lookup_pool_Some in E as (Hin & pool & Hp & Hid).
    by exists p, pool.
Qed.

Lemma Pool_Register_pools p ws w : s_pools (Pool_Register p ws w) = s_pools w.
Proof. unfold Pool_Register. simpl. by destruct (pool_heap w !! p). Qed.

Lemma Pool_Register_heap_length p ws w :
  length (pool_heap (Pool_Register p ws w)) = length (pool_heap w).
Proof.
  unfold Pool_Register. simpl. destruct (pool_heap w !! p); simpl; [|done].
  by rewrite length_insert.
Qed.

Lemma Pool_Register_id p ws w q : id_at q (Pool_Register p ws w) = id_at q w.
Proof.
  unfold Pool_Register, id_at. simpl. destruct (pool_heap w !! p) as [pool|] eqn:Hp; simpl; [|done].
  destruct (decide (p = q)) as [->|Hne].
  - rewrite list_lookup_insert_eq by (by eapply lookup_lt_Some). by rewrite Hp.
  - by rewrite list_lookup_insert_ne.
Qed.

Lemma Pool_Register_size p ws w q : size_at q (Pool_Register p ws w) = size_at q w.
Proof.
  unfold Pool_Register, size_at. simpl. destruct (pool_heap w !! p) as [pool|] eqn:Hp; simpl; [|done].
  destruct (decide (p = q)) as [->|Hne].
  - rewrite list_lookup_insert_eq by (by eapply lookup_lt_Some). by rewrite Hp.
  - by rewrite list_lookup_insert_ne.
Qed.

Lemma Register_valid (w : World) (rq : RegisterReq) (g id field : string)
    (rest : list string) (n : Z) :
  secretKey rq = SecretKey (s_config w) ->
  upgrade_ok rq = true ->
  greeting rq = Some g ->
  Split g "_"%char = id :: field :: rest ->
  Atoi field = Some n ->
  Register rq w = (Done, register_pool id n (length (ws_heap w)) (snd (Upgrade w))).
Proof.
  intros Hkey Hup Hg Hsplit Hsize. unfold Register.
  rewrite Hkey, bool_decide_eq_true_2 by done. simpl.
  rewrite Hup, Hg. simpl. rewrite Hsplit. simpl. by rewrite Hsize.
Qed.

(** C7: a registration with identity [id] and declared size [n] reuses the
    pool of [id] when the registry has one, without appending, and appends a
    new pool for [id] otherwise; either way that pool's size is [n]
    afterwards. *)
Theorem Register_lookupOrCreate (w : World) (rq : RegisterReq) (g id field : string)
    (rest : list string) (n : Z) :
  secretKey rq = SecretKey (s_config w) ->
  upgrade_ok rq = true ->
  greeting rq = Some g ->
  Split g "_"%char = id :: field :: rest ->
  Atoi field = Some n ->
  let w' := snd (Register rq w) in
  fst (Register rq w) = Done
  /\ (has_pool id w ->
      s_pools w' = s_pools w
      /\ length (pool_heap w') = length (pool_heap w)
      /\ exists p, lookup_pool (pool_heap w) id (s_pools w) = Some p
           /\ p ∈ s_pools w /\ id_at p w = Some id
           /\ id_at p w' = Some id /\ size_at p w' = Some n)
  /\ (~ has_pool id w ->
      let p := length (pool_heap w) in
      s_pools w' = s_pools w ++ [p]
      /\ length (pool_heap w') = S (length (pool_heap w))
      /\ id_at p w' = Some id /\ size_at p w' = Some n).
Proof.
  intros Hkey Hup Hg Hsplit Hsize w'. subst w'.
  rewrite (Register_valid w rq g id field rest n) by done. simpl.
  split; [done|]. unfold register_pool. split.
  - intros Hhas. apply has_pool_lookup in Hhas as [p Hp]. simpl. rewrite Hp.
    destruct (lookup_pool_Some _ _ _ _ Hp) as (Hin & pool & Hpool & Hid). simpl. rewrite Hpool.
    rewrite Pool_Register_pools, Pool_Register_heap_length. simpl.
    rewrite length_insert. repeat split; [].
    exists p. rewrite Pool_Register_id, Pool_Register_size.
    unfold id_at, size_at. simpl.
    rewrite list_lookup_insert_eq by (by eapply lookup_lt_Some). rewrite Hpool. simpl.
    by rewrite Hid.
  - intros Hno. simpl.
    destruct (lookup_pool (pool_heap w) id (s_pools w)) as [p|] eqn:Hp.
    { destruct Hno. apply has_pool_lookup. eauto. }
    simpl. rewrite lookup_app_r, Nat.sub_diag by done. simpl.
    rewrite Pool_Register_pools, Pool_Register_heap_length, Pool_Register_id,
      Pool_Register_size.
    unfold id_at, size_at. simpl. rewrite length_insert, length_app. simpl.
    rewrite list_lookup_insert_eq by (rewrite length_app; simpl; lia).
    repeat split; try done. lia.
Qed.

Lemma Register_lookupOrCreate_witness :
  fst (Register (greet "agent1_3") (NewServer config0)) = Done
  /\ s_pools (snd (Register (greet "agent1_3") (NewServer config0))) = [0].
Proof.
  pose proof (Register_lookupOrCreate (NewServer config0) (greet "agent1_3")
                "agent1_3" "agent1" "3" [] 3%Z eq_refl eq_refl eq_refl eq_refl eq_refl)
    as (Hdone & _ & Hnew).
  split; [exact Hdone|].
  apply Hnew. intros (p & pool & Hin & _). simpl in Hin. by apply elem_of_nil in Hin.
Defined.

(** ** What the heap operations leave alone *)

Lemma pools_stable_refl w : pools_stable w w.
Proof. by split. Qed.

Lemma pools_stable_trans w1 w2 w3 :
  pools_stable w1 w2 -> pools_stable w2 w3 -> pools_stable w1 w3.
Proof.
  intros [Hp Hi] [Hp' Hi']. split; [congruence|]. intros p. by rewrite Hi', Hi.
Qed.

Lemma insert_keeps_id (heap : list Pool) (p q : PoolRef) (pool pool' : Pool) :
  heap !! p = Some pool -> p_id pool' = p_id pool ->
  p_id <$> <[p := pool']> heap !! q = p_id <$> heap !! q.
Proof.
  intros Hp Hid. destruct (decide (p = q)) as [->|Hne].
  - rewrite list_lookup_insert_eq by (by eapply lookup_lt_Some). rewrite Hp. simpl. by rewrite Hid.
  - by rewrite list_lookup_insert_ne.
Qed.

Lemma Connection_Close_ctl c w : ctl (Connection_Close c w) = ctl w.
Proof.
  unfold Connection_Close. destruct (conn_heap w !! c) as [conn|]; [|done].
  destruct (c_status conn); try done; simpl; by destruct (pool_heap w !! c_pool conn).
Qed.

Lemma Connection_Close_stable c w : pools_stable w (Connection_Close c w).
Proof.
  unfold Connection_Close. destruct (conn_heap w !! c) as [conn|]; [|apply pools_stable_refl].
  destruct (c_status conn); try apply pools_stable_refl; simpl;
    (destruct (pool_heap w !! c_pool conn) as [pool|] eqn:Hp; [|by split]);
    (split; [done|]; intros q; unfold id_at; simpl; by eapply insert_keeps_id).
Qed.

Lemma Connection_Release_ctl c w : ctl (Connection_Release c w) = ctl w.
Proof.
  unfold Connection_Release. destruct (conn_heap w !! c) as [conn|]; [|done].
  destruct (c_status conn); try done; simpl; by destruct (pool_heap w !! c_pool conn).
Qed.

Lemma Connection_Release_stable c w : pools_stable w (Connection_Release c w).
Proof.
  unfold Connection_Release. destruct (conn_heap w !! c) as [conn|]; [|apply pools_stable_refl].
  destruct (c_status conn); try apply pools_stable_refl; simpl;
    (destruct (pool_heap w !! c_pool conn) as [pool|] eqn:Hp; [|by split]);
    (split; [done|]; intros q; unfold id_at; simpl; by eapply insert_keeps_id).
Qed.

Lemma Connection_Take_ctl c w : ctl (snd (Connection_Take c w)) = ctl w.
Proof.
  unfold Connection_Take. destruct (conn_heap w !! c) as [conn|]; [|done].
  by destruct (c_status conn).
Qed.

Lemma Connection_Take_stable c w : pools_stable w (snd (Connection_Take c w)).
Proof.
  unfold Connection_Take. destruct (conn_heap w !! c) as [conn|]; [|apply pools_stable_refl].
  destruct (c_status conn); apply pools_stable_refl || by split.
Qed.

Lemma close_all_ctl cs w :
  ctl (fold_left (fun w c => Connection_Close c w) cs w) = ctl w.
Proof.
  revert w. induction cs as [|c cs IH]; intros w; simpl; [done|].
  by rewrite IH, Connection_Close_ctl.
Qed.

Lemma close_all_stable cs w :
  pools_stable w (fold_left (fun w c => Connection_Close c w) cs w).
Proof.
  revert w. induction cs as [|c cs IH]; intros w; simpl; [apply pools_stable_refl|].
  eapply pools_stable_trans; [apply Connection_Close_stable|apply IH].
Qed.

Lemma Pool_Shutdown_ctl p w : ctl (Pool_Shutdown p w) = ctl w.
Proof.
  unfold Pool_Shutdown. destruct (pool_heap w !! p) as [pool|]; [|done].
  destruct (pool_heap _ !! p); simpl; apply close_all_ctl.
Qed.

Lemma Pool_Shutdown_stable p w : pools_stable w (Pool_Shutdown p w).
Proof.
  unfold Pool_Shutdown. destruct (pool_heap w !! p) as [pool|]; [|apply pools_stable_refl].
  eapply pools_stable_trans; [apply close_all_stable|].
  destruct (pool_heap _ !! p) as [pool1|] eqn:Hp1; [|apply pools_stable_refl].
  split; [done|]. intros q. unfold id_at. simpl. by eapply insert_keeps_id.
Qed.

Lemma shutdown_all_ctl ps w :
  ctl (fold_left (fun w p => Pool_Shutdown p w) ps w) = ctl w.
Proof.
  revert w. induction ps as [|p ps IH]; intros w; simpl; [done|].
  by rewrite IH, Pool_Shutdown_ctl.
Qed.

Lemma shutdown_all_stable ps w :
  pools_stable w (fold_left (fun w p => Pool_Shutdown p w) ps w).
Proof.
  revert w. induction ps as [|p ps IH]; intros w; simpl; [apply pools_stable_refl|].
  eapply pools_stable_trans; [apply Pool_Shutdown_stable|apply IH].
Qed.

Lemma Pool_Register_ctl p ws w : ctl (Pool_Register p ws w) = ctl w.
Proof. unfold Pool_Register. simpl. by destruct (pool_heap w !! p). Qed.

(** ** The sweep *)

(** Shutting an empty pool down changes nothing. *)
Lemma Pool_Shutdown_empty p w : Pool_IsEmpty p w = true -> Pool_Shutdown p w = w.
Proof.
  unfold Pool_IsEmpty, Pool_Shutdown. destruct (pool_heap w !! p) as [pool|] eqn:Hp; [|done].
  destruct (p_connections pool) eqn:Hcs; [|done]. intros _. simpl. rewrite Hp.
  replace (with_connections [] pool) with pool
    by (unfold with_connections; rewrite <- Hcs; by rewrite pool_eta).
  rewrite list_insert_id by done. unfold set_pool_heap. apply world_eta.
Qed.

Lemma clean_body_step (w : World) (kept : list PoolRef) (i b : nat) (p : PoolRef) :
  clean_body (mkSweep w kept i b) p
  = mkSweep w (if Pool_IsEmpty p w then kept else kept ++ [p])
      (i + fst (Pool_Size p w)) (b + snd (Pool_Size p w)).
Proof.
  unfold clean_body. simpl. destruct (Pool_IsEmpty p w) eqn:He; [|done].
  by rewrite (Pool_Shutdown_empty p w He).
Qed.

Lemma clean_body_fold (ps : list PoolRef) (w : World) (kept : list PoolRef) (i b : nat) :
  sw_world (fold_left clean_body ps (mkSweep w kept i b)) = w
  /\ sw_pools (fold_left clean_body ps (mkSweep w kept i b))
     = kept ++ List.filter (nonempty w) ps.
Proof.
  revert kept i b. induction ps as [|p ps IH]; intros kept i b; simpl.
  - by rewrite app_nil_r.
  - rewrite clean_body_step.
    change (nonempty w p) with (negb (Pool_IsEmpty p w)).
    destruct (Pool_IsEmpty p w) eqn:He; simpl; [apply IH|].
    destruct (IH (kept ++ [p]) (i + fst (Pool_Size p w)) (b + snd (Pool_Size p w)))
      as [Hw Hk].
    split; [exact Hw|]. rewrite Hk. by rewrite <- app_assoc.
Qed.

Lemma clean_eq (w : World) : clean w = set_pools (List.filter (nonempty w) (s_pools w)) w.
Proof.
  unfold clean. destruct (s_pools w) as [|p ps] eqn:Hps.
  - simpl. unfold set_pools. rewrite <- Hps. by rewrite world_eta.
  - unfold clean_loop. rewrite Hps.
    destruct (clean_body_fold (p :: ps) w [] 0 0) as [Hw Hk].
    by rewrite Hw, Hk.
Qed.

Lemma shutdown_empties (ps : list PoolRef) (w : World) :
  Forall (fun p => Pool_IsEmpty p w = true) ps ->
  fold_left (fun w p => Pool_Shutdown p w) ps w = w.
Proof.
  induction 1 as [|p ps Hp _ IH]; simpl; [done|]. by rewrite Pool_Shutdown_empty.
Qed.

(** C9: the sweep keeps exactly the non-empty pools, in order; a pool with
    a live Connection stays, no empty pool is left in the list, and the world
    after the sweep is the one in which every removed pool was shut down. *)
Theorem clean_removes_exactly_empty (w : World) :
  s_pools (clean w) = List.filter (nonempty w) (s_pools w)
  /\ (forall p, p ∈ s_pools w -> Pool_IsEmpty p w = false -> p ∈ s_pools (clean w))
  /\ (forall p, p ∈ s_pools w -> Pool_IsEmpty p w = true -> p ∉ s_pools (clean w))
  /\ (forall p, p ∈ s_pools (clean w) -> p ∈ s_pools w /\ Pool_IsEmpty p (clean w) = false)
  /\ clean w
     = set_pools (List.filter (nonempty w) (s_pools w))
         (fold_left (fun w p => Pool_Shutdown p w)
            (List.filter (fun p => Pool_IsEmpty p w) (s_pools w)) w).
Proof.
  rewrite clean_eq. simpl. split; [done|].
  split; [|split; [|split]].
  - intros p Hin He. apply list_elem_of_In, filter_In. split; [by apply list_elem_of_In|].
    unfold nonempty. by rewrite He.
  - intros p Hin He Hin'. apply list_elem_of_In, filter_In in Hin' as [_ Hne].
    unfold nonempty in Hne. by rewrite He in Hne.
  - intros p Hin. apply list_elem_of_In, filter_In in Hin as [Hin Hne].
    split; [by apply list_elem_of_In|]. unfold nonempty in Hne.
    unfold Pool_IsEmpty in *. simpl. by apply negb_true_iff.
  - rewrite shutdown_empties; [done|].
    apply List.Forall_forall. intros p Hin. by apply filter_In in Hin as [_ He].
Qed.

Lemma clean_removes_exactly_empty_witness :
  0 ∈ s_pools (clean world1) /\ 0 ∉ s_pools (clean (Connection_Close 0 world1)).
Proof.
  split.
  - apply (proj1 (proj2 (clean_removes_exactly_empty world1))); [|reflexivity].
    vm_compute. left.
  - apply (proj1 (proj2 (proj2 (clean_removes_exactly_empty (Connection_Close 0 world1)))));
      [|reflexivity].
    vm_compute. left.
Defined.

(** ** One pool per identity *)

Lemma omap_ext_in {A B} (f g : A -> option B) (l : list A) :
  (forall x, x ∈ l -> f x = g x) -> omap f l = omap g l.
Proof.
  induction l as [|x l IH]; intros H; [done|]. cbn.
  rewrite (H x) by left. rewrite IH; [done|]. intros y Hy. apply H. by right.
Qed.

Lemma ids_stable w w' : pools_stable w w' -> ids w' = ids w.
Proof.
  intros [Hp Hi]. unfold ids. rewrite Hp. apply omap_ext_in. intros p _. apply Hi.
Qed.

Lemma registry_ok_stable w w' : pools_stable w w' -> registry_ok w -> registry_ok w'.
Proof.
  intros Hst [Hv Hu]. split.
  - destruct Hst as [Hp Hi]. intros p Hin. rewrite Hi. apply Hv. by rewrite <- Hp.
  - by rewrite (ids_stable w w').
Qed.

Lemma NoDup_omap_filter {A B} (f : A -> option B) (g : A -> bool) (l : list A) :
  NoDup (omap f l) -> NoDup (omap f (List.filter g l)).
Proof.
  induction l as [|x l IH]; [done|]. cbn.
  assert (Hsub : forall y, y ∈ omap f (List.filter g l) -> y ∈ omap f l).
  { intros y Hy. apply list_elem_of_omap in Hy as (z & Hz & Hfz).
    apply list_elem_of_omap. exists z. split; [|done].
    apply list_elem_of_In. apply list_elem_of_In, filter_In in Hz. tauto. }
  destruct (f x) as [y|] eqn:Hfx; destruct (g x); cbn; rewrite ?Hfx; intros Hnd; auto.
  - apply NoDup_cons in Hnd as [Hy Hnd]. apply NoDup_cons. split; [|by apply IH].
    intros Hy'. by apply Hy, Hsub.
  - apply NoDup_cons in Hnd as [_ Hnd]. by apply IH.
Qed.

Lemma registry_ok_filter (g : PoolRef -> bool) (w : World) :
  registry_ok w -> registry_ok (set_pools (List.filter g (s_pools w)) w).
Proof.
  intros [Hv Hu]. split.
  - simpl. intros p Hin. apply list_elem_of_In, filter_In in Hin as [Hin _].
    apply (Hv p). by apply list_elem_of_In.
  - unfold ids. simpl. by apply (NoDup_omap_filter (fun p => id_at p w)).
Qed.

Lemma clean_registry_ok w : registry_ok w -> registry_ok (clean w).
Proof. rewrite clean_eq. apply registry_ok_filter. Qed.

Lemma with_size_stable p pool n w :
  pool_heap w !! p = Some pool ->
  pools_stable w (set_pool_heap (<[p := with_size n pool]> (pool_heap w)) w).
Proof. intros Hp. split; [done|]. intros q. unfold id_at. simpl. by eapply insert_keeps_id. Qed.

Lemma Pool_Register_stable p ws w : pools_stable w (Pool_Register p ws w).
Proof. split; [apply Pool_Register_pools|]. intros q. apply Pool_Register_id. Qed.

Lemma register_pool_registry_ok id n ws w :
  registry_ok w -> registry_ok (register_pool id n ws w).
Proof.
  intros Hok. unfold register_pool.
  destruct (lookup_pool (pool_heap w) id (s_pools w)) as [p|] eqn:Hlook.
  - destruct (lookup_pool_Some _ _ _ _ Hlook) as (_ & pool & Hp & _). rewrite Hp.
    eapply registry_ok_stable; [apply Pool_Register_stable|].
    eapply registry_ok_stable; [by apply with_size_stable|done].
  - simpl. rewrite lookup_app_r, Nat.sub_diag by done. simpl.
    eapply registry_ok_stable; [apply Pool_Register_stable|].
    destruct Hok as [Hv Hu].
    assert (Hold : forall q, q ∈ s_pools w ->
              p_id <$> <[length (pool_heap w) := with_size n (mkPool id 0%Z [] [])]>
                         (pool_heap w ++ [mkPool id 0%Z [] []]) !! q
              = id_at q w).
    { intros q Hq. destruct (Hv q Hq) as [x Hx]. unfold id_at in *.
      apply fmap_Some in Hx as (pool & Hpool & _).
      assert (q < length (pool_heap w)) by (by eapply lookup_lt_Some).
      rewrite list_lookup_insert_ne by lia. by rewrite lookup_app_l. }
    assert (Hnew : p_id <$> <[length (pool_heap w) := with_size n (mkPool id 0%Z [] [])]>
                         (pool_heap w ++ [mkPool id 0%Z [] []]) !! length (pool_heap w)
                   = Some id).
    { rewrite list_lookup_insert_eq; [done|]. rewrite length_app. simpl. lia. }
    split.
    + simpl. intros q Hq. unfold id_at. simpl. apply elem_of_app in Hq as [Hq|Hq].
      * rewrite Hold by done. by apply Hv.
      * apply list_elem_of_singleton in Hq as ->. rewrite Hnew. eauto.
    + unfold ids. simpl. rewrite omap_app. unfold id_at at 2. cbn.
      rewrite Hnew. cbn.
      rewrite (omap_ext_in _ (fun q => id_at q w)).
      2:{ intros q Hq. unfold id_at at 1. simpl. by apply Hold. }
      apply NoDup_app. split; [exact Hu|]. split; [|apply NoDup_singleton].
      intros x Hx Hx'. apply list_elem_of_singleton in Hx' as ->.
      apply list_elem_of_omap in Hx as (q & Hq & Hid). unfold id_at in Hid.
      apply fmap_Some in Hid as (pool & Hpool & Hid).
      by apply (lookup_pool_None _ _ _ Hlook q pool).
Qed.

Lemma Register_world rq w :
  (pools_stable w (snd (Register rq w))
   /\ pool_heap (snd (Register rq w)) = pool_heap w
   /\ conn_heap (snd (Register rq w)) = conn_heap w)
  \/ exists id n,
       snd (Register rq w) = register_pool id n (length (ws_heap w)) (snd (Upgrade w)).
Proof.
  unfold Register.
  destruct (negb (bool_decide _)); [left; by repeat split|].
  destruct (negb (upgrade_ok rq)); [left; by repeat split|].
  simpl. destruct (greeting rq) as [g|]; [|left; by repeat split].
  destruct (Split g "_" !! 0) as [id|]; [|left; by repeat split].
  destruct (Split g "_" !! 1) as [field|]; [|left; by repeat split].
  destruct (Atoi field) as [n|]; [|left; by repeat split].
  right. by exists id, n.
Qed.

Lemma Upgrade_stable w : pools_stable w (snd (Upgrade w)).
Proof. by split. Qed.

Lemma Register_registry_ok rq w : registry_ok w -> registry_ok (snd (Register rq w)).
Proof.
  intros Hok. destruct (Register_world rq w) as [(Hst & _)|(id & n & ->)].
  - by eapply registry_ok_stable.
  - apply register_pool_registry_ok. by eapply registry_ok_stable; [apply Upgrade_stable|].
Qed.

Lemma Shutdown_registry_ok w : registry_ok w -> registry_ok (snd (Shutdown w)).
Proof.
  intros Hok. unfold Shutdown. destruct (s_done w); [done|]. simpl.
  destruct (s_dispatcher_closed w); [by eapply registry_ok_stable; [|exact Hok]|].
  simpl. apply clean_registry_ok.
  eapply registry_ok_stable; [apply shutdown_all_stable|].
  by eapply registry_ok_stable; [|exact Hok].
Qed.

(** ** Runs *)

Lemma exec_app ms1 ms2 st : exec (ms1 ++ ms2) st = exec ms2 (exec ms1 st).
Proof. apply fold_left_app. Qed.

Lemma exec_invariant (P : Loc * World -> Prop) :
  (forall st m, P st -> P (move_step st m)) ->
  forall ms st, P st -> P (exec ms st).
Proof.
  intros Hstep ms. induction ms as [|m ms IH]; intros st Hst; [done|].
  simpl. apply IH, Hstep, Hst.
Qed.

Lemma Select_Some pick cases w p c w' :
  Select pick cases w = Some (p, c, w') ->
  exists pool rest,
    p ∈ cases /\ pool_heap w !! p = Some pool /\ p_idle pool = c :: rest
    /\ w' = set_pool_heap (<[p := with_idle rest pool]> (pool_heap w)) w.
Proof.
  unfold Select. destruct (List.filter (ready w) cases !! _) as [q|] eqn:Hq; [|done].
  destruct (pool_heap w !! q) as [pool|] eqn:Hpool; [|done].
  destruct (p_idle pool) as [|c' rest] eqn:Hidle; [done|].
  intros [= <- <- <-]. exists pool, rest. repeat split; try done.
  apply list_elem_of_lookup_2 in Hq. apply list_elem_of_In, filter_In in Hq as [Hq _].
  by apply list_elem_of_In.
Qed.

Lemma Select_stable pick cases w p c w' :
  Select pick cases w = Some (p, c, w') -> pools_stable w w' /\ ctl w' = ctl w.
Proof.
  intros H. apply Select_Some in H as (pool & rest & _ & Hp & _ & ->).
  split; [|done]. split; [done|]. intros q. unfold id_at. simpl. by eapply insert_keeps_id.
Qed.

Lemma log_stable e w : pools_stable w (log e w).
Proof. by split. Qed.

Lemma disp_step_stable pick l w l' w' :
  dispatchConnections pick l w = Some (l', w') -> pools_stable w w'.
Proof.
  destruct l as [|r d|r d|r d cases|r d c|r d c|r o|]; simpl.
  - destruct (s_dispatcher w) as [|[r t0] q].
    + destruct (s_dispatcher_closed w); [|done]. intros [= <- <-]. apply pools_stable_refl.
    + by intros [= <- <-].
  - destruct (d <=? now w)%Z; intros [= <- <-]; apply pools_stable_refl.
  - destruct (s_pools w); intros [= <- <-]; apply pools_stable_refl.
  - destruct (Select pick cases w) as [[[p c] w1]|] eqn:Hsel.
    + intros [= <- <-]. apply Select_stable in Hsel as [Hst _].
      eapply pools_stable_trans; [exact Hst|apply log_stable].
    + intros [= <- <-]. apply pools_stable_refl.
  - pose proof (Connection_Take_stable c w) as Hst.
    destruct (Connection_Take c w) as [ok w1]. intros [= <- <-].
    eapply pools_stable_trans; [exact Hst|apply log_stable].
  - by intros [= <- <-].
  - by intros [= <- <-].
  - done.
Qed.

Lemma Request_stable rq w :
  pools_stable w (snd (Request rq w))
  /\ pool_heap (snd (Request rq w)) = pool_heap w
  /\ conn_heap (snd (Request rq w)) = conn_heap w.
Proof.
  unfold Request. destruct (bool_decide _); [by repeat split|].
  destruct (negb (url_ok rq)); [by repeat split|].
  destruct (s_pools w); [by repeat split|]. simpl.
  by destruct (s_dispatcher_closed w).
Qed.

Lemma env_step_registry_ok a w : registry_ok w -> registry_ok (env_step a w).
Proof.
  intros Hok. destruct a as [|rq|rq| | |c|c]; simpl.
  - by eapply registry_ok_stable; [|exact Hok].
  - by apply Register_registry_ok.
  - eapply registry_ok_stable; [apply Request_stable|done].
  - by apply clean_registry_ok.
  - by apply Shutdown_registry_ok.
  - eapply registry_ok_stable; [apply Connection_Close_stable|done].
  - eapply registry_ok_stable; [apply Connection_Release_stable|done].
Qed.

Lemma move_step_registry_ok st m : registry_ok (snd st) -> registry_ok (snd (move_step st m)).
Proof.
  intros Hok. destruct st as [l w], m as [pick|a]; simpl in *.
  - destruct (dispatchConnections pick l w) as [[l' w']|] eqn:Hstep; [|done].
    eapply registry_ok_stable; [by eapply disp_step_stable|done].
  - by apply env_step_registry_ok.
Qed.

Lemma NewServer_registry_ok config : registry_ok (NewServer config).
Proof. split; [intros p Hp; by apply elem_of_nil in Hp|]. constructor. Qed.

Lemma NoDup_omap_inj {A B} (f : A -> option B) (l : list A) (i j : nat) (a b : A) :
  (forall z, z ∈ l -> is_Some (f z)) -> NoDup (omap f l) ->
  l !! i = Some a -> l !! j = Some b -> f a = f b -> i = j.
Proof.
  revert i j. induction l as [|x l IH]; intros i j Hv Hu Hi Hj Heq; [done|].
  destruct (Hv x) as [y Hy]; [left|]. cbn in Hu. rewrite Hy in Hu.
  apply NoDup_cons in Hu as [Hnotin Hnd].
  assert (Hv' : forall z, z ∈ l -> is_Some (f z)) by (intros z Hz; apply Hv; by right).
  assert (Hin : forall k z, l !! k = Some z -> f z = Some y -> False).
  { intros k z Hk Hz. apply Hnotin, list_elem_of_omap. exists z. split; [|done].
    by eapply list_elem_of_lookup_2. }
  destruct i as [|i], j as [|j]; simpl in *.
  - done.
  - injection Hi as <-. destruct (Hin j b Hj). congruence.
  - injection Hj as <-. destruct (Hin i a Hi). congruence.
  - f_equal. by apply IH.
Qed.

(** Under [registry_ok], two positions of the pool list that hold pools of
    the same identity are the same position. *)
Lemma registry_ok_at_most_one w i j p q :
  registry_ok w ->
  s_pools w !! i = Some p -> s_pools w !! j = Some q -> id_at p w = id_at q w -> i = j.
Proof.
  intros [Hv Hu]. by apply (NoDup_omap_inj (fun p => id_at p w)).
Qed.

(** C8: no identity has two pools in the registry.  This holds for a new
    server and is kept by every registration, every sweep and shutdown, hence
    in every state the server can reach. *)
Theorem one_pool_per_identity :
  (forall config, registry_ok (NewServer config))
  /\ (forall w rq, registry_ok w -> registry_ok (snd (Register rq w)))
  /\ (forall w, registry_ok w -> registry_ok (clean w))
  /\ (forall w, registry_ok w -> registry_ok (snd (Shutdown w)))
  /\ (forall config ms, registry_ok (snd (exec ms (init config))))
  /\ (forall w i j p q, registry_ok w ->
        s_pools w !! i = Some p -> s_pools w !! j = Some q ->
        id_at p w = id_at q w -> i = j).
Proof.
  split; [apply NewServer_registry_ok|].
  split; [intros w rq; apply Register_registry_ok|].
  split; [apply clean_registry_ok|].
  split; [apply Shutdown_registry_ok|].
  split; [|intros w i j p q; apply registry_ok_at_most_one].
  intros config ms.
  apply (exec_invariant (fun st => registry_ok (snd st))).
  - intros st m. apply move_step_registry_ok.
  - apply NewServer_registry_ok.
Qed.

Lemma one_pool_per_identity_witness :
  registry_ok (snd (Register (greet "agent1_5") world1))
  /\ s_pools (snd (Register (greet "agent1_5") world1)) = [0].
Proof.
  split; [|reflexivity].
  apply (proj1 (proj2 one_pool_per_identity)).
  apply (proj1 (proj2 one_pool_per_identity)).
  apply (proj1 one_pool_per_identity).
Defined.

(** ** What the environment does to the dispatcher's bookkeeping *)

Lemma register_pool_ctl id n ws w : ctl (register_pool id n ws w) = ctl w.
Proof.
  unfold register_pool.
  destruct (lookup_pool (pool_heap w) id (s_pools w)) as [p|]; simpl.
  - rewrite Pool_Register_ctl. by destruct (pool_heap w !! p).
  - rewrite Pool_Register_ctl.
    by destruct ((pool_heap w ++ [mkPool id 0%Z [] []]) !! length (pool_heap w)).
Qed.

Lemma Register_ctl rq w : ctl (snd (Register rq w)) = ctl w.
Proof.
  unfold Register.
  destruct (negb (bool_decide _)); [done|].
  destruct (negb (upgrade_ok rq)); [done|].
  simpl. destruct (greeting rq) as [g|]; [|done].
  destruct (Split g "_" !! 0) as [id|]; [|done].
  destruct (Split g "_" !! 1) as [field|]; [|done].
  destruct (Atoi field) as [n|]; [|done].
  simpl. by rewrite register_pool_ctl.
Qed.

Lemma clean_ctl w : ctl (clean w) = ctl w.
Proof. by rewrite clean_eq. Qed.

Lemma ctl_intake_same w w' : ctl w' = ctl w -> intake_change w w'.
Proof. intros [= ? ? ? ? ? ? ?]. by apply intake_same. Qed.

Lemma Shutdown_ctl w :
  s_config (snd (Shutdown w)) = s_config w
  /\ next_request (snd (Shutdown w)) = next_request w
  /\ now (snd (Shutdown w)) = now w
  /\ trace (snd (Shutdown w)) = trace w.
Proof.
  unfold Shutdown. destruct (s_done w); [done|]. simpl.
  destruct (s_dispatcher_closed w); [done|]. simpl.
  pose proof (clean_ctl (fold_left (fun w p => Pool_Shutdown p w) (s_pools w)
      (close_dispatcher (set_done true w)))) as Hc.
  rewrite shutdown_all_ctl in Hc. by injection Hc as -> _ _ _ -> -> ->.
Qed.

Lemma ctl_bookkeeping w w' :
  ctl w' = ctl w ->
  trace w' = trace w /\ s_config w' = s_config w /\ (now w <= now w')%Z
  /\ intake_change w w'.
Proof.
  intros H. pose proof (ctl_intake_same w w' H) as Hi.
  injection H as -> _ _ _ _ -> ->. by split_and!.
Qed.

Lemma env_step_bookkeeping a w :
  trace (env_step a w) = trace w
  /\ s_config (env_step a w) = s_config w
  /\ (now w <= now (env_step a w))%Z
  /\ intake_change w (env_step a w).
Proof.
  destruct a as [|rq|rq| | |c|c]; simpl.
  - split_and!; try done; try lia. by apply intake_same.
  - apply ctl_bookkeeping, Register_ctl.
  - unfold Request. destruct (bool_decide _); [by apply ctl_bookkeeping|].
    destruct (negb (url_ok rq)); [by apply ctl_bookkeeping|].
    destruct (s_pools w); [by apply ctl_bookkeeping|].
    simpl. destruct (s_dispatcher_closed w) eqn:Hc; simpl.
    + split_and!; try done. by apply intake_refused.
    + split_and!; try done. by apply intake_parked.
  - apply ctl_bookkeeping, clean_ctl.
  - destruct (Shutdown_ctl w) as (Hcfg & Hnext & Hnow & Htr).
    split_and!; try done; try lia.
    unfold Shutdown in *. destruct (s_done w); [by apply intake_same|]. simpl in *.
    destruct (s_dispatcher_closed w) eqn:Hc; [by apply intake_same|]. simpl in *.
    pose proof (clean_ctl (fold_left (fun w p => Pool_Shutdown p w) (s_pools w)
      (close_dispatcher (set_done true w)))) as Hcl.
    rewrite shutdown_all_ctl in Hcl. injection Hcl as _ _ Hq Hcd _ _ _.
    by apply intake_closed.
  - apply ctl_bookkeeping, Connection_Close_ctl.
  - apply ctl_bookkeeping, Connection_Release_ctl.
Qed.

(** ** The delivery slot of a request *)

Lemma slot_of_cons r e tr :
  slot_of r (e :: tr) = slot_of r tr ++ (if on_slot r e then [e] else []).
Proof.
  unfold slot_of. simpl. destruct (on_slot r e); simpl; [done|]. by rewrite app_nil_r.
Qed.

Lemma dequeued_cons r e tr :
  dequeued r (e :: tr) <-> (exists s t d, e = EvDequeue r s t d) \/ dequeued r tr.
Proof.
  unfold dequeued. split.
  - intros (s & t & d & H). apply elem_of_cons in H as [H|H]; [left|right]; eauto.
  - intros [(s & t & d & ->)|(s & t & d & H)]; exists s, t, d; [left|by right].
Qed.

Lemma dequeued_cons_other r e tr :
  (forall r' s t d, e <> EvDequeue r' s t d) -> dequeued r (e :: tr) <-> dequeued r tr.
Proof.
  intros He. rewrite dequeued_cons. split; [|by right].
  intros [(s & t & d & ->)|H]; [|done]. by destruct (He r s t d).
Qed.

(** A step that appends an event which is neither a dequeue nor on a slot,
    and keeps the request in hand, keeps the invariant. *)
Lemma req_inv_quiet l l' w w' :
  req_inv (l, w) ->
  s_dispatcher w' = s_dispatcher w -> next_request w' = next_request w ->
  (trace w' = trace w
   \/ exists e, trace w' = e :: trace w /\ (forall r, on_slot r e = false)
        /\ forall r s t d, e <> EvDequeue r s t d) ->
  holds l' = holds l ->
  (forall r, holds l = Some r -> in_hand l r (trace w) -> in_hand l' r (trace w)) ->
  (forall d, deadline_of l' = Some d -> deadline_of l = Some d) ->
  req_inv (l', w').
Proof.
  intros [Hq Hnd Hf Hs Hh Hr] Hdisp Hnext Htr Hholds Hin Hdl. simpl in *.
  assert (Hdq : forall r, dequeued r (trace w') <-> dequeued r (trace w)).
  { intros r. destruct Htr as [->|(e & -> & _ & He)]; [done|]. by apply dequeued_cons_other. }
  assert (Hsl : forall r, slot_of r (trace w') = slot_of r (trace w)).
  { intros r. destruct Htr as [->|(e & -> & He & _)]; [done|].
    rewrite slot_of_cons, He. by rewrite app_nil_r. }
  assert (Hmem : forall r s t d, EvDequeue r s t d ∈ trace w' -> EvDequeue r s t d ∈ trace w).
  { intros r s t d. destruct Htr as [->|(e & -> & _ & He)]; [done|].
    intros H. apply elem_of_cons in H as [H|H]; [|done]. by destruct (He r s t d). }
  constructor; simpl.
  - intros r s. rewrite Hdisp, Hnext, Hdq. apply Hq.
  - by rewrite Hdisp.
  - intros r. rewrite Hdq, Hnext. apply Hf.
  - intros r. unfold slot. rewrite Hdq, Hsl. apply Hs.
  - intros r Hr'. rewrite Hholds in Hr'. destruct (Hh r Hr') as (H1 & H2 & H3).
    rewrite Hdq. split; [done|]. split.
    + specialize (Hin r Hr' H2). unfold in_hand in *. destruct l'; by rewrite Hsl.
    + intros d s t d' Hd Hev. eapply H3; [by apply Hdl|by apply Hmem].
  - intros r. rewrite Hdq, Hholds. unfold resolved. setoid_rewrite Hsl. apply Hr.
Qed.

Lemma req_inv_env l w w' :
  req_inv (l, w) -> trace w' = trace w -> intake_change w w' -> req_inv (l, w').
Proof.
  intros [Hq Hnd Hf Hs Hh Hr] Htr Hch. simpl in *.
  assert (Hlt : forall r, r < next_request w -> r < next_request w').
  { intros r Hlt. destruct Hch as [_ ->|_ ->|_ ->|_ ->]; lia. }
  assert (Hqueue : (forall r s, (r, s) ∈ s_dispatcher w' ->
                      r < next_request w' /\ ~ dequeued r (trace w))
                   /\ NoDup (fst <$> s_dispatcher w')).
  { destruct Hch as [Hd Hn _|Hd Hn _|Hd Hn _|Hd Hn _]; rewrite Hd, Hn.
    - by split.
    - split.
      + intros r s Hin. apply elem_of_app in Hin as [Hin|Hin].
        * destruct (Hq r s Hin). split; [lia|done].
        * apply list_elem_of_singleton in Hin as [= -> ->]. split; [lia|].
          intros Hdq. apply Hf in Hdq. lia.
      + rewrite fmap_app. apply NoDup_app. split; [done|]. split; [|apply NoDup_singleton].
        intros r Hin Hin'. apply list_elem_of_singleton in Hin'. simpl in Hin'. subst r.
        apply list_elem_of_fmap in Hin as ([r s] & Heq & Hin). simpl in Heq. subst r.
        destruct (Hq _ _ Hin). lia.
    - split; [|done]. intros r s Hin. destruct (Hq r s Hin). split; [lia|done].
    - split; [|constructor]. intros r s Hin. by apply elem_of_nil in Hin. }
  destruct Hqueue as [Hq' Hnd'].
  constructor; simpl; unfold slot; rewrite ?Htr; try done.
  intros r Hdq. by apply Hlt, Hf.
Qed.

Lemma req_inv_dequeue w r t0 q :
  req_inv (AtRecv, w) -> s_dispatcher w = (r, t0) :: q ->
  req_inv (AtDeadline r (now w + GetTimeout (s_config w)),
           log (EvDequeue r t0 (now w) (now w + GetTimeout (s_config w))) (set_dispatcher q w)).
Proof.
  intros [Hq Hnd Hf Hs Hh Hr] Hdisp. simpl in *. rewrite Hdisp in Hq, Hnd.
  set (d := (now w + GetTimeout (s_config w))%Z).
  assert (Hr0 : r < next_request w /\ ~ dequeued r (trace w)) by (apply (Hq r t0); left).
  destruct Hr0 as [Hlt Hnew].
  assert (Hsl : forall r', slot_of r' (EvDequeue r t0 (now w) d :: trace w)
                           = slot_of r' (trace w)).
  { intros r'. rewrite slot_of_cons. simpl. by rewrite app_nil_r. }
  assert (Hdq : forall r', dequeued r' (EvDequeue r t0 (now w) d :: trace w)
                           <-> r' = r \/ dequeued r' (trace w)).
  { intros r'. rewrite dequeued_cons. split.
    - intros [(s & t & d' & [= ->])|H]; [by left|by right].
    - intros [->|H]; [left; eauto|by right]. }
  simpl in Hnd. apply NoDup_cons in Hnd as [Hnotin Hnd].
  constructor; simpl.
  - intros r' s Hin. destruct (Hq r' s) as [Hlt' Hnew']; [by right|]. split; [done|].
    rewrite Hdq. intros [->|H]; [|done]. apply Hnotin, list_elem_of_fmap. by exists (r, s).
  - done.
  - intros r'. rewrite Hdq. intros [->|H]; [done|by apply Hf].
  - intros r'. rewrite Hdq. intros H. unfold slot. simpl. rewrite Hsl. apply Hs. tauto.
  - intros r' [= <-]. rewrite Hdq. split; [by left|]. split.
    + rewrite Hsl. by apply Hs.
    + intros d0 s t d' [= <-] Hev. apply elem_of_cons in Hev as [[= _ _ ->]|Hev]; [done|].
      destruct Hnew. by exists s, t, d'.
  - intros r'. rewrite Hdq. intros [->|Hdq'] Hne; [done|]. unfold resolved.
    setoid_rewrite Hsl. by apply Hr.
Qed.

Lemma req_inv_send w r d c :
  req_inv (AtSend r d c, w) -> req_inv (AtClose r (Matched c), log (EvSend r c) w).
Proof.
  intros [Hq Hnd Hf Hs Hh Hr]. simpl in *.
  destruct (Hh r eq_refl) as (Hdq & Hin & _). unfold in_hand in Hin.
  assert (Hdq' : forall r', dequeued r' (EvSend r c :: trace w) <-> dequeued r' (trace w)).
  { intros r'. by apply dequeued_cons_other. }
  assert (Hsl : forall r', r' <> r -> slot_of r' (EvSend r c :: trace w)
                                      = slot_of r' (trace w)).
  { intros r' Hne. rewrite slot_of_cons. simpl.
    destruct (Nat.eqb_spec r r'); [by subst|]. by rewrite app_nil_r. }
  constructor; simpl.
  - intros r' s. rewrite Hdq'. apply Hq.
  - done.
  - intros r'. rewrite Hdq'. apply Hf.
  - intros r'. rewrite Hdq'. intros Hn. unfold slot. simpl. rewrite Hsl; [by apply Hs|].
    by intros ->.
  - intros r' [= <-]. rewrite Hdq'. split; [done|]. split; [|done].
    rewrite slot_of_cons, Hin. simpl. by rewrite Nat.eqb_refl.
  - intros r'. rewrite Hdq'. intros Hd Hne. unfold resolved.
    rewrite Hsl by congruence. apply Hr; [done|]. simpl. congruence.
Qed.

Lemma req_inv_close w r o :
  req_inv (AtClose r o, w) -> req_inv (AtRecv, log (EvClose r o) w).
Proof.
  intros [Hq Hnd Hf Hs Hh Hr]. simpl in *.
  destruct (Hh r eq_refl) as (Hdq & Hin & _). unfold in_hand in Hin.
  assert (Hdq' : forall r', dequeued r' (EvClose r o :: trace w) <-> dequeued r' (trace w)).
  { intros r'. by apply dequeued_cons_other. }
  assert (Hsl : forall r', r' <> r -> slot_of r' (EvClose r o :: trace w)
                                      = slot_of r' (trace w)).
  { intros r' Hne. rewrite slot_of_cons. simpl.
    destruct (Nat.eqb_spec r r'); [by subst|]. by rewrite app_nil_r. }
  constructor; simpl.
  - intros r' s. rewrite Hdq'. apply Hq.
  - done.
  - intros r'. rewrite Hdq'. apply Hf.
  - intros r'. rewrite Hdq'. intros Hn. unfold slot. simpl. rewrite Hsl; [by apply Hs|].
    by intros ->.
  - done.
  - intros r'. rewrite Hdq'. intros Hd _. destruct (decide (r' = r)) as [->|Hne].
    + exists o. rewrite slot_of_cons, Hin. simpl. by rewrite Nat.eqb_refl.
    + unfold resolved. rewrite Hsl by done. apply Hr; [done|]. simpl. congruence.
Qed.

Lemma Connection_Take_trace c w : trace (snd (Connection_Take c w)) = trace w.
Proof. pose proof (Connection_Take_ctl c w) as H. by injection H. Qed.

Lemma disp_step_req_inv pick l w l' w' :
  dispatchConnections pick l w = Some (l', w') -> req_inv (l, w) -> req_inv (l', w').
Proof.
  intros Hstep Hinv.
  destruct l as [|r d|r d|r d cases|r d c|r d c|r o|]; simpl in Hstep.
  - destruct (s_dispatcher w) as [|[r t0] q] eqn:Hq.
    + destruct (s_dispatcher_closed w); [|done]. injection Hstep as <- <-.
      apply (req_inv_quiet AtRecv _ w); auto.
    + injection Hstep as <- <-. by apply req_inv_dequeue.
  - destruct (d <=? now w)%Z; injection Hstep as <- <-;
      (apply (req_inv_quiet (AtDeadline r d) _ w); auto; by intros).
  - destruct (s_pools w); injection Hstep as <- <-;
      (apply (req_inv_quiet (AtScan r d) _ w); auto; by intros).
  - destruct (Select pick cases w) as [[[p c] w1]|] eqn:Hsel; injection Hstep as <- <-.
    + apply Select_stable in Hsel as [_ Hctl]. injection Hctl as _ _ Hd _ Hn _ Htr.
      apply (req_inv_quiet (AtSelect r d cases) _ w); auto.
      right. exists (EvToken p c). simpl. rewrite Htr. by repeat split.
    + apply (req_inv_quiet (AtSelect r d cases) _ w); auto.
  - pose proof (Connection_Take_ctl c w) as Hctl.
    destruct (Connection_Take c w) as [ok w1]. injection Hstep as <- <-. simpl in Hctl.
    injection Hctl as _ _ Hd _ Hn _ Htr.
    apply (req_inv_quiet (AtTake r d c) _ w); auto.
    + right. exists (EvTake c ok). simpl. rewrite Htr. by repeat split.
    + by destruct ok.
    + by destruct ok.
    + by destruct ok.
  - injection Hstep as <- <-. by apply (req_inv_send w r d c).
  - injection Hstep as <- <-. by apply req_inv_close.
  - done.
Qed.

Lemma move_step_req_inv st m : req_inv st -> req_inv (move_step st m).
Proof.
  intros Hinv. destruct st as [l w], m as [pick|a]; simpl.
  - destruct (dispatchConnections pick l w) as [[l' w']|] eqn:Hstep; [|done].
    by eapply disp_step_req_inv.
  - destruct (env_step_bookkeeping a w) as (Htr & _ & _ & Hch). by eapply req_inv_env.
Qed.

Lemma init_req_inv config : req_inv (init config).
Proof.
  constructor; simpl; try done.
  - intros r s H. by apply elem_of_nil in H.
  - constructor.
  - intros r (s & t & d & H). by apply elem_of_nil in H.
  - intros r (s & t & d & H). by apply elem_of_nil in H.
Qed.

Lemma reachable_req_inv config ms : req_inv (exec ms (init config)).
Proof. apply exec_invariant; [apply move_step_req_inv|apply init_req_inv]. Qed.

(** ** Every dispatch ends *)

Lemma disp_step_now pick l w l' w' : dispatchConnections pick l w = Some (l', w') -> now w' = now w.
Proof.
  destruct l as [|r d|r d|r d cases|r d c|r d c|r o|]; simpl.
  - destruct (s_dispatcher w) as [|[r t0] q]; [destruct (s_dispatcher_closed w)|];
      try done; by intros [= <- <-].
  - by destruct (d <=? now w)%Z; intros [= <- <-].
  - by destruct (s_pools w); intros [= <- <-].
  - destruct (Select pick cases w) as [[[p c] w1]|] eqn:Hsel; intros [= <- <-]; [|done].
    apply Select_stable in Hsel as [_ Hctl]. by injection Hctl.
  - pose proof (Connection_Take_ctl c w) as Hctl.
    destruct (Connection_Take c w) as [ok w1]. intros [= <- <-]. by injection Hctl.
  - by intros [= <- <-].
  - by intros [= <- <-].
  - done.
Qed.

Lemma disp_step_holding pick l w r :
  holds l = Some r ->
  exists l' w', dispatchConnections pick l w = Some (l', w')
    /\ (holds l' = Some r \/ holds l' = None)
    /\ (forall d, deadline_of l' = Some d -> deadline_of l = Some d)
    /\ (expired (l, w) -> togo l' < togo l).
Proof.
  destruct l as [|r0 d|r0 d|r0 d cases|r0 d c|r0 d c|r0 o|]; simpl; try done;
    intros [= ->]; unfold expired; simpl.
  - destruct (Z.leb_spec d (now w)); eexists _, _; (split; [done|]); simpl;
      split_and!; auto; try done.
    intros H'. specialize (H' d eq_refl). lia.
  - destruct (s_pools w); eexists _, _; (split; [done|]); simpl; split_and!; auto; done.
  - destruct (Select pick cases w) as [[[p c] w1]|]; eexists _, _; (split; [done|]); simpl;
      split_and!; auto.
  - destruct (Connection_Take c w) as [[] w1]; eexists _, _; (split; [done|]); simpl;
      split_and!; auto.
  - eexists _, _; (split; [done|]); simpl; split_and!; auto; done.
  - eexists _, _; (split; [done|]); simpl; split_and!; auto; done.
Qed.

Lemma disp_step_not_holding pick l w l' w' r :
  req_inv (l, w) -> dequeued r (trace w) -> holds l <> Some r ->
  dispatchConnections pick l w = Some (l', w') -> holds l' <> Some r.
Proof.
  intros Hinv Hdq Hne.
  destruct l as [|r0 d|r0 d|r0 d cases|r0 d c|r0 d c|r0 o|]; simpl in *.
  - destruct (s_dispatcher w) as [|[r1 t0] q] eqn:Hq.
    + destruct (s_dispatcher_closed w); [|done]. by intros [= <- <-].
    + intros [= <- <-]. simpl. intros [= ->].
      destruct (ri_queue _ Hinv r t0) as [_ Hn]; [simpl; rewrite Hq; left|]. by apply Hn.
  - by destruct (d <=? now w)%Z; intros [= <- <-].
  - by destruct (s_pools w); intros [= <- <-].
  - by destruct (Select pick cases w) as [[[p c] w1]|]; intros [= <- <-].
  - destruct (Connection_Take c w) as [[] w1]; by intros [= <- <-].
  - by intros [= <- <-].
  - by intros [= <- <-].
  - done.
Qed.

Lemma move_step_trace_grows st m r :
  dequeued r (trace (snd st)) -> dequeued r (trace (snd (move_step st m))).
Proof.
  destruct st as [l w], m as [pick|a]; simpl.
  - destruct (dispatchConnections pick l w) as [[l' w']|] eqn:Hstep; [|done]. simpl.
    destruct l as [|r0 d|r0 d|r0 d cases|r0 d c|r0 d c|r0 o|]; simpl in Hstep.
    + destruct (s_dispatcher w) as [|[r1 t0] q]; [destruct (s_dispatcher_closed w)|];
        try done; injection Hstep as <- <-; [done|]. simpl. rewrite dequeued_cons. by right.
    + by destruct (d <=? now w)%Z; injection Hstep as <- <-.
    + by destruct (s_pools w); injection Hstep as <- <-.
    + destruct (Select pick cases w) as [[[p c] w1]|] eqn:Hsel; injection Hstep as <- <-;
        [|done].
      apply Select_stable in Hsel as [_ Hctl]. injection Hctl as _ _ _ _ _ _ Htr.
      simpl. rewrite Htr, dequeued_cons. by right.
    + pose proof (Connection_Take_trace c w) as Htr.
      destruct (Connection_Take c w) as [ok w1]. injection Hstep as <- <-. simpl in *.
      rewrite Htr, dequeued_cons. by right.
    + injection Hstep as <- <-. simpl. rewrite dequeued_cons. by right.
    + injection Hstep as <- <-. simpl. rewrite dequeued_cons. by right.
    + done.
  - destruct (env_step_bookkeeping a w) as (Htr & _). by rewrite Htr.
Qed.

(** A request that was dequeued is resolved once the dispatcher has taken
    as many steps as its location asks for after the deadline. *)
Lemma resolves_within ms st r :
  req_inv st -> dequeued r (trace (snd st)) ->
  (holds (fst st) = Some r -> expired st /\ togo (fst st) <= disp_moves ms) ->
  resolved r (trace (snd (exec ms st))).
Proof.
  revert st. induction ms as [|m ms IH]; intros st Hinv Hdq Hhold.
  - simpl. apply (ri_resolved _ Hinv); [done|]. intros Hh.
    destruct (Hhold Hh) as [_ Hle]. unfold disp_moves in Hle.
    destruct st as [[] w]; simpl in *; try done; lia.
  - simpl. apply IH.
    + by apply move_step_req_inv.
    + by apply move_step_trace_grows.
    + destruct st as [l w], m as [pick|a]; simpl in *.
      * destruct (decide (holds l = Some r)) as [Hh|Hh].
        -- destruct (Hhold Hh) as [Hexp Hle].
           destruct (disp_step_holding pick l w r Hh) as (l' & w' & Hstep & Hh' & Hdl & Hgo).
           rewrite Hstep. simpl. intros _. split.
           ++ intros d Hd. simpl in *. rewrite (disp_step_now _ _ _ _ _ Hstep).
              by apply Hexp, Hdl.
           ++ specialize (Hgo Hexp). unfold disp_moves in *. simpl in *. lia.
        -- destruct (dispatchConnections pick l w) as [[l' w']|] eqn:Hstep; simpl; [|done].
           intros Hh'. by destruct (disp_step_not_holding pick l w l' w' r).
      * intros Hh. destruct (Hhold Hh) as [Hexp Hle]. split; [|done].
        intros d Hd. simpl in *. specialize (Hexp d Hd). simpl in Hexp.
        destruct (env_step_bookkeeping a w) as (_ & _ & Hnow & _). lia.
Qed.

Lemma dequeued_dec r tr : dequeued r tr \/ ~ dequeued r tr.
Proof.
  induction tr as [|e tr IH].
  - right. intros (s & t & d & H). by apply elem_of_nil in H.
  - rewrite dequeued_cons. destruct IH as [IH|IH]; [by left; right|].
    destruct e as [r0 s t d| | | |]; try (right; by intros [(s' & t' & d' & ?)|?]).
    destruct (decide (r0 = r)) as [->|Hne]; [left; left; eauto|].
    right. intros [(s' & t' & d' & ?)|?]; [congruence|done].
Qed.

Lemma slot_shapes st r :
  req_inv st ->
  slot r (snd st) = []
  \/ (exists c, slot r (snd st) = [EvSend r c] /\ fst st = AtClose r (Matched c))
  \/ resolved r (trace (snd st)).
Proof.
  intros Hinv.
  destruct (decide (holds (fst st) = Some r)) as [Hh|Hh].
  - destruct (ri_hand _ Hinv r Hh) as (_ & Hin & _). unfold in_hand, slot in *.
    destruct st as [[] w]; simpl in *; try (by left); try done.
    injection Hh as ->. destruct o as [c| |]; simpl in *; [right; left; eauto|by left..].
  - destruct (dequeued_dec r (trace (snd st))) as [Hd|Hd].
    + right; right. by apply (ri_resolved _ Hinv).
    + left. by apply (ri_silent _ Hinv).
Qed.

(** C2: in every state the server can reach, the slot of a request is
    empty, or holds one Connection while the dispatcher stands at the close,
    or got exactly one outcome (one Connection then the close, or the close
    alone); a request the dispatcher has consumed and no longer holds got its
    outcome; and a consumed request gets it within five dispatcher steps once
    its deadline has passed, whatever the other goroutines do meanwhile. *)
Theorem exactly_one_outcome (config : Config) (ms : list Move) (r : ReqRef) :
  let st := exec ms (init config) in
  (slot r (snd st) = []
   \/ (exists c, slot r (snd st) = [EvSend r c] /\ fst st = AtClose r (Matched c))
   \/ resolved r (trace (snd st)))
  /\ (dequeued r (trace (snd st)) -> holds (fst st) <> Some r ->
      resolved r (trace (snd st)))
  /\ (forall s t d ms',
        EvDequeue r s t d ∈ trace (snd st) -> (d <= now (snd st))%Z ->
        5 <= disp_moves ms' ->
        resolved r (trace (snd (exec ms' st)))).
Proof.
  intros st. pose proof (reachable_req_inv config ms) as Hinv. fold st in Hinv.
  split; [by apply slot_shapes|]. split; [apply (ri_resolved _ Hinv)|].
  intros s t d ms' Hev Hd Hn. apply resolves_within; [done|by exists s, t, d|].
  intros Hh. destruct (ri_hand _ Hinv r Hh) as (_ & _ & Hdl). split.
  - intros d' Hd'. by rewrite <- (Hdl d' s t d Hd' Hev).
  - destruct (fst st); simpl; lia.
Qed.

Lemma exactly_one_outcome_witness :
  resolved 0 (trace (snd (exec run_matched (init config0)))).
Proof.
  apply (proj1 (proj2 (exactly_one_outcome config0 run_matched 0))).
  - exists 0%Z, 0%Z, 3%Z. vm_compute. do 4 right. left.
  - vm_compute. discriminate.
Defined.

(** ** Only a taken Connection is delivered *)

Lemma chain_cons prev next rest :
  chain (prev :: rest) -> may_follow prev next = true -> chain (next :: prev :: rest).
Proof. intros H1 H2. by split. Qed.

Lemma disp_step_protocol pick l w l' w' :
  dispatchConnections pick l w = Some (l', w') -> protocol (l, w) -> protocol (l', w').
Proof.
  unfold protocol. simpl. intros Hstep [Hch Hlast].
  destruct l as [|r d|r d|r d cases|r d c|r d c|r o|]; simpl in Hstep, Hlast.
  - destruct (s_dispatcher w) as [|[r t0] q].
    + destruct (s_dispatcher_closed w); [|done]. by injection Hstep as <- <-.
    + injection Hstep as <- <-. simpl. split; [|left; eauto 6].
      destruct Hlast as [Heq|(r' & o & rest & Heq)]; rewrite Heq in *.
      * split; [by eexists _, _, _, _|done].
      * by split.
  - destruct (d <=? now w)%Z; by injection Hstep as <- <-.
  - destruct (s_pools w); by injection Hstep as <- <-.
  - destruct (Select pick cases w) as [[[p c] w1]|] eqn:Hsel; injection Hstep as <- <-;
      [|done].
    apply Select_stable in Hsel as [_ Hctl]. injection Hctl as _ _ _ _ _ _ Htr.
    simpl. rewrite Htr. split; [|eauto].
    destruct Hlast as [(s & t & d' & rest & Heq)|(c' & rest & Heq)]; rewrite Heq in *;
      by split.
  - pose proof (Connection_Take_trace c w) as Htr.
    destruct (Connection_Take c w) as [ok w1]. injection Hstep as <- <-. simpl in *.
    rewrite Htr. destruct Hlast as (p & rest & Heq). rewrite Heq in *. split.
    + split; [|done]. simpl. destruct ok; apply Nat.eqb_refl.
    + destruct ok; simpl; eauto.
  - injection Hstep as <- <-. simpl. destruct Hlast as (rest & Heq). rewrite Heq in *.
    split; [|eauto]. split; [|done]. simpl. apply Nat.eqb_refl.
  - injection Hstep as <- <-. simpl. split; [|right; eauto].
    destruct o as [c| |]; simpl in Hlast.
    + destruct Hlast as (rest & Heq). rewrite Heq in *. split; [|done]. simpl.
      by rewrite !Nat.eqb_refl.
    + destruct Hlast as [(s & t & d' & rest & Heq)|(c' & rest & Heq)]; rewrite Heq in *;
        (split; [|done]); simpl; [by rewrite Nat.eqb_refl|done].
    + destruct Hlast as [(s & t & d' & rest & Heq)|(c' & rest & Heq)]; rewrite Heq in *;
        (split; [|done]); simpl; [by rewrite Nat.eqb_refl|done].
  - done.
Qed.

Lemma reachable_protocol config ms : protocol (exec ms (init config)).
Proof.
  apply exec_invariant; [|split; [done|by left]].
  intros [l w] [pick|a] Hp; simpl.
  - destruct (dispatchConnections pick l w) as [[l' w']|] eqn:Hstep; [|done].
    by eapply disp_step_protocol.
  - destruct (env_step_bookkeeping a w) as (Htr & _). unfold protocol in *. simpl in *.
    by rewrite Htr.
Qed.

Lemma chain_app tr1 tr2 : chain (tr1 ++ tr2) -> chain tr2.
Proof. induction tr1 as [|e tr1 IH]; [done|]. simpl. intros [_ H]. by apply IH. Qed.

Lemma chain_send r c rest :
  chain (EvSend r c :: rest) -> exists p rest', rest = EvTake c true :: EvToken p c :: rest'.
Proof.
  simpl. intros [H1 H2]. destruct rest as [|prev rest]; [by destruct H1 as (? & ? & ? & ? & ?)|].
  destruct prev as [| |c' [] | |]; try done. simpl in H1. apply Nat.eqb_eq in H1 as ->.
  simpl in H2. destruct H2 as [H2 H3].
  destruct rest as [|prev rest]; [by destruct H2 as (? & ? & ? & ? & ?)|].
  destruct prev as [|p c'|? []| |]; try done. simpl in H2. apply Nat.eqb_eq in H2 as ->. eauto.
Qed.

Lemma chain_take c ok rest :
  chain (EvTake c ok :: rest) -> exists p rest', rest = EvToken p c :: rest'.
Proof.
  simpl. intros [H1 H2]. destruct rest as [|prev rest]; [by destruct H1 as (? & ? & ? & ? & ?)|].
  destruct prev as [|p c'|? []| |]; try done. simpl in H1. apply Nat.eqb_eq in H1 as ->. eauto.
Qed.

Lemma Connection_Take_spec c w :
  (status_of c w = Some Idle /\ fst (Connection_Take c w) = true
   /\ status_of c (snd (Connection_Take c w)) = Some Busy)
  \/ (status_of c w <> Some Idle /\ Connection_Take c w = (false, w)).
Proof.
  unfold Connection_Take, status_of. destruct (conn_heap w !! c) as [conn|] eqn:Hc; simpl.
  - destruct (c_status conn) eqn:Hs; [left|right; split; [congruence|done]..].
    split; [done|]. split; [done|]. simpl.
    rewrite list_lookup_insert_eq by (by eapply lookup_lt_Some). done.
  - right. by split.
Qed.

(** C3: in every history the server can produce, a send is preceded by a
    successful [Take] of the Connection sent, which is preceded by the receipt
    of a token for that Connection; after a failed [Take] the next event, if
    any, is the receipt of another token or a close without a Connection,
    never a send.  A [Take] succeeds exactly on an Idle Connection, which it
    leaves Busy; when it fails, the dispatcher goes back to the head of the
    scan loop with the world unchanged. *)
Theorem delivered_only_if_taken :
  (forall config ms pre post r c,
     history (snd (exec ms (init config))) = pre ++ EvSend r c :: post ->
     exists pre' p, pre = pre' ++ [EvToken p c; EvTake c true])
  /\ (forall config ms pre post c e,
        history (snd (exec ms (init config))) = pre ++ EvTake c false :: e :: post ->
        (exists p c', e = EvToken p c') \/ (exists r o, e = EvClose r o /\ unmatched o = true))
  /\ (forall pick r d c w,
        (status_of c w = Some Idle
         /\ status_of c (snd (Connection_Take c w)) = Some Busy
         /\ dispatchConnections pick (AtTake r d c) w
            = Some (AtSend r d c, log (EvTake c true) (snd (Connection_Take c w))))
        \/ (status_of c w <> Some Idle
            /\ dispatchConnections pick (AtTake r d c) w
               = Some (AtDeadline r d, log (EvTake c false) w)))
  /\ (forall pick l w l' w' r c,
        dispatchConnections pick l w = Some (l', w') -> trace w' = EvSend r c :: trace w ->
        exists d, l = AtSend r d c).
Proof.
  split_and!.
  - intros config ms pre post r c Hh.
    destruct (reachable_protocol config ms) as [Hch _]. unfold history in Hh.
    apply (f_equal (@rev Event)) in Hh. rewrite rev_involutive, rev_app_distr in Hh.
    simpl in Hh. rewrite <- app_assoc in Hh. simpl in Hh. rewrite Hh in Hch.
    apply chain_app, chain_send in Hch as (p & rest' & Hpre).
    exists (rev rest'), p. apply (f_equal (@rev Event)) in Hpre.
    rewrite rev_involutive in Hpre. rewrite Hpre. simpl. by rewrite <- !app_assoc.
  - intros config ms pre post c e Hh.
    destruct (reachable_protocol config ms) as [Hch _]. unfold history in Hh.
    apply (f_equal (@rev Event)) in Hh. rewrite rev_involutive, rev_app_distr in Hh.
    simpl in Hh. rewrite <- !app_assoc in Hh. simpl in Hh. rewrite Hh in Hch.
    apply chain_app in Hch. destruct Hch as [Hf _]. simpl in Hf.
    destruct e as [|p c'| | |r o]; try done; [left; eauto|right; eauto].
  - intros pick r d c w. simpl.
    destruct (Connection_Take_spec c w) as [(Hi & Hok & Hb)|(Hn & Heq)].
    + left. split; [done|]. split; [done|].
      destruct (Connection_Take c w) as [ok w1]. simpl in *. by subst ok.
    + right. split; [done|]. by rewrite Heq.
  - intros pick l w l' w' r c Hstep Htr.
    destruct l as [|r0 d|r0 d|r0 d cases|r0 d c0|r0 d c0|r0 o|]; simpl in Hstep.
    + destruct (s_dispatcher w) as [|[r1 t0] q]; [destruct (s_dispatcher_closed w)|];
        try done; injection Hstep as <- <-; simpl in Htr; [|done].
      apply (f_equal length) in Htr. simpl in Htr. lia.
    + destruct (d <=? now w)%Z; injection Hstep as <- <-;
        apply (f_equal length) in Htr; simpl in Htr; lia.
    + destruct (s_pools w); injection Hstep as <- <-;
        apply (f_equal length) in Htr; simpl in Htr; lia.
    + destruct (Select pick cases w) as [[[p c1] w1]|] eqn:Hsel; injection Hstep as <- <-.
      * done.
      * apply (f_equal length) in Htr; simpl in Htr; lia.
    + destruct (Connection_Take c0 w) as [ok w1]. by injection Hstep as <- <-.
    + injection Hstep as <- <-. simpl in Htr. injection Htr as -> ->. eauto.
    + by injection Hstep as <- <-.
    + done.
Qed.

Lemma delivered_only_if_taken_witness :
  exists pre' p,
    [EvDequeue 0 0 0 3; EvToken 0 0; EvTake 0 true] = pre' ++ [EvToken p 0; EvTake 0 true].
Proof.
  apply (proj1 delivered_only_if_taken config0 run_matched
           [EvDequeue 0 0 0 3; EvToken 0 0; EvTake 0 true] [EvClose 0 (Matched 0)] 0 0).
  reflexivity.
Defined.

(** ** No pool, no wait *)

Lemma scan_close ms r o w : scan ms (AtClose r o) w = Some (o, w, ms).
Proof. by destruct ms. Qed.

(** C4: a request dequeued while the pool list is empty is resolved as
    Unavailable by the next three steps of the dispatcher: the deadline check
    passes, the scan finds no pool and leaves the loop, the slot is closed
    without a Connection.  The clock does not have to move.  The handler
    does not even submit a request when it sees the list empty. *)
Theorem empty_registry_unavailable :
  (forall w r t0 q p1 p2 p3 p4,
     s_dispatcher w = (r, t0) :: q -> s_pools w = [] ->
     (0 < GetTimeout (s_config w))%Z ->
     let d := (now w + GetTimeout (s_config w))%Z in
     let w1 := log (EvDequeue r t0 (now w) d) (set_dispatcher q w) in
     exec [Disp p1; Disp p2; Disp p3] (AtRecv, w) = (AtClose r Unavailable, w1)
     /\ exec [Disp p1; Disp p2; Disp p3; Disp p4] (AtRecv, w)
        = (AtRecv, log (EvClose r Unavailable) w1))
  /\ (forall w r d p1 p2 ms,
        s_pools w = [] -> (now w < d)%Z ->
        scan (Disp p1 :: Disp p2 :: ms) (AtDeadline r d) w = Some (Unavailable, w, ms))
  /\ (forall w rq,
        s_pools w = [] -> valid_request rq ->
        Request rq w = (ProxyError "No proxy available", w)).
Proof.
  split_and!.
  - intros w r t0 q p1 p2 p3 p4 Hq Hp Ht d w1. unfold exec. simpl. rewrite Hq. simpl.
    destruct (Z.leb_spec (now w + GetTimeout (s_config w)) (now w)); [lia|]. simpl.
    rewrite Hp. split; reflexivity.
  - intros w r d p1 p2 ms Hp Hd. simpl.
    destruct (Z.leb_spec d (now w)); [lia|]. simpl. rewrite Hp. simpl. apply scan_close.
  - intros w rq Hp [Hd Hu]. unfold Request. rewrite bool_decide_eq_false_2 by done.
    rewrite Hu. simpl. by rewrite Hp.
Qed.

Lemma empty_registry_unavailable_witness :
  fst (exec [Disp 0; Disp 0; Disp 0; Disp 0] (AtRecv, world_swept)) = AtRecv
  /\ slot 0 (snd (exec [Disp 0; Disp 0; Disp 0; Disp 0] (AtRecv, world_swept)))
     = [EvClose 0 Unavailable].
Proof.
  destruct (proj1 empty_registry_unavailable world_swept 0 0%Z [] 0 0 0 0) as [_ H];
    [reflexivity|reflexivity|reflexivity|].
  rewrite H. split; reflexivity.
Defined.

(** ** The deadline *)

Lemma disp_step_effect pick l w l' w' :
  dispatchConnections pick l w = Some (l', w') ->
  s_config w' = s_config w /\ now w' = now w
  /\ ((s_dispatcher w' = s_dispatcher w
       /\ (trace w' = trace w
           \/ exists e, trace w' = e :: trace w /\ forall r s t d, e <> EvDequeue r s t d)
       /\ (forall d, deadline_of l' = Some d -> deadline_of l = Some d)
       /\ (forall r, holds l' = Some r -> holds l = Some r))
      \/ (exists r t0,
            l = AtRecv /\ l' = AtDeadline r (now w + GetTimeout (s_config w))
            /\ s_dispatcher w = (r, t0) :: s_dispatcher w'
            /\ trace w'
               = EvDequeue r t0 (now w) (now w + GetTimeout (s_config w)) :: trace w)).
Proof.
  destruct l as [|r d|r d|r d cases|r d c|r d c|r o|]; simpl.
  - destruct (s_dispatcher w) as [|[r t0] q] eqn:Hq.
    + destruct (s_dispatcher_closed w); [|done]. intros [= <- <-].
      split_and!; try done. left. split_and!; auto.
    + intros [= <- <-]. split_and!; try done. right. by exists r, t0.
  - destruct (d <=? now w)%Z; intros [= <- <-]; split_and!; try done;
      left; split_and!; auto; done.
  - destruct (s_pools w); intros [= <- <-]; split_and!; try done;
      left; split_and!; auto; done.
  - destruct (Select pick cases w) as [[[p c] w1]|] eqn:Hsel; intros [= <- <-].
    + apply Select_stable in Hsel as [_ Hctl]. injection Hctl as Hc _ Hd _ _ Hn Htr.
      split_and!; try done. left. simpl. rewrite Htr. split_and!; auto.
      right. eexists. split; [done|]. by intros.
    + split_and!; try done. left; split_and!; auto.
  - pose proof (Connection_Take_ctl c w) as Hctl.
    destruct (Connection_Take c w) as [ok w1]. intros [= <- <-]. simpl in Hctl.
    injection Hctl as Hc _ Hd _ _ Hn Htr.
    split_and!; try done. left. simpl. rewrite Htr. split_and!; auto;
      try (by destruct ok).
    right. eexists. split; [done|]. by intros.
  - intros [= <- <-]. split_and!; try done. left. simpl. split_and!; auto; try done.
    right. eexists. split; [done|]. by intros.
  - intros [= <- <-]. split_and!; try done. left. simpl. split_and!; auto; try done.
    right. eexists. split; [done|]. by intros.
  - done.
Qed.

Lemma move_step_deadline_inv config st m :
  deadline_inv config st -> deadline_inv config (move_step st m).
Proof.
  destruct st as [l w]. intros (Hc & Hq & Htr & Hdl). simpl in *.
  destruct m as [pick|a]; simpl.
  - destruct (dispatchConnections pick l w) as [[l' w']|] eqn:Hstep; [|done]. simpl.
    destruct (disp_step_effect _ _ _ _ _ Hstep)
      as (Hc' & Hn' & [(Hd' & Ht' & Hdl' & Hh')|(r & t0 & -> & -> & Hd' & Ht')]).
    + unfold deadline_inv. simpl. rewrite Hc', Hn', Hd'. split_and!; try done.
      * intros r s t d Hev. apply (Htr r s t d).
        destruct Ht' as [Heq|(e & Heq & He)]; rewrite Heq in Hev; [done|].
        apply elem_of_cons in Hev as [<-|Hev]; [by destruct (He r s t d)|done].
      * intros d Hd. destruct (Hdl d (Hdl' d Hd)) as (r & s & t & Hr & Hev).
        exists r, s, t. split.
        -- destruct l'; simpl in *; try done; destruct l; simpl in *; try done;
             injection Hd as ->; specialize (Hh' _ eq_refl); congruence.
        -- destruct Ht' as [Heq|(e & Heq & He)]; rewrite Heq; [done|]. by right.
    + unfold deadline_inv. simpl. rewrite Hc', Hn', Ht'. rewrite Hd' in Hq.
      split_and!; try done.
      * intros r' s Hin. apply (Hq r' s). by right.
      * intros r' s t d Hev. apply elem_of_cons in Hev as [[= -> -> -> ->]|Hev]; [|by apply (Htr r' s t d)].
        rewrite Hc. split_and!; try done. apply (Hq r t0). left.
      * simpl. intros d [= <-]. exists r, t0, (now w). split; [done|left].
  - destruct (env_step_bookkeeping a w) as (Ht' & Hc' & Hn' & Hch).
    unfold deadline_inv. simpl. rewrite Ht', Hc'. split_and!; try done.
    + intros r s Hin.
      destruct Hch as [Hd _ _|Hd _ _|Hd _ _|Hd _ _]; rewrite Hd in Hin.
      * specialize (Hq r s Hin). lia.
      * apply elem_of_app in Hin as [Hin|Hin]; [specialize (Hq r s Hin); lia|].
        apply list_elem_of_singleton in Hin as [= -> ->]. done.
      * specialize (Hq r s Hin). lia.
      * by apply elem_of_nil in Hin.
    + intros r s t d Hev. destruct (Htr r s t d Hev) as (? & ? & ?). split_and!; try done. lia.
Qed.

Lemma reachable_deadline_inv config ms : deadline_inv config (exec ms (init config)).
Proof.
  apply exec_invariant; [intros st m; apply move_step_deadline_inv|].
  split_and!; simpl; try done.
  - intros r s H. by apply elem_of_nil in H.
  - intros r s t d H. by apply elem_of_nil in H.
Qed.

(** C6 as stated fails: request 2 is submitted at time 0 with a timeout of
    3, is received by the dispatcher at time 3, after request 1 has timed out,
    and gets the deadline 6. *)
Lemma deadline_from_submission_fails :
  trace (snd (exec run_queued (init config0)))
  = [EvDequeue 2 0 3 6; EvClose 1 TimedOut; EvDequeue 1 0 0 3;
     EvClose 0 (Matched 0); EvSend 0 0; EvTake 0 true; EvToken 0 0; EvDequeue 0 0 0 3]
  /\ ~ (forall config ms r s t d,
          EvDequeue r s t d ∈ trace (snd (exec ms (init config))) ->
          d = (s + GetTimeout config)%Z).
Proof.
  split; [by vm_compute|]. intros H.
  assert (Hin : EvDequeue 2 0 3 6 ∈ trace (snd (exec run_queued (init config0))))
    by (vm_compute; left).
  by specialize (H config0 run_queued 2 0%Z 3%Z 6%Z Hin).
Qed.

(** C6, amended: the deadline of a request is the time at which the
    dispatcher receives it from the dispatcher channel plus the configured
    timeout, and that time is not before the submission; the [timeout]
    argument of [NewConnectionRequest] plays no part; when the dispatcher is
    waiting on an empty channel and receives the request before the clock
    moves, the deadline does count from the submission; and a request found
    past its deadline at the head of the scan loop leaves the loop, timed
    out. *)
Theorem deadline_counts_from_dequeue :
  (forall config ms r s t d,
     EvDequeue r s t d ∈ trace (snd (exec ms (init config))) ->
     d = (t + GetTimeout config)%Z /\ (s <= t)%Z)
  /\ (forall config ms d,
        deadline_of (fst (exec ms (init config))) = Some d ->
        exists r s t, holds (fst (exec ms (init config))) = Some r
          /\ EvDequeue r s t d ∈ trace (snd (exec ms (init config))))
  /\ (forall t1 t2 w, NewConnectionRequest t1 w = NewConnectionRequest t2 w)
  /\ (forall w rq r w' pick,
        s_dispatcher w = [] -> Request rq w = (Waiting r, w') ->
        fst <$> dispatchConnections pick AtRecv w'
        = Some (AtDeadline r (now w + GetTimeout (s_config w))))
  /\ (forall w r d pick,
        (d <= now w)%Z -> dispatchConnections pick (AtDeadline r d) w = Some (AtClose r TimedOut, w)).
Proof.
  split_and!.
  - intros config ms r s t d Hev.
    destruct (reachable_deadline_inv config ms) as (_ & _ & Htr & _).
    destruct (Htr r s t d Hev) as (? & ? & ?). by split.
  - intros config ms d Hd.
    destruct (reachable_deadline_inv config ms) as (_ & _ & _ & Hdl). by apply Hdl.
  - done.
  - intros w rq r w' pick Hq. unfold Request.
    destruct (bool_decide _); [done|]. destruct (negb (url_ok rq)); [done|].
    destruct (s_pools w); [done|]. simpl.
    destruct (s_dispatcher_closed w); [done|]. intros [= <- <-]. simpl. by rewrite Hq.
  - intros w r d pick Hd. simpl. by destruct (Z.leb_spec d (now w)); [|lia].
Qed.

Lemma deadline_counts_from_dequeue_witness : (6 = 3 + GetTimeout config0 /\ 0 <= 3)%Z.
Proof.
  apply (proj1 deadline_counts_from_dequeue config0 run_queued 2 0%Z 3%Z 6%Z).
  vm_compute. left.
Defined.

(** ** A dispatch that matches nothing leaves the connections alone *)

Lemma sim_refl w : sim w w.
Proof. by repeat split. Qed.

Lemma sim_trans w1 w2 w3 : sim w1 w2 -> sim w2 w3 -> sim w1 w3.
Proof. unfold sim. intros H1 H2. destruct_and!. split_and!; congruence. Qed.

Lemma sim_sym w1 w2 : sim w1 w2 -> sim w2 w1.
Proof. unfold sim. intros H1. destruct_and!. by split_and!. Qed.

Lemma strip_eq a b :
  strip a = strip b <-> p_id a = p_id b /\ p_size a = p_size b
                        /\ p_connections a = p_connections b.
Proof.
  destruct a, b. unfold strip, with_idle. simpl. split.
  - by intros [= -> -> ->].
  - by intros (-> & -> & ->).
Qed.

Lemma strip_lookup (h1 h2 : list Pool) (p : PoolRef) :
  strip <$> h1 = strip <$> h2 -> pool_sim (h1 !! p) (h2 !! p).
Proof.
  intros H. apply (f_equal (fun h => h !! p)) in H. rewrite !list_lookup_fmap in H.
  destruct (h1 !! p) as [a|], (h2 !! p) as [b|]; simpl in H; try done; [|constructor].
  assert (Hab : strip a = strip b) by congruence.
  apply strip_eq in Hab as (? & ? & ?). by constructor.
Qed.

Lemma strip_insert (h1 h2 : list Pool) (p : PoolRef) (a b : Pool) :
  strip <$> h1 = strip <$> h2 -> strip a = strip b ->
  strip <$> <[p := a]> h1 = strip <$> <[p := b]> h2.
Proof. intros H Hab. rewrite !list_fmap_insert. by rewrite H, Hab. Qed.

Lemma strip_insert_id (h : list Pool) (p : PoolRef) (a b : Pool) :
  h !! p = Some a -> strip b = strip a -> strip <$> <[p := b]> h = strip <$> h.
Proof.
  intros Hp Hab. rewrite list_fmap_insert, Hab. apply list_insert_id.
  by rewrite list_lookup_fmap, Hp.
Qed.

Lemma sim_pool w1 w2 p : sim w1 w2 -> pool_sim (pool_heap w1 !! p) (pool_heap w2 !! p).
Proof. intros H. apply strip_lookup. unfold sim in H. by destruct_and!. Qed.

Lemma Connection_Close_sim c w1 w2 :
  sim w1 w2 -> sim (Connection_Close c w1) (Connection_Close c w2).
Proof.
  intros H. unfold Connection_Close.
  assert (Hc : conn_heap w1 = conn_heap w2) by (unfold sim in H; by destruct_and!).
  rewrite <- Hc. destruct (conn_heap w1 !! c) as [conn|]; [|done].
  assert (Hp := sim_pool w1 w2 (c_pool conn) H).
  destruct (c_status conn); try done; simpl;
    (destruct Hp as [|a b Hi Hs Hcs]; [sim_split H|]);
    sim_split H; apply strip_insert; try done; apply strip_eq; simpl; by rewrite Hcs.
Qed.

Lemma Connection_Release_sim c w1 w2 :
  sim w1 w2 -> sim (Connection_Release c w1) (Connection_Release c w2).
Proof.
  intros H. unfold Connection_Release.
  assert (Hc : conn_heap w1 = conn_heap w2) by (unfold sim in H; by destruct_and!).
  rewrite <- Hc. destruct (conn_heap w1 !! c) as [conn|]; [|done].
  assert (Hp := sim_pool w1 w2 (c_pool conn) H).
  destruct (c_status conn); try done; simpl;
    (destruct Hp as [|a b Hi Hs Hcs]; [sim_split H|]);
    sim_split H; apply strip_insert; try done; by apply strip_eq.
Qed.

Lemma close_all_sim cs w1 w2 :
  sim w1 w2 ->
  sim (fold_left (fun w c => Connection_Close c w) cs w1)
      (fold_left (fun w c => Connection_Close c w) cs w2).
Proof.
  revert w1 w2. induction cs as [|c cs IH]; intros w1 w2 H; simpl; [done|].
  by apply IH, Connection_Close_sim.
Qed.

Lemma Pool_Shutdown_sim p w1 w2 :
  sim w1 w2 -> sim (Pool_Shutdown p w1) (Pool_Shutdown p w2).
Proof.
  intros H. unfold Pool_Shutdown.
  destruct (sim_pool w1 w2 p H) as [|a b Hi Hs Hcs]; [done|]. rewrite Hcs.
  pose proof (close_all_sim (p_connections b) w1 w2 H) as H'.
  destruct (sim_pool _ _ p H') as [|a' b' Hi' Hs' Hcs']; [done|].
  sim_split H'. apply strip_insert; try done. by apply strip_eq.
Qed.

Lemma shutdown_all_sim ps w1 w2 :
  sim w1 w2 ->
  sim (fold_left (fun w p => Pool_Shutdown p w) ps w1)
      (fold_left (fun w p => Pool_Shutdown p w) ps w2).
Proof.
  revert w1 w2. induction ps as [|p ps IH]; intros w1 w2 H; simpl; [done|].
  by apply IH, Pool_Shutdown_sim.
Qed.

Lemma Pool_IsEmpty_sim p w1 w2 : sim w1 w2 -> Pool_IsEmpty p w1 = Pool_IsEmpty p w2.
Proof.
  intros H. unfold Pool_IsEmpty. destruct (sim_pool w1 w2 p H) as [|a b Hi Hs Hcs]; [done|].
  by rewrite Hcs.
Qed.

Lemma clean_sim w1 w2 : sim w1 w2 -> sim (clean w1) (clean w2).
Proof.
  intros H. rewrite !clean_eq.
  assert (Hf : List.filter (nonempty w1) (s_pools w1) = List.filter (nonempty w2) (s_pools w2)).
  { assert (Hp : s_pools w1 = s_pools w2) by (unfold sim in H; by destruct_and!).
    rewrite Hp. apply filter_ext. intros p. unfold nonempty.
    by rewrite (Pool_IsEmpty_sim p w1 w2). }
  sim_split H.
Qed.

Lemma Pool_Register_sim p ws w1 w2 :
  sim w1 w2 -> sim (Pool_Register p ws w1) (Pool_Register p ws w2).
Proof.
  intros H. unfold Pool_Register. simpl.
  assert (Hc : conn_heap w1 = conn_heap w2) by (unfold sim in H; by destruct_and!).
  destruct (sim_pool w1 w2 p H) as [|a b Hi Hs Hcs]; [sim_split H|].
  sim_split H. apply strip_insert; try done. apply strip_eq. simpl. by rewrite Hcs, Hc.
Qed.

Lemma lookup_pool_sim (h1 h2 : list Pool) (id : PoolID) (ps : list PoolRef) :
  strip <$> h1 = strip <$> h2 -> lookup_pool h1 id ps = lookup_pool h2 id ps.
Proof.
  intros H. induction ps as [|p ps IH]; simpl; [done|].
  destruct (strip_lookup h1 h2 p H) as [|a b Hi Hs Hcs]; [done|]. rewrite Hi, IH. done.
Qed.

Lemma register_pool_sim id n ws w1 w2 :
  sim w1 w2 -> sim (register_pool id n ws w1) (register_pool id n ws w2).
Proof.
  intros H. unfold register_pool.
  assert (Hh : strip <$> pool_heap w1 = strip <$> pool_heap w2)
    by (unfold sim in H; by destruct_and!).
  assert (Hps : s_pools w1 = s_pools w2) by (unfold sim in H; by destruct_and!).
  rewrite (lookup_pool_sim _ _ id (s_pools w1) Hh), Hps.
  destruct (lookup_pool (pool_heap w2) id (s_pools w2)) as [p|]; simpl.
  - apply Pool_Register_sim.
    destruct (sim_pool w1 w2 p H) as [|a b Hi Hs Hcs]; [done|].
    sim_split H. apply strip_insert; try done. by apply strip_eq.
  - assert (Hlen : length (pool_heap w1) = length (pool_heap w2)).
    { apply (f_equal length) in Hh. by rewrite !length_fmap in Hh. }
    rewrite Hlen. rewrite !lookup_app_r by lia. rewrite Hlen, Nat.sub_diag. simpl.
    apply Pool_Register_sim. sim_split H. apply strip_insert; [|done].
    rewrite !fmap_app. by rewrite Hh.
Qed.

Lemma Register_sim rq w1 w2 : sim w1 w2 -> sim (snd (Register rq w1)) (snd (Register rq w2)).
Proof.
  intros H. unfold Register.
  assert (Hc : s_config w1 = s_config w2) by (unfold sim in H; by destruct_and!).
  assert (Hw : ws_heap w1 = ws_heap w2) by (unfold sim in H; by destruct_and!).
  rewrite Hc. destruct (negb (bool_decide _)); [done|].
  destruct (negb (upgrade_ok rq)); [done|]. simpl. rewrite Hw.
  destruct (greeting rq) as [g|]; [|sim_split H].
  destruct (Split g "_" !! 0) as [id|]; [|sim_split H].
  destruct (Split g "_" !! 1) as [field|]; [|sim_split H].
  destruct (Atoi field) as [n|]; [|sim_split H].
  simpl. apply register_pool_sim. sim_split H.
Qed.

Lemma Request_sim rq w1 w2 : sim w1 w2 -> sim (snd (Request rq w1)) (snd (Request rq w2)).
Proof.
  intros H. unfold Request.
  assert (Hp : s_pools w1 = s_pools w2) by (unfold sim in H; by destruct_and!).
  assert (Hd : s_dispatcher_closed w1 = s_dispatcher_closed w2)
    by (unfold sim in H; by destruct_and!).
  destruct (bool_decide _); [done|]. destruct (negb (url_ok rq)); [done|].
  rewrite Hp. destruct (s_pools w2); [done|]. simpl. rewrite Hd.
  destruct (s_dispatcher_closed w2); sim_split H.
Qed.

Lemma Shutdown_sim w1 w2 : sim w1 w2 -> sim (snd (Shutdown w1)) (snd (Shutdown w2)).
Proof.
  intros H. unfold Shutdown.
  assert (Hd : s_done w1 = s_done w2) by (unfold sim in H; by destruct_and!).
  assert (Hc : s_dispatcher_closed w1 = s_dispatcher_closed w2)
    by (unfold sim in H; by destruct_and!).
  assert (Hp : s_pools w1 = s_pools w2) by (unfold sim in H; by destruct_and!).
  rewrite Hd. destruct (s_done w2); [done|]. simpl. rewrite Hc.
  destruct (s_dispatcher_closed w2); [sim_split H|]. simpl. rewrite Hp.
  apply clean_sim, shutdown_all_sim. sim_split H.
Qed.

Lemma env_step_sim a w1 w2 : sim w1 w2 -> sim (env_step a w1) (env_step a w2).
Proof.
  intros H. destruct a as [|rq|rq| | |c|c]; simpl.
  - sim_split H.
  - by apply Register_sim.
  - by apply Request_sim.
  - by apply clean_sim.
  - by apply Shutdown_sim.
  - by apply Connection_Close_sim.
  - by apply Connection_Release_sim.
Qed.

Lemma log_sim e w : sim (log e w) w.
Proof. by repeat split. Qed.

Lemma Select_sim pick cases w p c w' : Select pick cases w = Some (p, c, w') -> sim w' w.
Proof.
  intros H. apply Select_Some in H as (pool & rest & _ & Hp & _ & ->).
  unfold sim. simpl. split_and!; try done. by eapply strip_insert_id.
Qed.

Lemma env_run_cons_env a ms w : env_run (Env a :: ms) w = env_run ms (env_step a w).
Proof. done. Qed.

Lemma env_run_cons_disp pick ms w : env_run (Disp pick :: ms) w = env_run ms w.
Proof. done. Qed.

Lemma scan_from_send ms r d c w o w' rest :
  scan ms (AtSend r d c) w = Some (o, w', rest) -> o = Matched c.
Proof.
  revert w. induction ms as [|[pick|a] ms IH]; intros w; simpl; [done| |].
  - rewrite scan_close. by intros [= <- _ _].
  - apply IH.
Qed.

Lemma scan_unmatched ms l w wE o w' rest :
  is_Some (holds l) -> sim w wE -> scan ms l w = Some (o, w', rest) -> unmatched o = true ->
  exists used, ms = used ++ rest /\ sim w' (env_run used wE).
Proof.
  revert l w wE. induction ms as [|m ms IH]; intros l w wE Hh Hsim Hscan Ho.
  - destruct l; simpl in Hscan; try done. injection Hscan as <- <- <-. by exists [].
  - assert (Hcl : (exists r o', l = AtClose r o') \/ ~ (exists r o', l = AtClose r o'))
      by (destruct l; eauto; right; by intros (? & ? & ?)).
    destruct Hcl as [(r & o' & ->)|Hl].
    { rewrite scan_close in Hscan. injection Hscan as <- <- <-. by exists []. }
    assert (Hscan' : scan ms (fst (move_step (l, w) m)) (snd (move_step (l, w) m))
                     = Some (o, w', rest)).
    { destruct l; try done. destruct Hl; eauto. }
    clear Hscan. destruct m as [pick|a]; simpl in Hscan'.
    + assert (Hnext : exists l1 w1, dispatchConnections pick l w = Some (l1, w1)
                        /\ ((is_Some (holds l1) /\ sim w1 wE) \/ exists r d c, l1 = AtSend r d c)).
      { destruct l as [|r d|r d|r d cases|r d c|r d c|r o0|]; simpl;
          try (by destruct Hh).
        - destruct (d <=? now w)%Z; eexists _, _; (split; [done|]); left; by split.
        - destruct (s_pools w); eexists _, _; (split; [done|]); left; by split.
        - destruct (Select pick cases w) as [[[p c] w1]|] eqn:Hsel;
            eexists _, _; (split; [done|]); left; (split; [done|]); [|done].
          eapply sim_trans; [apply log_sim|]. eapply sim_trans; [|exact Hsim].
          by eapply Select_sim.
        - destruct (Connection_Take_spec c w) as [(_ & Hok & _)|(_ & Heq)].
          + destruct (Connection_Take c w) as [ok w1]. simpl in Hok. subst ok.
            eexists _, _. split; [done|]. right. eauto.
          + rewrite Heq. eexists _, _. split; [done|]. left. split; [done|].
            eapply sim_trans; [apply log_sim|done].
        - eexists _, _. split; [done|]. left. split; [done|].
          eapply sim_trans; [apply log_sim|done].
        - destruct Hl. eauto. }
      destruct Hnext as (l1 & w1 & Hstep & [[Hh1 Hsim1]|(r & d & c & ->)]);
        rewrite Hstep in Hscan'; simpl in Hscan'.
      * destruct (IH l1 w1 wE Hh1 Hsim1 Hscan' Ho) as (used & -> & Hs).
        exists (Disp pick :: used). by split.
      * apply scan_from_send in Hscan'. by subst o.
    + destruct (IH l (env_step a w) (env_step a wE) Hh (env_step_sim a w wE Hsim) Hscan' Ho)
        as (used & -> & Hs).
      exists (Env a :: used). by split.
Qed.

Lemma scan_outcome ms l w d o w' rest :
  deadline_of l = Some d -> scan ms l w = Some (o, w', rest) -> outcome_justified d o w'.
Proof.
  revert l w. induction ms as [|m ms IH]; intros l w Hd Hscan.
  - by destruct l.
  - assert (Hscan' : scan ms (fst (move_step (l, w) m)) (snd (move_step (l, w) m))
                     = Some (o, w', rest)) by (by destruct l).
    clear Hscan. destruct m as [pick|a]; simpl in Hscan'; [|by apply (IH l (env_step a w))].
    destruct l as [|r d0|r d0|r d0 cases|r d0 c|r d0 c|r o0|]; simpl in Hd, Hscan'; try done;
      injection Hd as ->.
    + destruct (Z.leb_spec d (now w)); simpl in Hscan'; [|by apply (IH (AtScan r d) w)].
      rewrite scan_close in Hscan'. by injection Hscan' as <- <- _.
    + destruct (s_pools w) eqn:Hp; simpl in Hscan'; [|by apply (IH (AtSelect r d (n :: l)) w)].
      rewrite scan_close in Hscan'. by injection Hscan' as <- <- _.
    + destruct (Select pick cases w) as [[[p c] w1]|]; simpl in Hscan';
        [by eapply (IH (AtTake r d c))|by apply (IH (AtDeadline r d) w)].
    + destruct (Connection_Take c w) as [[] w1]; simpl in Hscan';
        [by eapply (IH (AtSend r d c))|by eapply (IH (AtDeadline r d))].
    + rewrite scan_close in Hscan'. by injection Hscan' as <- _ _.
Qed.

(** C5 as stated fails: the deadline is tested at the head of the scan
    loop only (line 159).  Request 1 has the deadline 3; at time 4 nothing was
    taken for it and the dispatcher stands at the select of line 183.  The
    Connection is then released, the select receives its token, the take
    succeeds, and request 1 is resolved as Matched, not as TimedOut. *)
Lemma timeout_once_elapsed_fails :
  fst (exec run_elapsed (init config0)) = AtSelect 1 3 [0]
  /\ now (snd (exec run_elapsed (init config0))) = 4%Z
  /\ slot 1 (snd (exec run_elapsed (init config0))) = []
  /\ slot 1 (snd (exec (run_elapsed ++ late_release) (init config0)))
     = [EvSend 1 0; EvClose 1 (Matched 0)]
  /\ ~ (forall config ms1 ms2 r d,
          scanning (fst (exec ms1 (init config))) r ->
          deadline_of (fst (exec ms1 (init config))) = Some d ->
          (d <= now (snd (exec ms1 (init config))))%Z ->
          resolved r (trace (snd (exec (ms1 ++ ms2) (init config)))) ->
          slot r (snd (exec (ms1 ++ ms2) (init config))) = [EvClose r TimedOut]).
Proof.
  split; [vm_compute; reflexivity|]. split; [vm_compute; reflexivity|].
  split; [vm_compute; reflexivity|]. split; [vm_compute; reflexivity|].
  intros H.
  assert (H1 : scanning (fst (exec run_elapsed (init config0))) 1) by (vm_compute; reflexivity).
  assert (H2 : deadline_of (fst (exec run_elapsed (init config0))) = Some 3%Z)
    by (vm_compute; reflexivity).
  assert (H3 : (3 <= now (snd (exec run_elapsed (init config0))))%Z)
    by (vm_compute; discriminate).
  assert (H4 : resolved 1 (trace (snd (exec (run_elapsed ++ late_release) (init config0)))))
    by (exists (Matched 0); vm_compute; reflexivity).
  pose proof (H config0 run_elapsed late_release 1 3%Z H1 H2 H3 H4) as H5.
  vm_compute in H5. discriminate H5.
Qed.

(** C5, amended: the deadline is observed at the head of the scan loop.
    A request found past its deadline there leaves the loop as TimedOut, and
    the loop is never left as TimedOut before the deadline; when the loop is
    left without a match, the connections are what the other goroutines alone
    made of them in the meantime, so none was made Busy by this dispatch; the
    slot of a request that timed out is closed without a Connection; and no
    other step of the dispatcher than the check at the loop head, with the
    deadline passed, ends a dispatch as TimedOut. *)
Theorem timeout_leaves_no_busy :
  (forall w r d pick ms,
     (d <= now w)%Z -> scan (Disp pick :: ms) (AtDeadline r d) w = Some (TimedOut, w, ms))
  /\ (forall ms l w d o w' rest,
        deadline_of l = Some d -> scan ms l w = Some (o, w', rest) ->
        outcome_justified d o w')
  /\ (forall ms l w o w' rest,
        is_Some (holds l) -> unmatched o = true -> scan ms l w = Some (o, w', rest) ->
        exists used, ms = used ++ rest
          /\ conn_heap w' = conn_heap (env_run used w)
          /\ forall c, status_of c w' = status_of c (env_run used w))
  /\ (forall config ms r pick,
        fst (exec ms (init config)) = AtClose r TimedOut ->
        slot r (snd (exec (ms ++ [Disp pick]) (init config))) = [EvClose r TimedOut])
  /\ (forall pick l w r w',
        dispatchConnections pick l w = Some (AtClose r TimedOut, w') ->
        exists d, l = AtDeadline r d /\ (d <= now w)%Z /\ w' = w).
Proof.
  split_and!.
  - intros w r d pick ms Hd. simpl. destruct (Z.leb_spec d (now w)); [|lia]. simpl.
    apply scan_close.
  - intros ms l w d o w' rest. apply scan_outcome.
  - intros ms l w o w' rest Hh Ho Hscan.
    destruct (scan_unmatched ms l w w o w' rest Hh (sim_refl w) Hscan Ho) as (used & -> & Hs).
    exists used. assert (Hc : conn_heap w' = conn_heap (env_run used w))
      by (unfold sim in Hs; by destruct_and!).
    split; [done|]. split; [done|]. intros c. unfold status_of. by rewrite Hc.
  - intros config ms r pick Hl. rewrite exec_app.
    pose proof (reachable_req_inv config ms) as Hinv.
    destruct (exec ms (init config)) as [l w]. simpl in Hl. subst l.
    destruct (ri_hand _ Hinv r eq_refl) as (_ & Hin & _). simpl in Hin.
    unfold slot. simpl. rewrite slot_of_cons, Hin. simpl. by rewrite Nat.eqb_refl.
  - intros pick l w r w' Hstep.
    destruct l as [|r0 d|r0 d|r0 d cases|r0 d c|r0 d c|r0 o|]; simpl in Hstep.
    + destruct (s_dispatcher w) as [|[r1 t0] q]; [destruct (s_dispatcher_closed w)|];
        discriminate Hstep.
    + destruct (Z.leb_spec d (now w)); [|discriminate Hstep].
      injection Hstep as <- <-. by exists d.
    + destruct (s_pools w); discriminate Hstep.
    + destruct (Select pick cases w) as [[[p c] w1]|]; discriminate Hstep.
    + destruct (Connection_Take c w) as [[] w1]; discriminate Hstep.
    + discriminate Hstep.
    + discriminate Hstep.
    + discriminate Hstep.
Qed.

Lemma timeout_leaves_no_busy_witness :
  exists used, wait_out = used ++ []
    /\ conn_heap (snd (exec wait_out (AtDeadline 1 3, world_busy)))
       = conn_heap (env_run used world_busy)
    /\ forall c, status_of c (snd (exec wait_out (AtDeadline 1 3, world_busy)))
                 = status_of c (env_run used world_busy).
Proof.
  apply (proj1 (proj2 (proj2 timeout_leaves_no_busy)) wait_out (AtDeadline 1 3) world_busy
           TimedOut).
  - by eexists.
  - reflexivity.
  - by vm_compute.
Defined.

(** ** Shutdown *)

Lemma shrinks_same_heap w w' : pool_heap w' = pool_heap w -> shrinks w w'.
Proof. intros Heq q pool Hq. rewrite Heq in Hq. eauto. Qed.

Lemma shrinks_refl w : shrinks w w.
Proof. by apply shrinks_same_heap. Qed.

Lemma shrinks_trans w1 w2 w3 : shrinks w1 w2 -> shrinks w2 w3 -> shrinks w1 w3.
Proof.
  intros H12 H23 q pool3 Hq. destruct (H23 q pool3 Hq) as (pool2 & Hq2 & Hsub2).
  destruct (H12 q pool2 Hq2) as (pool1 & Hq1 & Hsub1). eauto.
Qed.

Lemma elem_of_filter_ne (c c' : ConnRef) (cs : list ConnRef) :
  c' ∈ List.filter (fun x => negb (Nat.eqb x c)) cs <-> c' ∈ cs /\ c' <> c.
Proof.
  rewrite !list_elem_of_In, filter_In, negb_true_iff, Nat.eqb_neq. done.
Qed.

Lemma Connection_Close_shrinks c w : shrinks w (Connection_Close c w).
Proof.
  unfold Connection_Close. destruct (conn_heap w !! c) as [conn|]; [|apply shrinks_refl].
  assert (Hgoal : shrinks w
    match pool_heap w !! c_pool conn with
    | Some pool =>
        set_pool_heap
          (<[c_pool conn :=
               with_connections
                 (List.filter (fun c' => negb (Nat.eqb c' c)) (p_connections pool)) pool]>
             (pool_heap w))
          (set_ws_heap (<[c_ws conn := true]> (ws_heap w))
             (set_conn_heap (<[c := with_status Closed conn]> (conn_heap w)) w))
    | None =>
        set_ws_heap (<[c_ws conn := true]> (ws_heap w))
          (set_conn_heap (<[c := with_status Closed conn]> (conn_heap w)) w)
    end).
  { destruct (pool_heap w !! c_pool conn) as [pool|] eqn:Hp; [|by apply shrinks_same_heap].
    intros q pool' Hq. simpl in Hq. destruct (decide (c_pool conn = q)) as [<-|Hne].
    - rewrite list_lookup_insert_eq in Hq by (by eapply lookup_lt_Some).
      injection Hq as <-. exists pool. split; [done|]. simpl. intros c' Hc'.
      by apply elem_of_filter_ne in Hc' as [? _].
    - rewrite list_lookup_insert_ne in Hq by done. eauto. }
  destruct (c_status conn); try exact Hgoal. apply shrinks_refl.
Qed.

Lemma Connection_Close_dead c w : dead c (Connection_Close c w).
Proof.
  unfold Connection_Close, dead. destruct (conn_heap w !! c) as [conn|] eqn:Hc; [|congruence].
  assert (Hlt : c < length (conn_heap w)) by (by eapply lookup_lt_Some).
  destruct (c_status conn) eqn:Hs; [| |congruence]; simpl;
    destruct (pool_heap w !! c_pool conn); simpl;
    rewrite list_lookup_insert_eq by done; by intros conn' [= <-].
Qed.

Lemma Connection_Close_keeps_dead c c' w : dead c' w -> dead c' (Connection_Close c w).
Proof.
  intros Hd. destruct (decide (c = c')) as [->|Hne]; [apply Connection_Close_dead|].
  unfold Connection_Close, dead. destruct (conn_heap w !! c) as [conn|] eqn:Hc; [|done].
  destruct (c_status conn) eqn:Hs; [| |done]; simpl;
    destruct (pool_heap w !! c_pool conn); simpl;
    rewrite list_lookup_insert_ne by done; apply Hd.
Qed.

Lemma Connection_Close_conns_ok c w : conns_ok w -> conns_ok (Connection_Close c w).
Proof.
  intros Hok. unfold Connection_Close.
  destruct (conn_heap w !! c) as [conn|] eqn:Hc; [|done].
  assert (Hlt : c < length (conn_heap w)) by (by eapply lookup_lt_Some).
  assert (Hgoal : conns_ok
    match pool_heap w !! c_pool conn with
    | Some pool =>
        set_pool_heap
          (<[c_pool conn :=
               with_connections
                 (List.filter (fun c' => negb (Nat.eqb c' c)) (p_connections pool)) pool]>
             (pool_heap w))
          (set_ws_heap (<[c_ws conn := true]> (ws_heap w))
             (set_conn_heap (<[c := with_status Closed conn]> (conn_heap w)) w))
    | None =>
        set_ws_heap (<[c_ws conn := true]> (ws_heap w))
          (set_conn_heap (<[c := with_status Closed conn]> (conn_heap w)) w)
    end).
  { intros c' conn' Hc' Hlive.
    assert (Hne : c <> c').
    { intros <-. destruct (pool_heap w !! c_pool conn); simpl in Hc';
        rewrite list_lookup_insert_eq in Hc' by done; injection Hc' as <-; by apply Hlive. }
    assert (Hold : conn_heap w !! c' = Some conn').
    { destruct (pool_heap w !! c_pool conn); simpl in Hc';
        by rewrite list_lookup_insert_ne in Hc' by done. }
    destruct (Hok c' conn' Hold Hlive) as (Hin & pool' & Hp' & Hmem).
    destruct (pool_heap w !! c_pool conn) as [pool|] eqn:Hp; simpl; [|eauto].
    split; [done|]. destruct (decide (c_pool conn = c_pool conn')) as [Heq|Hneq].
    - rewrite <- Heq in *. rewrite list_lookup_insert_eq by (by eapply lookup_lt_Some).
      eexists. split; [done|]. simpl. apply elem_of_filter_ne. split; [congruence|done].
    - rewrite list_lookup_insert_ne by done. eauto. }
  destruct (c_status conn); try exact Hgoal. done.
Qed.

Lemma close_all_facts cs w :
  conns_ok w ->
  let w' := fold_left (fun w c => Connection_Close c w) cs w in
  conns_ok w' /\ shrinks w w' /\ (forall c, c ∈ cs -> dead c w')
  /\ (forall c, dead c w -> dead c w').
Proof.
  revert w. induction cs as [|c cs IH]; intros w Hok; simpl.
  - split_and!; try done; [apply shrinks_refl|]. intros c Hc. by apply elem_of_nil in Hc.
  - destruct (IH (Connection_Close c w) (Connection_Close_conns_ok c w Hok))
      as (Hok' & Hsh & Hdead & Hkeep).
    split_and!; try done.
    + eapply shrinks_trans; [apply Connection_Close_shrinks|done].
    + intros c' Hc'. apply elem_of_cons in Hc' as [->|Hc']; [|by apply Hdead].
      apply Hkeep, Connection_Close_dead.
    + intros c' Hc'. by apply Hkeep, Connection_Close_keeps_dead.
Qed.

Lemma subset_nil {A} (l : list A) : (forall x, x ∈ l -> x ∈ @nil A) -> l = [].
Proof.
  destruct l as [|x l]; [done|]. intros H. specialize (H x). 
  assert (Hx : x ∈ x :: l) by left. by apply H, elem_of_nil in Hx.
Qed.

Lemma Pool_Shutdown_facts p w :
  conns_ok w ->
  conns_ok (Pool_Shutdown p w) /\ shrinks w (Pool_Shutdown p w)
  /\ (forall pool', pool_heap (Pool_Shutdown p w) !! p = Some pool' ->
        p_connections pool' = [])
  /\ (forall c, dead c w -> dead c (Pool_Shutdown p w)).
Proof.
  intros Hok. unfold Pool_Shutdown.
  destruct (pool_heap w !! p) as [pool|] eqn:Hp.
  2:{ split_and!; try done; [apply shrinks_refl|]. intros pool'. by rewrite Hp. }
  destruct (close_all_facts (p_connections pool) w Hok) as (Hok1 & Hsh1 & Hdead1 & Hkeep1).
  set (w1 := fold_left (fun w c => Connection_Close c w) (p_connections pool) w) in *.
  destruct (pool_heap w1 !! p) as [pool1|] eqn:Hp1.
  2:{ split_and!; try done. intros pool'. by rewrite Hp1. }
  assert (Hlt : p < length (pool_heap w1)) by (by eapply lookup_lt_Some).
  split_and!.
  - intros c conn Hc Hlive. simpl in Hc. destruct (Hok1 c conn Hc Hlive) as (Hin & pool' & Hp' & Hmem).
    simpl. split; [done|]. destruct (decide (c_pool conn = p)) as [Heq|Hne].
    + exfalso. rewrite Heq in Hp'. rewrite Hp1 in Hp'. injection Hp' as <-.
      destruct (Hsh1 p pool1 Hp1) as (pool0 & Hp0 & Hsub). rewrite Hp in Hp0.
      injection Hp0 as <-. apply Hlive, (Hdead1 c); [by apply Hsub|done].
    + rewrite list_lookup_insert_ne by done. eauto.
  - eapply shrinks_trans; [exact Hsh1|]. intros q pool' Hq. simpl in Hq.
    destruct (decide (p = q)) as [<-|Hne].
    + rewrite list_lookup_insert_eq in Hq by done. injection Hq as <-.
      exists pool1. split; [done|]. simpl. intros c Hc. by apply elem_of_nil in Hc.
    + rewrite list_lookup_insert_ne in Hq by done. eauto.
  - intros pool'. simpl. rewrite list_lookup_insert_eq by done. by intros [= <-].
  - intros c Hc. by apply Hkeep1.
Qed.

Lemma shutdown_all_facts ps w :
  conns_ok w ->
  let w' := fold_left (fun w p => Pool_Shutdown p w) ps w in
  conns_ok w' /\ shrinks w w'
  /\ (forall p pool', p ∈ ps -> pool_heap w' !! p = Some pool' -> p_connections pool' = [])
  /\ (forall c, dead c w -> dead c w').
Proof.
  revert w. induction ps as [|p ps IH]; intros w Hok; simpl.
  - split_and!; try done; [apply shrinks_refl|]. intros p pool' Hp. by apply elem_of_nil in Hp.
  - destruct (Pool_Shutdown_facts p w Hok) as (Hok1 & Hsh1 & Hclr1 & Hkeep1).
    destruct (IH (Pool_Shutdown p w) Hok1) as (Hok' & Hsh' & Hclr' & Hkeep').
    split_and!; try done.
    + by eapply shrinks_trans.
    + intros q pool' Hq Hlook. apply elem_of_cons in Hq as [->|Hq]; [|by eapply Hclr'].
      destruct (Hsh' p pool' Hlook) as (pool1 & Hp1 & Hsub).
      rewrite (Hclr1 pool1 Hp1) in Hsub. by apply subset_nil.
    + intros c Hc. by apply Hkeep', Hkeep1.
Qed.

Lemma clean_conns_ok w : conns_ok w -> conns_ok (clean w).
Proof.
  intros Hok. rewrite clean_eq. intros c conn Hc Hlive. simpl in *.
  destruct (Hok c conn Hc Hlive) as (Hin & pool & Hp & Hmem).
  split; [|eauto]. apply list_elem_of_In, filter_In. split; [by apply list_elem_of_In|].
  unfold nonempty, Pool_IsEmpty. rewrite Hp.
  destruct (p_connections pool); [by apply elem_of_nil in Hmem|done].
Qed.

Lemma grows_conns_ok w w' : grows w w' -> conns_ok w -> conns_ok w'.
Proof.
  intros (Hc & Hps & Hh) Hok c conn Hlook Hlive. rewrite Hc in Hlook.
  destruct (Hok c conn Hlook Hlive) as (Hin & pool & Hp & Hmem).
  split; [by apply Hps|]. destruct (Hh _ _ Hp) as (pool' & Hp' & Hsub). eauto.
Qed.

Lemma grows_same w w' :
  conn_heap w' = conn_heap w -> s_pools w' = s_pools w -> pool_heap w' = pool_heap w ->
  grows w w'.
Proof. intros Hc Hp Hh. split_and!; [done|by rewrite Hp|]. rewrite Hh. eauto. Qed.

Lemma grows_insert w p pool pool' :
  pool_heap w !! p = Some pool -> p_connections pool' = p_connections pool ->
  grows w (set_pool_heap (<[p := pool']> (pool_heap w)) w).
Proof.
  intros Hp Hcs. split_and!; try done. intros q pool0 Hq. simpl.
  destruct (decide (p = q)) as [<-|Hne].
  - rewrite list_lookup_insert_eq by (by eapply lookup_lt_Some). eexists. split; [done|].
    rewrite Hcs. congruence.
  - rewrite list_lookup_insert_ne by done. eauto.
Qed.

Lemma status_change_conns_ok c conn st w :
  conn_heap w !! c = Some conn -> c_status conn <> Closed ->
  conns_ok w -> conns_ok (set_conn_heap (<[c := with_status st conn]> (conn_heap w)) w).
Proof.
  intros Hc Hlive Hok c' conn' Hc' Hlive'. simpl in *.
  destruct (decide (c = c')) as [<-|Hne].
  - rewrite list_lookup_insert_eq in Hc' by (by eapply lookup_lt_Some).
    injection Hc' as <-. simpl. by apply Hok.
  - rewrite list_lookup_insert_ne in Hc' by done. by apply Hok.
Qed.

Lemma Connection_Take_conns_ok c w : conns_ok w -> conns_ok (snd (Connection_Take c w)).
Proof.
  intros Hok. unfold Connection_Take. destruct (conn_heap w !! c) as [conn|] eqn:Hc; [|done].
  destruct (c_status conn) eqn:Hs; try done. simpl.
  apply status_change_conns_ok; try done. congruence.
Qed.

Lemma Connection_Release_conns_ok c w : conns_ok w -> conns_ok (Connection_Release c w).
Proof.
  intros Hok. unfold Connection_Release.
  destruct (conn_heap w !! c) as [conn|] eqn:Hc; [|done].
  destruct (c_status conn) eqn:Hs; try done.
  assert (Hok1 : conns_ok (set_conn_heap (<[c := with_status Idle conn]> (conn_heap w)) w)).
  { apply status_change_conns_ok; try done. congruence. }
  simpl. destruct (pool_heap w !! c_pool conn) as [pool|] eqn:Hp; [|done].
  eapply grows_conns_ok; [|exact Hok1].
  by apply (grows_insert (set_conn_heap (<[c := with_status Idle conn]> (conn_heap w)) w)
              _ pool).
Qed.

Lemma Pool_Register_conns_ok p ws w :
  p ∈ s_pools w -> is_Some (pool_heap w !! p) -> conns_ok w ->
  conns_ok (Pool_Register p ws w).
Proof.
  intros Hin [pool Hp] Hok. unfold Pool_Register. simpl. rewrite Hp.
  assert (Hlt : p < length (pool_heap w)) by (by eapply lookup_lt_Some).
  intros c conn Hc Hlive. simpl in *.
  destruct (decide (c < length (conn_heap w))) as [Hc'|Hc'].
  - rewrite lookup_app_l in Hc by done.
    destruct (Hok c conn Hc Hlive) as (Hin' & pool' & Hp' & Hmem). split; [done|].
    destruct (decide (p = c_pool conn)) as [Heq|Hne].
    + rewrite <- Heq in *. rewrite list_lookup_insert_eq by done. eexists. split; [done|].
      simpl. apply elem_of_app. left. congruence.
    + rewrite list_lookup_insert_ne by done. eauto.
  - rewrite lookup_app_r in Hc by lia.
    destruct (c - length (conn_heap w)) as [|k] eqn:Hk; [|by destruct k].
    injection Hc as <-. simpl. split; [done|].
    rewrite list_lookup_insert_eq by done. eexists. split; [done|]. simpl.
    apply elem_of_app. right. apply list_elem_of_singleton. lia.
Qed.

Lemma register_pool_conns_ok id n ws w :
  conns_ok w -> conns_ok (register_pool id n ws w).
Proof.
  intros Hok. unfold register_pool.
  destruct (lookup_pool (pool_heap w) id (s_pools w)) as [p|] eqn:Hlook.
  - destruct (lookup_pool_Some _ _ _ _ Hlook) as (Hin & pool & Hp & _). rewrite Hp.
    apply Pool_Register_conns_ok; simpl.
    + done.
    + rewrite list_lookup_insert_eq by (by eapply lookup_lt_Some). eauto.
    + eapply grows_conns_ok; [|exact Hok]. by apply (grows_insert _ _ pool).
  - simpl. rewrite lookup_app_r, Nat.sub_diag by done. simpl.
    assert (Hlen : length (pool_heap w) < length (pool_heap w ++ [mkPool id 0%Z [] []]))
      by (rewrite length_app; simpl; lia).
    apply Pool_Register_conns_ok; simpl.
    + apply elem_of_app. right. by apply list_elem_of_singleton.
    + rewrite list_lookup_insert_eq by done. eauto.
    + eapply grows_conns_ok; [|exact Hok]. split_and!; simpl; try done.
      * intros p Hp. apply elem_of_app. by left.
      * intros q pool Hq. assert (q < length (pool_heap w)) by (by eapply lookup_lt_Some).
        rewrite list_lookup_insert_ne by lia. rewrite lookup_app_l by done. eauto.
Qed.

Lemma Register_conns_ok rq w : conns_ok w -> conns_ok (snd (Register rq w)).
Proof.
  intros Hok. destruct (Register_world rq w) as [([Hps _] & Hh & Hc)|(id & n & ->)].
  - eapply grows_conns_ok; [|exact Hok]. by apply grows_same.
  - apply register_pool_conns_ok. eapply grows_conns_ok; [|exact Hok]. by apply grows_same.
Qed.

Lemma Shutdown_conns_ok w : conns_ok w -> conns_ok (snd (Shutdown w)).
Proof.
  intros Hok. unfold Shutdown. destruct (s_done w); [done|]. simpl.
  destruct (s_dispatcher_closed w); [done|]. simpl.
  apply clean_conns_ok.
  by apply (shutdown_all_facts (s_pools w)
              (close_dispatcher (set_done true w))).
Qed.

Lemma env_step_conns_ok a w : conns_ok w -> conns_ok (env_step a w).
Proof.
  intros Hok. destruct a as [|rq|rq| | |c|c]; simpl.
  - done.
  - by apply Register_conns_ok.
  - destruct (Request_stable rq w) as ([Hps _] & Hh & Hc).
    eapply grows_conns_ok; [|exact Hok]. by apply grows_same.
  - by apply clean_conns_ok.
  - by apply Shutdown_conns_ok.
  - by apply Connection_Close_conns_ok.
  - by apply Connection_Release_conns_ok.
Qed.

Lemma disp_step_conns_ok pick l w l' w' :
  dispatchConnections pick l w = Some (l', w') -> conns_ok w -> conns_ok w'.
Proof.
  intros Hstep Hok.
  destruct l as [|r d|r d|r d cases|r d c|r d c|r o|]; simpl in Hstep.
  - destruct (s_dispatcher w) as [|[r t0] q]; [destruct (s_dispatcher_closed w)|];
      try done; by injection Hstep as <- <-.
  - by destruct (d <=? now w)%Z; injection Hstep as <- <-.
  - by destruct (s_pools w); injection Hstep as <- <-.
  - destruct (Select pick cases w) as [[[p c] w1]|] eqn:Hsel; injection Hstep as <- <-;
      [|done].
    apply Select_Some in Hsel as (pool & rest & _ & Hp & _ & ->).
    eapply (grows_conns_ok (set_pool_heap _ w)); [by apply grows_same|].
    eapply grows_conns_ok; [|exact Hok]. by apply (grows_insert _ _ pool).
  - pose proof (Connection_Take_conns_ok c w Hok) as Hok1.
    destruct (Connection_Take c w) as [ok w1]. by injection Hstep as <- <-.
  - by injection Hstep as <- <-.
  - by injection Hstep as <- <-.
  - done.
Qed.

Lemma reachable_conns_ok config ms : conns_ok (snd (exec ms (init config))).
Proof.
  apply (exec_invariant (fun st => conns_ok (snd st))).
  - intros [l w] [pick|a] Hok; simpl in *.
    + destruct (dispatchConnections pick l w) as [[l' w']|] eqn:Hstep; [|done].
      by eapply disp_step_conns_ok.
    + by apply env_step_conns_ok.
  - intros c conn Hc. done.
Qed.

Lemma ctl_chans_ok w w' : ctl w' = ctl w -> chans_ok w -> chans_ok w'.
Proof. unfold chans_ok. intros [= _ -> _ -> _ _ _]. done. Qed.

Lemma reachable_chans_ok config ms : chans_ok (snd (exec ms (init config))).
Proof.
  apply (exec_invariant (fun st => chans_ok (snd st))); [|done].
  intros [l w] [pick|a] Hok; simpl in *.
  - destruct (dispatchConnections pick l w) as [[l' w']|] eqn:Hstep; [|done]. simpl.
    destruct l as [|r d|r d|r d cases|r d c|r d c|r o|]; simpl in Hstep.
    + destruct (s_dispatcher w) as [|[r t0] q]; [destruct (s_dispatcher_closed w) eqn:E|];
        try done; by injection Hstep as <- <-.
    + by destruct (d <=? now w)%Z; injection Hstep as <- <-.
    + by destruct (s_pools w); injection Hstep as <- <-.
    + destruct (Select pick cases w) as [[[p c] w1]|] eqn:Hsel; injection Hstep as <- <-;
        [|done].
      apply Select_stable in Hsel as [_ Hctl]. by apply (ctl_chans_ok w w1).
    + pose proof (Connection_Take_ctl c w) as Hctl.
      destruct (Connection_Take c w) as [ok w1]. injection Hstep as <- <-.
      by apply (ctl_chans_ok w w1).
    + by injection Hstep as <- <-.
    + by injection Hstep as <- <-.
    + done.
  - destruct a as [|rq|rq| | |c|c]; simpl.
    + done.
    + eapply ctl_chans_ok; [apply Register_ctl|done].
    + unfold Request. destruct (bool_decide _); [done|]. destruct (negb (url_ok rq)); [done|].
      destruct (s_pools w); [done|]. simpl. by destruct (s_dispatcher_closed w).
    + eapply ctl_chans_ok; [apply clean_ctl|done].
    + unfold Shutdown. unfold chans_ok in *. destruct (s_done w) eqn:Hd; simpl; [congruence|].
      destruct (s_dispatcher_closed w); [done|]. simpl.
      pose proof (clean_ctl (fold_left (fun w p => Pool_Shutdown p w) (s_pools w)
        (close_dispatcher (set_done true w)))) as Hc.
      rewrite shutdown_all_ctl in Hc. by injection Hc as _ -> _ -> _ _ _.
    + eapply ctl_chans_ok; [apply Connection_Close_ctl|done].
    + eapply ctl_chans_ok; [apply Connection_Release_ctl|done].
Qed.

Lemma filter_none {A} (f : A -> bool) (l : list A) :
  (forall x, x ∈ l -> f x = false) -> List.filter f l = [].
Proof.
  induction l as [|x l IH]; intros H; simpl; [done|].
  rewrite (H x) by left. apply IH. intros y Hy. apply H. by right.
Qed.

Lemma Shutdown_first w :
  conns_ok w -> s_done w = false -> s_dispatcher_closed w = false ->
  fst (Shutdown w) = Done
  /\ s_done (snd (Shutdown w)) = true
  /\ drained (snd (Shutdown w))
  /\ trace (snd (Shutdown w)) = trace w
  /\ (forall p pool', p ∈ s_pools w -> pool_heap (snd (Shutdown w)) !! p = Some pool' ->
        p_connections pool' = []).
Proof.
  intros Hok Hd Hc. unfold Shutdown. rewrite Hd. simpl. rewrite Hc. simpl.
  set (w2 := close_dispatcher (set_done true w)).
  set (w3 := fold_left (fun w p => Pool_Shutdown p w) (s_pools w) w2).
  destruct (shutdown_all_facts (s_pools w) w2 Hok) as (Hok3 & Hsh & Hclr & _).
  fold w3 in Hok3, Hsh, Hclr.
  pose proof (shutdown_all_ctl (s_pools w) w2) as Hctl. fold w3 in Hctl.
  destruct (shutdown_all_stable (s_pools w) w2) as [Hps _]. fold w3 in Hps. simpl in Hps.
  injection Hctl as _ Hdone Hq Hcl _ _ Htr. simpl in *.
  assert (Hempty : forall p, p ∈ s_pools w3 -> nonempty w3 p = false).
  { intros p Hp. rewrite Hps in Hp. unfold nonempty, Pool_IsEmpty.
    destruct (pool_heap w3 !! p) as [pool'|] eqn:Hp'; [|done].
    by rewrite (Hclr p pool' Hp Hp'). }
  rewrite clean_eq. simpl. split_and!; try done.
  split_and!; try done.
  - by apply filter_none.
  - intros c conn Hlook. destruct (decide (c_status conn = Closed)) as [|Hlive]; [done|].
    destruct (Hok3 c conn Hlook Hlive) as (Hin & pool & Hp & Hmem).
    rewrite Hps in Hin. rewrite (Hclr _ pool Hin Hp) in Hmem. by apply elem_of_nil in Hmem.
Qed.












(** ** The handlers parked at shutdown *)

Lemma disp_step_next pick l w l' w' :
  dispatchConnections pick l w = Some (l', w') -> next_request w' = next_request w.
Proof.
  destruct l as [|r d|r d|r d cases|r d c|r d c|r o|]; simpl.
  - destruct (s_dispatcher w) as [|[r t0] q]; [destruct (s_dispatcher_closed w)|];
      try done; by intros [= <- <-].
  - by destruct (d <=? now w)%Z; intros [= <- <-].
  - by destruct (s_pools w); intros [= <- <-].
  - destruct (Select pick cases w) as [[[p c] w1]|] eqn:Hsel; intros [= <- <-]; [|done].
    apply Select_stable in Hsel as [_ Hctl]. by injection Hctl.
  - pose proof (Connection_Take_ctl c w) as Hctl.
    destruct (Connection_Take c w) as [ok w1]. intros [= <- <-]. by injection Hctl.
  - by intros [= <- <-].
  - by intros [= <- <-].
  - done.
Qed.

Lemma move_step_stranded r st m : stranded r st -> stranded r (move_step st m).
Proof.
  destruct st as [l w]. intros (Hlt & Hq & Hdq). unfold stranded in *. simpl in *.
  destruct m as [pick|a]; simpl.
  - destruct (dispatchConnections pick l w) as [[l' w']|] eqn:Hstep; simpl; [|done].
    rewrite (disp_step_next _ _ _ _ _ Hstep).
    destruct (disp_step_effect _ _ _ _ _ Hstep)
      as (_ & _ & [(Hd & Ht & _ & _)|(r' & t0 & _ & _ & Hd & Ht)]).
    + rewrite Hd. split_and!; try done.
      destruct Ht as [->|(e & -> & He)]; [done|]. by rewrite dequeued_cons_other.
    + split_and!; [done| |].
      * intros s Hin. apply (Hq s). rewrite Hd. by right.
      * rewrite Ht, dequeued_cons. intros [(s & t & d & [= <- _ _ _])|H]; [|done].
        apply (Hq t0). rewrite Hd. left.
  - destruct (env_step_bookkeeping a w) as (Ht & _ & _ & Hch). rewrite Ht.
    destruct Hch as [Hd Hn _|Hd Hn _ _|Hd Hn _|Hd Hn _]; rewrite Hd, Hn;
      split_and!; try done; try lia.
    + intros s Hin. apply elem_of_app in Hin as [Hin|Hin]; [by apply (Hq s)|].
      apply list_elem_of_singleton in Hin as [= -> _]. lia.
    + intros s Hin. by apply elem_of_nil in Hin.
Qed.

Lemma exec_stranded r ms st : stranded r st -> stranded r (exec ms st).
Proof.
  revert st. induction ms as [|m ms IH]; intros st H; [done|].
  simpl. by apply IH, move_step_stranded.
Qed.

Lemma exec_after_shutdown config ms ms' :
  exec ms' (fst (exec ms (init config)), snd (Shutdown (snd (exec ms (init config)))))
  = exec (ms ++ Env ActShutdown :: ms') (init config).
Proof. rewrite exec_app. simpl. by destruct (exec ms (init config)). Qed.

(** C10, at a shutdown that finds a handler parked on the dispatcher
    channel: the dispatcher is looking for a Connection for request 1 and the
    handler of request 2 is blocked in the send of line 229.
    [close(s.dispatcher)] makes that handler panic; request 2 is never
    consumed, and whatever happens afterwards nothing is ever sent on its slot
    and the slot is never closed. *)
Theorem Shutdown_strands_parked_request :
  let st := exec run_parked (init config0) in
  let w' := snd (Shutdown (snd st)) in
  fst st = AtDeadline 1 3
  /\ s_dispatcher (snd st) = [(2, 0%Z)]
  /\ fst (Shutdown (snd st)) = Done
  /\ panicked w' = [2]
  /\ s_dispatcher w' = []
  /\ forall ms',
       slot 2 (snd (exec ms' (fst st, w'))) = []
       /\ ~ dequeued 2 (trace (snd (exec ms' (fst st, w'))))
       /\ ~ resolved 2 (trace (snd (exec ms' (fst st, w')))).
Proof.
  intros st w'.
  split; [vm_compute; reflexivity|]. split; [vm_compute; reflexivity|].
  split; [vm_compute; reflexivity|]. split; [vm_compute; reflexivity|].
  split; [vm_compute; reflexivity|].
  intros ms'.
  assert (Hst : stranded 2 (fst st, w')).
  { split; [|split].
    - vm_compute. lia.
    - intros s Hin. vm_compute in Hin. by apply elem_of_nil in Hin.
    - intros (s & t & d & Hin). vm_compute in Hin.
      repeat (apply elem_of_cons in Hin as [Hin|Hin]; [discriminate Hin|]).
      by apply elem_of_nil in Hin. }
  apply (exec_stranded 2 ms') in Hst. destruct Hst as (_ & _ & Hdq).
  subst st w'.
  pose proof (reachable_req_inv config0 (run_parked ++ Env ActShutdown :: ms')) as Hinv.
  rewrite <- (exec_after_shutdown config0 run_parked ms') in Hinv.
  pose proof (ri_silent _ Hinv 2 Hdq) as Hsl. unfold slot in Hsl.
  split; [exact Hsl|]. split; [exact Hdq|].
  intros [o Ho]. rewrite Hsl in Ho. destruct o; discriminate Ho.
Qed.

(** ** Greetings field by field *)

Lemma Split_length (s : string) (sep : ascii) :
  length (Split s sep) = S (count_sep sep s).
Proof.
  induction s as [|ch rest IH]; simpl; [done|].
  destruct (Ascii.eqb ch sep); simpl; [by rewrite IH|].
  destruct (Split rest sep) as [|f fs] eqn:E; simpl in *; [done|lia].
Qed.

Lemma Split_free (s : string) (sep : ascii) : count_sep sep s = 0 -> Split s sep = [s].
Proof.
  induction s as [|ch rest IH]; simpl; [done|].
  destruct (Ascii.eqb ch sep); simpl; [done|]. intros H. by rewrite IH.
Qed.

Lemma Split_app (a b : string) (sep : ascii) :
  count_sep sep a = 0 -> Split (a +:+ String sep b) sep = a :: Split b sep.
Proof.
  induction a as [|ch rest IH]; simpl.
  - intros _. by rewrite Ascii.eqb_refl.
  - destruct (Ascii.eqb ch sep); simpl; [done|]. intros H. by rewrite IH.
Qed.

Lemma Split_fields_free (s : string) (sep : ascii) :
  Forall (fun f => count_sep sep f = 0) (Split s sep).
Proof.
  induction s as [|ch rest IH]; simpl.
  - by repeat constructor.
  - destruct (Ascii.eqb ch sep) eqn:E.
    + by constructor.
    + destruct (Split rest sep) as [|f fs].
      * repeat constructor. simpl. by rewrite E.
      * apply Forall_cons in IH as [Hf Hfs]. constructor; [|done]. simpl. by rewrite E.
Qed.

Lemma digits_free (acc : Z) (s : string) (v : Z) :
  digits acc s = Some v -> count_sep "_" s = 0.
Proof.
  revert acc. induction s as [|ch rest IH]; intros acc; simpl; [done|].
  destruct (digit ch) as [d|] eqn:Hd; [|done]. intros H.
  destruct (Ascii.eqb_spec ch "_") as [->|_]; [by vm_compute in Hd|].
  simpl. by eapply IH.
Qed.

Lemma unsigned_body_free (neg : bool) (s : string) (n : Z) :
  unsigned_body neg s = Some n -> count_sep "_" s = 0.
Proof.
  unfold unsigned_body. destruct s as [|ch rest]; [done|].
  destruct (digits 0 (String ch rest)) as [v|] eqn:Hd; [|done].
  intros _. by eapply digits_free.
Qed.

Lemma Atoi_free (s : string) (n : Z) : Atoi s = Some n -> count_sep "_" s = 0.
Proof.
  unfold Atoi. destruct s as [|ch rest]; [done|].
  destruct (Ascii.eqb_spec ch "+") as [->|_].
  { intros H. simpl. by eapply unsigned_body_free. }
  destruct (Ascii.eqb_spec ch "-") as [->|_].
  { intros H. simpl. by eapply unsigned_body_free. }
  apply unsigned_body_free.
Qed.

Lemma Split_greeting_of (id field : string) :
  count_sep "_" id = 0 -> count_sep "_" field = 0 ->
  Split (greeting_of id field) "_" = [id; field].
Proof.
  intros Hid Hf. unfold greeting_of. rewrite Split_app by done. by rewrite Split_free.
Qed.

(** ** What a registration changes *)

Lemma ws_Close_Upgrade (w : World) :
  ws_heap (ws_Close (length (ws_heap w)) (snd (Upgrade w))) = ws_heap w ++ [true].
Proof.
  unfold ws_Close, Upgrade. simpl.
  rewrite insert_app_r_alt by lia. by rewrite Nat.sub_diag.
Qed.

Lemma size_then_register p pool0 n ws w :
  pool_heap w !! p = Some pool0 ->
  let w' := Pool_Register p ws (set_pool_heap (<[p := with_size n pool0]> (pool_heap w)) w) in
  pool_heap w' !! p
  = Some (mkPool (p_id pool0) n (p_connections pool0 ++ [length (conn_heap w)])
            (p_idle pool0 ++ [length (conn_heap w)]))
  /\ (forall q, q <> p -> pool_heap w' !! q = pool_heap w !! q)
  /\ s_pools w' = s_pools w
  /\ conn_heap w' = conn_heap w ++ [mkConnection p ws Idle]
  /\ ws_heap w' = ws_heap w.
Proof.
  intros Hp. pose proof (lookup_lt_Some _ _ _ Hp) as Hlt.
  unfold Pool_Register. simpl. rewrite list_lookup_insert_eq by done. simpl.
  split_and!; try done.
  - rewrite list_lookup_insert_eq; [done|]. by rewrite length_insert.
  - intros q Hq. by rewrite !list_lookup_insert_ne.
Qed.

(** [register_pool], case by case: the pool [p] it ends up with, and what
    that pool was before ([pool0]: the pool found, or the new empty one). *)
Lemma register_pool_cases id n ws w :
  exists p pool0,
    ((lookup_pool (pool_heap w) id (s_pools w) = Some p /\ pool_heap w !! p = Some pool0
      /\ s_pools (register_pool id n ws w) = s_pools w)
     \/ (lookup_pool (pool_heap w) id (s_pools w) = None /\ p = length (pool_heap w)
         /\ pool0 = mkPool id 0%Z [] []
         /\ s_pools (register_pool id n ws w) = s_pools w ++ [p]))
    /\ p_id pool0 = id
    /\ p ∈ s_pools (register_pool id n ws w)
    /\ pool_heap (register_pool id n ws w) !! p
       = Some (mkPool id n (p_connections pool0 ++ [length (conn_heap w)])
                 (p_idle pool0 ++ [length (conn_heap w)]))
    /\ (forall q, q <> p -> pool_heap (register_pool id n ws w) !! q = pool_heap w !! q)
    /\ conn_heap (register_pool id n ws w) = conn_heap w ++ [mkConnection p ws Idle]
    /\ ws_heap (register_pool id n ws w) = ws_heap w.
Proof.
  destruct (lookup_pool (pool_heap w) id (s_pools w)) as [p|] eqn:Hlook.
  - destruct (lookup_pool_Some _ _ _ _ Hlook) as (Hin & pool0 & Hp & Hid).
    exists p, pool0.
    assert (Heq : register_pool id n ws w
                  = Pool_Register p ws
                      (set_pool_heap (<[p := with_size n pool0]> (pool_heap w)) w)).
    { unfold register_pool. rewrite Hlook. by rewrite Hp. }
    rewrite Heq.
    destruct (size_then_register p pool0 n ws w Hp) as (H1 & H2 & H3 & H4 & H5).
    rewrite Hid in H1. split_and!; try done.
    + left. by split_and!.
    + by rewrite H3.
  - pose (p := length (pool_heap w)). pose (pool0 := mkPool id 0%Z [] []).
    pose (w1 := set_pools (s_pools w ++ [p]) (set_pool_heap (pool_heap w ++ [pool0]) w)).
    assert (Hp : pool_heap w1 !! p = Some pool0).
    { simpl. unfold p. by rewrite list_lookup_middle. }
    exists p, pool0.
    assert (Heq : register_pool id n ws w
                  = Pool_Register p ws
                      (set_pool_heap (<[p := with_size n pool0]> (pool_heap w1)) w1)).
    { unfold register_pool. rewrite Hlook. simpl. by rewrite list_lookup_middle. }
    rewrite Heq.
    destruct (size_then_register p pool0 n ws w1 Hp) as (H1 & H2 & H3 & H4 & H5).
    split_and!; try done.
    + right. by split_and!.
    + rewrite H3. simpl. apply elem_of_app. right. by left.
    + intros q Hq. rewrite (H2 q Hq). simpl.
      destruct (decide (q < p)) as [Hlt|Hge].
      * by rewrite lookup_app_l.
      * rewrite !lookup_ge_None_2; [done|unfold p in *; lia|].
        rewrite length_app. simpl. unfold p in *. lia.
Qed.

(** X1: whenever [Register] answers with a proxy error, the pool list,
    the pools and the connections are what they were and nothing of the intake
    moved.  A registration refused before the upgrade leaves the world as it
    was; one refused after it (unreadable greeting, size that is not a number)
    has opened exactly one transport and has closed it. *)
Theorem Register_refusal_closes_transport (rq : RegisterReq) (w : World) (msg : string) :
  fst (Register rq w) = ProxyError msg ->
  s_pools (snd (Register rq w)) = s_pools w
  /\ pool_heap (snd (Register rq w)) = pool_heap w
  /\ conn_heap (snd (Register rq w)) = conn_heap w
  /\ ctl (snd (Register rq w)) = ctl w
  /\ (~ accepted rq w -> snd (Register rq w) = w)
  /\ (accepted rq w -> ws_heap (snd (Register rq w)) = ws_heap w ++ [true]).
Proof.
  unfold Register, accepted.
  destruct (bool_decide (secretKey rq = SecretKey (s_config w))) eqn:Hkey; simpl.
  2: { apply bool_decide_eq_false in Hkey. intros _. split_and!; try done. by intros []. }
  apply bool_decide_eq_true in Hkey.
  destruct (upgrade_ok rq) eqn:Hup; simpl.
  2: { intros _. split_and!; try done. by intros []. }
  destruct (greeting rq) as [g|]; simpl.
  2: { intros _. split_and!; try done.
       - intros H. by destruct H.
       - intros _. apply ws_Close_Upgrade. }
  destruct (Split g "_" !! 0) as [id|]; [|done].
  destruct (Split g "_" !! 1) as [field|]; [|done].
  destruct (Atoi field) as [n|]; [done|]. simpl.
  intros _. split_and!; try done.
  - intros H. by destruct H.
  - intros _. apply ws_Close_Upgrade.
Qed.

Lemma Register_refusal_closes_transport_witness :
  ws_heap (snd (Register (greet "agent1_x") (NewServer config0))) = [true]
  /\ pool_heap (snd (Register (greet "agent1_x") (NewServer config0))) = [].
Proof.
  destruct (Register_refusal_closes_transport (greet "agent1_x") (NewServer config0)
              "Unable to parse greeting message" eq_refl)
    as (_ & Hheap & _ & _ & _ & Hws).
  split; [|exact Hheap].
  apply Hws. split; reflexivity.
Defined.

(** X2: [Register] panics exactly when the secret matches, the upgrade
    succeeds, a greeting is read and that greeting holds no separator: the
    index expression [split[1]] is then out of range.  Every other
    registration ends by a return. *)
Theorem Register_panics_iff (rq : RegisterReq) (w : World) :
  (exists msg, fst (Register rq w) = Panic msg)
  <-> accepted rq w /\ exists g, greeting rq = Some g /\ count_sep "_" g = 0.
Proof.
  unfold Register, accepted.
  destruct (bool_decide (secretKey rq = SecretKey (s_config w))) eqn:Hkey; simpl.
  2: { apply bool_decide_eq_false in Hkey. split; [by intros [? ?]|]. by intros [[? _] _]. }
  apply bool_decide_eq_true in Hkey.
  destruct (upgrade_ok rq) eqn:Hup; simpl.
  2: { split; [by intros [? ?]|]. by intros [[_ ?] _]. }
  destruct (greeting rq) as [g|]; simpl.
  2: { split; [by intros [? ?]|]. by intros (_ & g & ? & _). }
  pose proof (Split_length g "_") as Hlen.
  destruct (Split g "_") as [|id [|field fields]] eqn:Hs; simpl in *.
  - lia.
  - split; [|by eauto]. intros _. split; [done|]. exists g. split; [done|lia].
  - destruct (Atoi field); simpl.
    + split; [by intros [? ?]|]. intros (_ & g' & [= <-] & H0). lia.
    + split; [by intros [? ?]|]. intros (_ & g' & [= <-] & H0). lia.
Qed.

(** X3: the greeting format round trip.  For an identity without
    separator and a size field that [Atoi] reads as [n] (of either sign), the
    registration with greeting [id_field] succeeds, and afterwards the registry
    holds a pool of exactly that identity with declared size [n], whose live
    set has the new Connection, Idle, on the new transport. *)
Theorem Register_greeting_round_trip (w : World) (secret id field : string) (n : Z) :
  secret = SecretKey (s_config w) ->
  count_sep "_" id = 0 ->
  Atoi field = Some n ->
  let res := Register (mkRegisterReq secret true (Some (greeting_of id field))) w in
  fst res = Done
  /\ exists p pool,
       p ∈ s_pools (snd res) /\ pool_heap (snd res) !! p = Some pool
       /\ p_id pool = id /\ p_size pool = n
       /\ length (conn_heap w) ∈ p_connections pool
       /\ conn_heap (snd res) !! length (conn_heap w)
          = Some (mkConnection p (length (ws_heap w)) Idle)
       /\ ws_heap (snd res) = ws_heap w ++ [false].
Proof.
  intros Hkey Hid Hn res.
  assert (Hres : res = (Done, register_pool id n (length (ws_heap w)) (snd (Upgrade w)))).
  { apply (Register_valid w _ (greeting_of id field) id field [] n); try done.
    apply Split_greeting_of; [done|]. by eapply Atoi_free. }
  rewrite Hres. cbn [fst snd]. split; [done|].
  destruct (register_pool_cases id n (length (ws_heap w)) (snd (Upgrade w)))
    as (p & pool0 & _ & _ & Hin & Hp & _ & Hc & Hws).
  change (conn_heap (snd (Upgrade w))) with (conn_heap w) in Hc, Hp.
  change (ws_heap (snd (Upgrade w))) with (ws_heap w ++ [false]) in Hws.
  eexists p, _. split_and!; [exact Hin|exact Hp|done|done| | |exact Hws].
  - cbn [p_connections]. apply elem_of_app. right. by left.
  - rewrite Hc. by rewrite list_lookup_middle.
Qed.

Lemma Register_greeting_round_trip_witness :
  fst (Register (mkRegisterReq "s3cret" true (Some (greeting_of "agent1" "-2")))
         (NewServer config0)) = Done.
Proof.
  exact (proj1 (Register_greeting_round_trip (NewServer config0) "s3cret" "agent1" "-2"
                  (-2)%Z eq_refl eq_refl eq_refl)).
Defined.

(** X4: [Register] reads the first two fields of the greeting only.  A
    greeting with further separators is handled exactly like the greeting made
    of its first two fields: same answer, same world. *)
Theorem Register_ignores_extra_fields (w : World) (secret : string) (up : bool)
    (g id field : string) (rest : list string) :
  Split g "_" = id :: field :: rest ->
  Register (mkRegisterReq secret up (Some g)) w
  = Register (mkRegisterReq secret up (Some (greeting_of id field))) w.
Proof.
  intros Hs. pose proof (Split_fields_free g "_") as Hfree. rewrite Hs in Hfree.
  apply Forall_cons in Hfree as [Hid Hfree]. apply Forall_cons in Hfree as [Hf _].
  unfold Register. simpl. rewrite Hs, (Split_greeting_of id field Hid Hf). done.
Qed.

Lemma Register_ignores_extra_fields_witness :
  Register (mkRegisterReq "s3cret" true (Some "agent1_3_eu_west")) (NewServer config0)
  = Register (mkRegisterReq "s3cret" true (Some (greeting_of "agent1" "3")))
      (NewServer config0).
Proof.
  exact (Register_ignores_extra_fields (NewServer config0) "s3cret" true
           "agent1_3_eu_west" "agent1" "3" ["eu"; "west"] eq_refl).
Defined.

(** X5: a registration for identity [id] is framed.  Whatever it answers,
    the pools of every other identity are exactly what they were (size, live
    set and tokens), no existing Connection changes, and the pool list keeps
    its pools in their order, with at most one appended. *)
Theorem Register_frames_other_pools (rq : RegisterReq) (w : World) (g id : string) :
  greeting rq = Some g ->
  Split g "_" !! 0 = Some id ->
  (forall q pool, pool_heap w !! q = Some pool -> p_id pool <> id ->
     pool_heap (snd (Register rq w)) !! q = Some pool)
  /\ (forall c conn, conn_heap w !! c = Some conn ->
        conn_heap (snd (Register rq w)) !! c = Some conn)
  /\ exists new, s_pools (snd (Register rq w)) = s_pools w ++ new /\ length new <= 1.
Proof.
  intros Hg Hid. unfold Register.
  destruct (negb (bool_decide _)); simpl.
  { split_and!; try done. exists []. split; [by rewrite app_nil_r|simpl; lia]. }
  destruct (negb (upgrade_ok rq)); simpl.
  { split_and!; try done. exists []. split; [by rewrite app_nil_r|simpl; lia]. }
  rewrite Hg, Hid.
  destruct (Split g "_" !! 1) as [field|]; simpl.
  2: { split_and!; try done. exists []. split; [by rewrite app_nil_r|simpl; lia]. }
  destruct (Atoi field) as [n|]; simpl.
  2: { split_and!; try done. exists []. split; [by rewrite app_nil_r|simpl; lia]. }
  change (set_ws_heap (ws_heap w ++ [false]) w) with (snd (Upgrade w)).
  destruct (register_pool_cases id n (length (ws_heap w)) (snd (Upgrade w)))
    as (p & pool0 & Hcase & Hid0 & _ & _ & Hframe & Hc & _).
  change (conn_heap (snd (Upgrade w))) with (conn_heap w) in Hc.
  change (pool_heap (snd (Upgrade w))) with (pool_heap w) in Hcase, Hframe.
  change (s_pools (snd (Upgrade w))) with (s_pools w) in Hcase.
  split_and!.
  - intros q pool Hq Hne. rewrite Hframe; [done|]. intros ->.
    destruct Hcase as [(_ & Hp & _)|(_ & -> & _)].
    + rewrite Hp in Hq. congruence.
    + apply lookup_lt_Some in Hq. lia.
  - intros c conn Hlook. rewrite Hc. by apply lookup_app_l_Some.
  - destruct Hcase as [(_ & _ & ->)|(_ & _ & _ & ->)].
    + exists []. split; [by rewrite app_nil_r|simpl; lia].
    + exists [p]. split; [done|simpl; lia].
Qed.

Lemma Register_frames_other_pools_witness :
  pool_heap (snd (Register (greet "agent2_5") world1)) !! 0 = pool_heap world1 !! 0.
Proof.
  exact (proj1 (Register_frames_other_pools (greet "agent2_5") world1 "agent2_5" "agent2"
                  eq_refl eq_refl) 0 _ eq_refl ltac:(discriminate)).
Defined.

Lemma register_pool_reuse_length id n ws w p :
  lookup_pool (pool_heap w) id (s_pools w) = Some p ->
  length (pool_heap (register_pool id n ws w)) = length (pool_heap w).
Proof.
  intros H. unfold register_pool. rewrite H. cbv beta iota zeta.
  rewrite Pool_Register_heap_length.
  destruct (pool_heap w !! p); simpl; [by rewrite length_insert|done].
Qed.

(** X6: registering the same identity again reuses its pool.  After two
    accepted registrations for [id], with sizes [n1] then [n2], the second
    has not touched the pool list, and the one pool of [id] has the size of
    the second greeting and both new Connections in its live set. *)
Theorem Register_again_reuses_pool (w : World) (secret g1 g2 id f1 f2 : string)
    (rest1 rest2 : list string) (n1 n2 : Z) :
  registry_ok w ->
  secret = SecretKey (s_config w) ->
  Split g1 "_" = id :: f1 :: rest1 -> Atoi f1 = Some n1 ->
  Split g2 "_" = id :: f2 :: rest2 -> Atoi f2 = Some n2 ->
  let w1 := snd (Register (mkRegisterReq secret true (Some g1)) w) in
  let w2 := snd (Register (mkRegisterReq secret true (Some g2)) w1) in
  s_pools w2 = s_pools w1
  /\ length (pool_heap w2) = length (pool_heap w1)
  /\ exists p pool,
       p ∈ s_pools w2 /\ pool_heap w2 !! p = Some pool
       /\ p_id pool = id /\ p_size pool = n2
       /\ length (conn_heap w) ∈ p_connections pool
       /\ S (length (conn_heap w)) ∈ p_connections pool.
Proof.
  intros Hok Hkey Hs1 Hn1 Hs2 Hn2 w1 w2.
  assert (Hw1 : w1 = register_pool id n1 (length (ws_heap w)) (snd (Upgrade w))).
  { unfold w1. by rewrite (Register_valid w _ g1 id f1 rest1 n1). }
  assert (Hcfg : s_config w1 = s_config w).
  { rewrite Hw1.
    pose proof (register_pool_ctl id n1 (length (ws_heap w)) (snd (Upgrade w))) as Hctl.
    injection Hctl as Hc _ _ _ _ _ _. exact Hc. }
  assert (Hw2 : w2 = register_pool id n2 (length (ws_heap w1)) (snd (Upgrade w1))).
  { unfold w2. rewrite (Register_valid w1 _ g2 id f2 rest2 n2); try done.
    simpl. congruence. }
  assert (Hok1 : registry_ok w1).
  { rewrite Hw1. apply register_pool_registry_ok. by eapply registry_ok_stable; [|exact Hok]. }
  destruct (register_pool_cases id n1 (length (ws_heap w)) (snd (Upgrade w)))
    as (p1 & pool1 & _ & _ & Hin1 & Hp1 & _ & Hc1 & _).
  rewrite <- Hw1 in Hin1, Hp1, Hc1.
  change (conn_heap (snd (Upgrade w))) with (conn_heap w) in Hc1, Hp1.
  destruct (register_pool_cases id n2 (length (ws_heap w1)) (snd (Upgrade w1)))
    as (p2 & pool2 & Hcase & _ & Hin2 & Hp2 & Hframe & _ & _).
  rewrite <- Hw2 in Hcase, Hin2, Hp2, Hframe.
  change (conn_heap (snd (Upgrade w1))) with (conn_heap w1) in Hp2.
  change (pool_heap (snd (Upgrade w1))) with (pool_heap w1) in Hcase, Hframe.
  change (s_pools (snd (Upgrade w1))) with (s_pools w1) in Hcase.
  destruct Hcase as [(Hlook & Hp2' & Hps)|(Hlook & _)].
  2: { by destruct (lookup_pool_None _ _ _ Hlook p1 _ Hin1 Hp1). }
  destruct (lookup_pool_Some _ _ _ _ Hlook) as (Hin2' & pool2' & Hq & Hid2).
  assert (p2 = p1) as ->.
  { apply list_elem_of_lookup in Hin1 as [i Hi], Hin2' as [j Hj].
    assert (i = j) as ->; [|congruence].
    apply (registry_ok_at_most_one w1 i j p1 p2 Hok1 Hi Hj).
    unfold id_at. rewrite Hp1, Hq. simpl. by rewrite Hid2. }
  rewrite Hp1 in Hp2'. injection Hp2' as <-.
  split; [done|]. split.
  { rewrite Hw2. exact (register_pool_reuse_length id n2 _ (snd (Upgrade w1)) p1 Hlook). }
  eexists p1, _. split_and!; [exact Hin2|exact Hp2|done|done| |].
  - cbn [p_connections]. apply elem_of_app. left. apply elem_of_app. right. by left.
  - cbn [p_connections]. apply elem_of_app. right. rewrite Hc1, length_app. simpl.
    replace (length (conn_heap w) + 1) with (S (length (conn_heap w))) by lia. by left.
Qed.

Lemma Register_again_reuses_pool_witness :
  s_pools (snd (Register (mkRegisterReq "s3cret" true (Some "agent1_7")) world1))
  = s_pools world1.
Proof.
  exact (proj1 (Register_again_reuses_pool (NewServer config0) "s3cret" "agent1_3" "agent1_7"
                  "agent1" "3" "7" [] [] 3%Z 7%Z (NewServer_registry_ok config0)
                  eq_refl eq_refl eq_refl eq_refl eq_refl)).
Defined.

(** ** More of the sweep *)

Lemma filter_idem {A} (f : A -> bool) (l : list A) :
  List.filter f (List.filter f l) = List.filter f l.
Proof.
  induction l as [|x l IH]; simpl; [done|].
  destruct (f x) eqn:E; simpl; [|done]. by rewrite E, IH.
Qed.

(** X7: the sweep is idempotent: sweeping a world that was just swept
    changes nothing, since the first sweep left no empty pool in the list and
    shut down only pools without Connection. *)
Theorem clean_idempotent (w : World) : clean (clean w) = clean w.
Proof.
  rewrite (clean_eq (clean w)). rewrite clean_eq.
  change (nonempty (set_pools (List.filter (nonempty w) (s_pools w)) w)) with (nonempty w).
  cbn [s_pools set_pools]. by rewrite filter_idem.
Qed.

(** X8: a pool that has just got a Connection survives the sweep.  After
    an accepted registration for [id], a sweep keeps the pool of [id] in the
    registry, with the new Connection in its live set. *)
Theorem Register_then_clean_keeps_pool (w : World) (rq : RegisterReq) (g id field : string)
    (rest : list string) (n : Z) :
  accepted rq w ->
  greeting rq = Some g ->
  Split g "_" = id :: field :: rest ->
  Atoi field = Some n ->
  exists p pool,
    p ∈ s_pools (clean (snd (Register rq w)))
    /\ pool_heap (clean (snd (Register rq w))) !! p = Some pool
    /\ p_id pool = id /\ p_size pool = n
    /\ length (conn_heap w) ∈ p_connections pool.
Proof.
  intros [Hkey Hup] Hg Hs Hn.
  rewrite (Register_valid w rq g id field rest n) by done. cbn [snd].
  destruct (register_pool_cases id n (length (ws_heap w)) (snd (Upgrade w)))
    as (p & pool0 & _ & _ & Hin & Hp & _).
  change (conn_heap (snd (Upgrade w))) with (conn_heap w) in Hp.
  rewrite clean_eq.
  eexists p, _. split_and!; [|exact Hp|done|done|].
  - cbn [s_pools set_pools]. apply list_elem_of_In, filter_In.
    split; [by apply list_elem_of_In|].
    unfold nonempty, Pool_IsEmpty. rewrite Hp. cbn [p_connections].
    by destruct (p_connections pool0).
  - cbn [p_connections]. apply elem_of_app. right. by left.
Qed.

Lemma Register_then_clean_keeps_pool_witness :
  exists p pool,
    p ∈ s_pools (clean (snd (Register (greet "agent1_3") (NewServer config0))))
    /\ pool_heap (clean (snd (Register (greet "agent1_3") (NewServer config0)))) !! p
       = Some pool
    /\ p_id pool = "agent1" /\ p_size pool = 3%Z
    /\ 0 ∈ p_connections pool.
Proof.
  exact (Register_then_clean_keeps_pool (NewServer config0) (greet "agent1_3") "agent1_3"
           "agent1" "3" [] 3%Z (conj eq_refl eq_refl) eq_refl eq_refl eq_refl).
Defined.

(** ** The dispatcher on its own *)

Lemma chain_dequeue r s t d rest :
  chain (EvDequeue r s t d :: rest) -> rest = [] \/ exists r' o rest', rest = EvClose r' o :: rest'.
Proof.
  destruct rest as [|prev rest]; [by left|]. simpl. intros [H _]. right.
  destruct prev as [| |c []| |]; try done. by repeat eexists.
Qed.

(** X9: the dispatcher serves one request at a time.  In the history of
    any run, a request is received either first of all or right after the slot
    of the previous request was closed: no request is taken from the
    dispatcher channel while another one is in hand. *)
Theorem dispatcher_one_request_at_a_time (config : Config) (ms : list Move)
    (pre post : list Event) (r : ReqRef) (s t d : Z) :
  history (snd (exec ms (init config))) = pre ++ EvDequeue r s t d :: post ->
  pre = [] \/ exists pre' r' o, pre = pre' ++ [EvClose r' o].
Proof.
  intros H. destruct (reachable_protocol config ms) as [Hchain _].
  unfold history in H. apply (f_equal (@rev Event)) in H. rewrite rev_involutive in H.
  rewrite rev_app_distr in H. simpl in H. rewrite <- app_assoc in H. simpl in H.
  rewrite H in Hchain. apply chain_app, chain_dequeue in Hchain as [Hnil|(r' & o & rest' & Hr)].
  - left. apply (f_equal (@rev Event)) in Hnil. by rewrite rev_involutive in Hnil.
  - right. exists (rev rest'), r', o.
    apply (f_equal (@rev Event)) in Hr. by rewrite rev_involutive in Hr.
Qed.

Lemma dispatcher_one_request_at_a_time_witness :
  exists pre' r' o,
    [EvDequeue 0 0 0 3; EvToken 0 0; EvTake 0 true; EvSend 0 0; EvClose 0 (Matched 0)]
    = pre' ++ [EvClose r' o].
Proof.
  destruct (dispatcher_one_request_at_a_time config0 run_queued
              [EvDequeue 0 0 0 3; EvToken 0 0; EvTake 0 true; EvSend 0 0; EvClose 0 (Matched 0)]
              [EvClose 1 TimedOut; EvDequeue 2 0 3 6] 1 0 0 3) as [H|H].
  - vm_compute. reflexivity.
  - discriminate H.
  - exact H.
Defined.

Lemma Select_no_token pick w : no_token w -> Select pick (s_pools w) w = None.
Proof. intros H. unfold Select. by rewrite (filter_none (ready w) (s_pools w) H). Qed.

Lemma polling_step r d w st pick :
  s_pools w <> [] -> no_token w -> (now w < d)%Z ->
  polling r d w st -> polling r d w (move_step st (Disp pick)).
Proof.
  intros Hps Hno Hd. destruct st as [l w0]. intros [Hw Hl]. simpl in Hw. subst w0.
  unfold polling. simpl in *. destruct Hl as [->| [->| ->]]; simpl.
  - destruct (Z.leb_spec d (now w)); [lia|]. simpl. eauto.
  - destruct (s_pools w) eqn:E; [done|]. simpl. eauto.
  - rewrite Select_no_token by done. simpl. eauto.
Qed.

(** X10: the scan loop polls.  With a pool in the registry, no token on
    any idle channel and the deadline ahead, the dispatcher on its own never
    blocks and never leaves the loop: after any number of its steps it is
    still between the deadline check and the select, the world is what it
    was, and the slot of the request in hand is untouched.  Only another
    goroutine (the clock, a registration, a release, a sweep) ends this. *)
Theorem scan_polls_until_something_changes (r : ReqRef) (d : Z) (w : World)
    (ms : list Move) :
  s_pools w <> [] -> no_token w -> (now w < d)%Z ->
  Forall (fun m => is_disp m = true) ms ->
  polling r d w (exec ms (AtDeadline r d, w))
  /\ slot r (snd (exec ms (AtDeadline r d, w))) = slot r w.
Proof.
  intros Hps Hno Hd Hms.
  assert (H : polling r d w (exec ms (AtDeadline r d, w))).
  { assert (H0 : polling r d w (AtDeadline r d, w)) by (split; eauto).
    revert H0. generalize (AtDeadline r d, w).
    induction Hms as [|m ms Hm _ IH]; intros st Hst; [done|].
    simpl. destruct m as [pick|a]; [|done]. by apply IH, polling_step. }
  split; [done|]. destruct H as [-> _]. done.
Qed.

Lemma scan_polls_until_something_changes_witness :
  polling 1 3 world_busy (exec [Disp 0; Disp 1; Disp 2; Disp 3; Disp 4] (AtDeadline 1 3, world_busy)).
Proof.
  apply (scan_polls_until_something_changes 1 3 world_busy
           [Disp 0; Disp 1; Disp 2; Disp 3; Disp 4]).
  - by vm_compute.
  - intros p Hp. vm_compute in Hp. apply list_elem_of_In in Hp.
    destruct Hp as [<-|[]]. by vm_compute.
  - by vm_compute.
  - repeat constructor.
Defined.

Lemma never_scans_step config st m :
  (GetTimeout config <= 0)%Z ->
  s_config (snd st) = config /\ never_scans st /\ Forall timeout_only (trace (snd st)) ->
  s_config (snd (move_step st m)) = config /\ never_scans (move_step st m)
  /\ Forall timeout_only (trace (snd (move_step st m))).
Proof.
  intros HT. destruct st as [l w]. intros (Hc & Hl & Htr). simpl in Hc.
  unfold never_scans in *. simpl in Hl, Htr. destruct m as [pick|a]; simpl.
  - destruct l as [|r d|r d|r d cases|r d c|r d c|r o|]; simpl; try done.
    + destruct (s_dispatcher w) as [|[r t0] q].
      * by destruct (s_dispatcher_closed w).
      * simpl. split_and!; [done|rewrite Hc; lia|]. by constructor.
    + destruct (Z.leb_spec d (now w)); [done|lia].
    + destruct o; try done. simpl. split_and!; try done. by constructor.
  - destruct (env_step_bookkeeping a w) as (Ht & Hcfg & Hnow & _).
    rewrite Ht, Hcfg. split_and!; try done.
    destruct l; try done. lia.
Qed.

(** X11: with a timeout that is not positive the dispatcher never hands
    out a Connection.  The deadline of a request is then no later than its
    receipt, the check at the head of the scan loop fires before the first
    select, and the history of any run holds nothing but dequeues and closes
    with outcome TimedOut: no token is received, no Connection taken, none
    sent, whatever pools are registered. *)
Theorem nonpositive_timeout_never_matches (config : Config) (ms : list Move) (e : Event) :
  (GetTimeout config <= 0)%Z ->
  e ∈ trace (snd (exec ms (init config))) ->
  timeout_only e.
Proof.
  intros HT.
  assert (H : s_config (snd (exec ms (init config))) = config
              /\ never_scans (exec ms (init config))
              /\ Forall timeout_only (trace (snd (exec ms (init config))))).
  { apply (exec_invariant (fun st => s_config (snd st) = config /\ never_scans st
                                     /\ Forall timeout_only (trace (snd st)))).
    - intros st m. by apply never_scans_step.
    - by split_and!. }
  destruct H as (_ & _ & Hall). intros Hin.
  by apply (proj1 (Forall_forall _ _) Hall).
Qed.

Lemma nonpositive_timeout_never_matches_witness :
  timeout_only (EvClose 0 TimedOut)
  /\ EvClose 0 TimedOut
     ∈ trace (snd (exec [Env (ActRegister (greet "agent1_3")); Env (ActRequest proxy0);
                         Disp 0; Disp 0; Disp 0] (init config_zero))).
Proof.
  assert (Hin : EvClose 0 TimedOut
                ∈ trace (snd (exec [Env (ActRegister (greet "agent1_3"));
                                    Env (ActRequest proxy0); Disp 0; Disp 0; Disp 0]
                                (init config_zero)))) by (vm_compute; left).
  split; [|exact Hin].
  apply (nonpositive_timeout_never_matches config_zero _ _ ltac:(vm_compute; discriminate) Hin).
Defined.

(** X12: the channel operations of the dispatcher cannot panic.  In every
    state a run can reach, when the dispatcher stands at the send of line 191
    nothing was sent on the slot of the request in hand and the slot is open;
    when it stands at the close of line 196 the slot holds at most the
    Connection just sent and was not closed before. *)
Theorem dispatcher_channel_ops_are_safe (config : Config) (ms : list Move) (r : ReqRef) :
  (forall d c, fst (exec ms (init config)) = AtSend r d c ->
     slot r (snd (exec ms (init config))) = [])
  /\ (forall o, fst (exec ms (init config)) = AtClose r o ->
        slot r (snd (exec ms (init config))) = delivery r o
        /\ forall r' o', EvClose r' o' ∉ slot r (snd (exec ms (init config)))).
Proof.
  pose proof (reachable_req_inv config ms) as Hinv.
  destruct (exec ms (init config)) as [l w]. simpl. split.
  - intros d c ->. by destruct (ri_hand _ Hinv r eq_refl) as (_ & Hh & _).
  - intros o ->. destruct (ri_hand _ Hinv r eq_refl) as (_ & Hh & _).
    simpl in Hh. unfold slot. rewrite Hh. split; [done|].
    intros r' o' Hin. destruct o; simpl in Hin.
    + apply list_elem_of_In in Hin. by destruct Hin as [|[]].
    + by apply elem_of_nil in Hin.
    + by apply elem_of_nil in Hin.
Qed.

Lemma dispatcher_channel_ops_are_safe_witness :
  slot 0 (snd (exec [Env (ActRegister (greet "agent1_3")); Env (ActRequest proxy0);
                     Disp 0; Disp 0; Disp 0; Disp 0; Disp 0] (init config0))) = [].
Proof.
  apply (proj1 (dispatcher_channel_ops_are_safe config0
                  [Env (ActRegister (greet "agent1_3")); Env (ActRequest proxy0);
                   Disp 0; Disp 0; Disp 0; Disp 0; Disp 0] 0) 3%Z 0).
  vm_compute. reflexivity.
Defined.

(** X13: the only thing the dispatcher does to a Connection is the take.
    A step of the dispatcher changes no transport, no live set, no pool list
    and no Connection, except that the step at line 190 turns the Connection
    it holds a token for from Idle to Busy, and then goes on to the send.  It
    never closes or releases anything. *)
Theorem dispatcher_only_takes (pick : nat) (l l' : Loc) (w w' : World) :
  dispatchConnections pick l w = Some (l', w') ->
  ws_heap w' = ws_heap w
  /\ s_pools w' = s_pools w
  /\ (forall p, p_connections <$> pool_heap w' !! p = p_connections <$> pool_heap w !! p)
  /\ forall c,
       conn_heap w' !! c = conn_heap w !! c
       \/ exists r d, l = AtTake r d c /\ l' = AtSend r d c
            /\ status_of c w = Some Idle /\ status_of c w' = Some Busy.
Proof.
  destruct l as [|r d|r d|r d cases|r d c|r d c|r o|]; simpl.
  - destruct (s_dispatcher w) as [|[r t0] q]; [destruct (s_dispatcher_closed w)|];
      try done; intros [= <- <-]; split_and!; try done; intros ?; by left.
  - destruct (d <=? now w)%Z; intros [= <- <-]; split_and!; try done; intros ?; by left.
  - destruct (s_pools w) eqn:E; intros [= <- <-]; split_and!; try done; intros ?; by left.
  - destruct (Select pick cases w) as [[[p c] w1]|] eqn:Hsel.
    + intros [= <- <-]. apply Select_Some in Hsel as (pool & rest & _ & Hp & _ & ->).
      simpl. split_and!; try done; [|intros ?; by left].
      intros q. destruct (decide (p = q)) as [->|Hne].
      * rewrite list_lookup_insert_eq by (by eapply lookup_lt_Some). by rewrite Hp.
      * by rewrite list_lookup_insert_ne.
    + intros [= <- <-]; split_and!; try done; intros ?; by left.
  - unfold Connection_Take. destruct (conn_heap w !! c) as [conn|] eqn:Hc.
    2: { intros [= <- <-]; split_and!; try done; intros ?; by left. }
    destruct (c_status conn) eqn:Hs; intros [= <- <-]; simpl; split_and!; try done;
      try (intros ?; by left).
    intros c'. destruct (decide (c = c')) as [<-|Hne].
    + right. exists r, d. unfold status_of. simpl.
      rewrite list_lookup_insert_eq by (by eapply lookup_lt_Some). rewrite Hc. simpl.
      by rewrite Hs.
    + left. by rewrite list_lookup_insert_ne.
  - intros [= <- <-]; split_and!; try done; intros ?; by left.
  - intros [= <- <-]; split_and!; try done; intros ?; by left.
  - done.
Qed.

Lemma dispatcher_only_takes_witness :
  ws_heap (log (EvTake 0 true) (snd (Connection_Take 0 world1))) = ws_heap world1
  /\ s_pools (log (EvTake 0 true) (snd (Connection_Take 0 world1))) = s_pools world1.
Proof.
  destruct (dispatcher_only_takes 0 (AtTake 0 3 0) (AtSend 0 3 0) world1
              (log (EvTake 0 true) (snd (Connection_Take 0 world1))) eq_refl)
    as (H1 & H2 & _).
  exact (conj H1 H2).
Defined.

(** ** More of shutdown *)

Lemma Shutdown_Done w :
  fst (Shutdown w) = Done -> s_done w = false /\ s_dispatcher_closed w = false.
Proof.
  unfold Shutdown. destruct (s_done w); [done|]. simpl.
  by destruct (s_dispatcher_closed w).
Qed.

Lemma Shutdown_closes w :
  s_done w = false -> s_dispatcher_closed w = false ->
  fst (Shutdown w) = Done
  /\ s_done (snd (Shutdown w)) = true
  /\ s_dispatcher_closed (snd (Shutdown w)) = true
  /\ s_dispatcher (snd (Shutdown w)) = [].
Proof.
  intros Hd Hc. unfold Shutdown. rewrite Hd. simpl. rewrite Hc. simpl.
  pose proof (clean_ctl (fold_left (fun w p => Pool_Shutdown p w) (s_pools w)
      (close_dispatcher (set_done true w)))) as H.
  rewrite shutdown_all_ctl in H. by injection H as _ -> -> -> _ _ _.
Qed.

Lemma Connection_Close_panicked c w : panicked (Connection_Close c w) = panicked w.
Proof.
  unfold Connection_Close. destruct (conn_heap w !! c) as [conn|]; [|done].
  destruct (c_status conn); try done; simpl; by destruct (pool_heap w !! c_pool conn).
Qed.

Lemma close_all_panicked cs w :
  panicked (fold_left (fun w c => Connection_Close c w) cs w) = panicked w.
Proof.
  revert w. induction cs as [|c cs IH]; intros w; simpl; [done|].
  by rewrite IH, Connection_Close_panicked.
Qed.

Lemma Pool_Shutdown_panicked p w : panicked (Pool_Shutdown p w) = panicked w.
Proof.
  unfold Pool_Shutdown. destruct (pool_heap w !! p) as [pool|]; [|done].
  destruct (pool_heap _ !! p); simpl; apply close_all_panicked.
Qed.

Lemma shutdown_all_panicked ps w :
  panicked (fold_left (fun w p => Pool_Shutdown p w) ps w) = panicked w.
Proof.
  revert w. induction ps as [|p ps IH]; intros w; simpl; [done|].
  by rewrite IH, Pool_Shutdown_panicked.
Qed.

Lemma Shutdown_panicked w :
  fst (Shutdown w) = Done ->
  panicked (snd (Shutdown w)) = panicked w ++ (fst <$> s_dispatcher w).
Proof.
  intros H. destruct (Shutdown_Done w H) as [Hd Hc].
  unfold Shutdown. rewrite Hd. simpl. rewrite Hc. simpl.
  rewrite clean_eq. simpl. by rewrite shutdown_all_panicked.
Qed.

(** X14: [Shutdown] is not idempotent.  A second call after one that
    returned finds [s.done] closed, panics in [close(s.done)] and changes
    nothing. *)
Theorem Shutdown_twice_panics (w : World) :
  fst (Shutdown w) = Done ->
  Shutdown (snd (Shutdown w)) = (Panic "close of closed channel", snd (Shutdown w)).
Proof.
  intros H. destruct (Shutdown_Done w H) as [Hd Hc].
  destruct (Shutdown_closes w Hd Hc) as (_ & Hd' & _).
  unfold Shutdown at 1. by rewrite Hd'.
Qed.

Lemma Shutdown_twice_panics_witness :
  fst (Shutdown (snd (Shutdown world1))) = Panic "close of closed channel".
Proof.
  exact (f_equal fst (Shutdown_twice_panics world1 eq_refl)).
Defined.

(** X15: [Shutdown] does not close the intake.  After the first
    [Shutdown] of a server, in any state it can reach, the registry is empty,
    yet an agent with the right secret still registers and gets a pool; a
    request that passes the header checks then reaches the send of line 229 on
    the closed dispatcher channel, and its handler panics. *)
Theorem Shutdown_leaves_intake_open (config : Config) (ms : list Move)
    (g id field : string) (rest : list string) (n : Z) (prq : ProxyReq) :
  let w := snd (exec ms (init config)) in
  s_done w = false ->
  Split g "_" = id :: field :: rest ->
  Atoi field = Some n ->
  valid_request prq ->
  let w1 := snd (Shutdown w) in
  let rq := mkRegisterReq (SecretKey config) true (Some g) in
  let w2 := snd (Register rq w1) in
  fst (Shutdown w) = Done
  /\ s_pools w1 = []
  /\ fst (Register rq w1) = Done
  /\ has_pool id w2
  /\ fst (Request prq w2) = Panic "send on closed channel"
  /\ next_request w ∈ panicked (snd (Request prq w2)).
Proof.
  intros w Hd Hs Hn [Hdst Hurl] w1 rq w2.
  pose proof (reachable_conns_ok config ms) as Hok. fold w in Hok.
  pose proof (reachable_chans_ok config ms) as Hch. fold w in Hch.
  destruct (reachable_deadline_inv config ms) as (Hcfg & _). fold w in Hcfg.
  unfold chans_ok in Hch. rewrite Hd in Hch.
  destruct (Shutdown_first w Hok Hd Hch) as (Hdone & _ & (Hps1 & _) & _).
  destruct (Shutdown_closes w Hd Hch) as (_ & _ & Hclosed & _).
  destruct (Shutdown_ctl w) as (Hcfg1 & Hnext & _ & _).
  fold w1 in Hps1, Hclosed, Hcfg1, Hnext.
  assert (Hreg : Register rq w1
                 = (Done, register_pool id n (length (ws_heap w1)) (snd (Upgrade w1)))).
  { apply (Register_valid w1 rq g id field rest n); try done. simpl. congruence. }
  assert (Hw2 : w2 = register_pool id n (length (ws_heap w1)) (snd (Upgrade w1))).
  { unfold w2. by rewrite Hreg. }
  destruct (register_pool_cases id n (length (ws_heap w1)) (snd (Upgrade w1)))
    as (p & pool0 & _ & _ & Hin & Hp & _).
  rewrite <- Hw2 in Hin, Hp.
  pose proof (register_pool_ctl id n (length (ws_heap w1)) (snd (Upgrade w1))) as Hctl.
  rewrite <- Hw2 in Hctl. injection Hctl as _ _ _ Hcl2 Hnx2 _ _.
  change (s_dispatcher_closed (snd (Upgrade w1))) with (s_dispatcher_closed w1) in Hcl2.
  change (next_request (snd (Upgrade w1))) with (next_request w1) in Hnx2.
  split_and!; [done|done|by rewrite Hreg| | |].
  - exists p. eexists. split_and!; [exact Hin|exact Hp|done].
  - unfold Request. rewrite bool_decide_eq_false_2 by done. rewrite Hurl. simpl.
    destruct (s_pools w2) eqn:E; [by apply elem_of_nil in Hin|].
    simpl. by rewrite Hcl2, Hclosed.
  - unfold Request. rewrite bool_decide_eq_false_2 by done. rewrite Hurl. simpl.
    destruct (s_pools w2) eqn:E; [by apply elem_of_nil in Hin|].
    simpl. rewrite Hcl2, Hclosed. simpl. apply elem_of_app. right.
    rewrite Hnx2, Hnext. by left.
Qed.

Lemma Shutdown_leaves_intake_open_witness :
  fst (Request proxy0
         (snd (Register (mkRegisterReq (SecretKey config0) true (Some "agent2_1"))
                 (snd (Shutdown (snd (exec run_matched (init config0))))))))
  = Panic "send on closed channel".
Proof.
  assert (Hd : s_done (snd (exec run_matched (init config0))) = false)
    by (vm_compute; reflexivity).
  assert (Hv : valid_request proxy0) by (split; [discriminate|reflexivity]).
  pose proof (Shutdown_leaves_intake_open config0 run_matched "agent2_1" "agent2" "1" [] 1%Z
                proxy0 Hd eq_refl eq_refl Hv) as H.
  cbv zeta in H. destruct H as (_ & _ & _ & _ & H & _). exact H.
Defined.

(** X16: every handler parked on the dispatcher channel when [Shutdown]
    closes it is lost.  In any state a run can reach, for every request [r]
    waiting in the send of line 229, the first [Shutdown] returns normally,
    the handler of [r] panics, and whatever happens afterwards the dispatcher
    never receives [r], never sends on its slot and never closes it. *)
Theorem Shutdown_strands_every_parked_handler (config : Config) (ms : list Move)
    (r : ReqRef) (s : Z) :
  let st := exec ms (init config) in
  s_done (snd st) = false ->
  (r, s) ∈ s_dispatcher (snd st) ->
  let w' := snd (Shutdown (snd st)) in
  fst (Shutdown (snd st)) = Done
  /\ r ∈ panicked w'
  /\ s_dispatcher w' = []
  /\ forall ms',
       slot r (snd (exec ms' (fst st, w'))) = []
       /\ ~ dequeued r (trace (snd (exec ms' (fst st, w'))))
       /\ ~ resolved r (trace (snd (exec ms' (fst st, w')))).
Proof.
  intros st Hd Hin w'.
  pose proof (reachable_chans_ok config ms) as Hch. fold st in Hch.
  unfold chans_ok in Hch. rewrite Hd in Hch.
  pose proof (reachable_req_inv config ms) as Hinv. fold st in Hinv.
  destruct (Shutdown_closes (snd st) Hd Hch) as (Hdone & _ & _ & Hq).
  destruct (Shutdown_ctl (snd st)) as (_ & Hnext & _ & Htr).
  fold w' in Hq, Hnext, Htr.
  destruct (ri_queue _ Hinv r s Hin) as [Hlt Hndq].
  split_and!; [done| |done|].
  - unfold w'. rewrite (Shutdown_panicked _ Hdone). apply elem_of_app. right.
    apply list_elem_of_fmap. by exists (r, s).
  - intros ms'.
    assert (Hst : stranded r (fst st, w')).
    { unfold stranded. simpl. rewrite Hnext, Hq, Htr. split_and!; [done| |done].
      intros s'. apply not_elem_of_nil. }
    apply (exec_stranded r ms') in Hst. destruct Hst as (_ & _ & Hdq).
    pose proof (reachable_req_inv config (ms ++ Env ActShutdown :: ms')) as Hinv'.
    rewrite <- (exec_after_shutdown config ms ms') in Hinv'.
    fold st in Hinv'. fold w' in Hinv'.
    pose proof (ri_silent _ Hinv' r Hdq) as Hsl. unfold slot in Hsl.
    split; [exact Hsl|]. split; [exact Hdq|].
    intros [o Ho]. unfold slot in Hsl. rewrite Hsl in Ho. destruct o; discriminate Ho.
Qed.

Lemma Shutdown_strands_every_parked_handler_witness :
  2 ∈ panicked (snd (Shutdown (snd (exec run_parked (init config0))))).
Proof.
  assert (Hin : (2, 0%Z) ∈ s_dispatcher (snd (exec run_parked (init config0))))
    by (vm_compute; left).
  exact (proj1 (proj2 (Shutdown_strands_every_parked_handler config0 run_parked 2 0%Z
                         eq_refl Hin))).
Defined.

(** ** The first request of a server *)

(** X17: the happy path, end to end.  On a new server with a positive
    timeout, after one accepted registration and one well-formed request,
    seven steps of the dispatcher, whatever the select chooses, receive the
    request, receive the token of the one Connection, take it, send it on the
    slot and close the slot: the request is Matched with Connection 0, which is
    Busy, and the dispatcher is back at the receive with nobody waiting. *)
Theorem first_request_gets_the_connection (config : Config) (g id field : string)
    (rest : list string) (n : Z) (rq : ProxyReq) (k1 k2 k3 k4 k5 k6 k7 : nat) :
  (0 < GetTimeout config)%Z ->
  Split g "_" = id :: field :: rest ->
  Atoi field = Some n ->
  valid_request rq ->
  let st := exec (first_request (SecretKey config) g rq [k1; k2; k3; k4; k5; k6; k7])
              (init config) in
  fst st = AtRecv
  /\ history (snd st)
     = [EvDequeue 0 0 0 (GetTimeout config); EvToken 0 0; EvTake 0 true; EvSend 0 0;
        EvClose 0 (Matched 0)]
  /\ slot 0 (snd st) = [EvSend 0 0; EvClose 0 (Matched 0)]
  /\ status_of 0 (snd st) = Some Busy
  /\ s_dispatcher (snd st) = []
  /\ pool_heap (snd st) = [mkPool id n [0] []].
Proof.
  intros HT Hs Hn [Hdst Hurl] st. subst st. unfold first_request, exec, init.
  cbn [fmap list_fmap fold_left move_step env_step fst snd].
  rewrite (Register_valid (NewServer config) _ g id field rest n) by done.
  cbn [snd].
  assert (Hw1 : register_pool id n (length (ws_heap (NewServer config)))
                  (snd (Upgrade (NewServer config)))
                = mkWorld config [0] false [] false [mkPool id n [0] [0]]
                    [mkConnection 0 0 Idle] [false] 0 0%Z [] []) by reflexivity.
  rewrite Hw1. clear Hw1.
  assert (Hw2 : snd (Request rq (mkWorld config [0] false [] false [mkPool id n [0] [0]]
                                   [mkConnection 0 0 Idle] [false] 0 0%Z [] []))
                = mkWorld config [0] false [(0, 0%Z)] false [mkPool id n [0] [0]]
                    [mkConnection 0 0 Idle] [false] 1 0%Z [] []).
  { unfold Request. rewrite bool_decide_eq_false_2 by done. by rewrite Hurl. }
  rewrite Hw2. clear Hw2.
  cbn -[GetTimeout Z.leb Z.add Nat.modulo].
  change (0 + GetTimeout config)%Z with (GetTimeout config).
  destruct (Z.leb_spec (GetTimeout config) 0) as [Hle|_]; [lia|].
  cbn -[GetTimeout Z.leb Z.add Nat.modulo].
  unfold Select. cbn -[GetTimeout Z.leb Z.add Nat.modulo].
  rewrite Nat.mod_1_r.
  cbn -[GetTimeout Z.leb Z.add Nat.modulo].
  unfold history, slot, status_of. cbn -[GetTimeout]. done.
Qed.

Lemma first_request_gets_the_connection_witness :
  history (snd (exec (first_request "s3cret" "agent1_3" proxy0 [0; 1; 2; 3; 4; 5; 6])
                  (init config0)))
  = [EvDequeue 0 0 0 3; EvToken 0 0; EvTake 0 true; EvSend 0 0; EvClose 0 (Matched 0)].
Proof.
  assert (Hv : valid_request proxy0) by (split; [discriminate|reflexivity]).
  assert (HT : (0 < GetTimeout config0)%Z) by (vm_compute; reflexivity).
  pose proof (first_request_gets_the_connection config0 "agent1_3" "agent1" "3" [] 3%Z proxy0
                0 1 2 3 4 5 6 HT eq_refl eq_refl Hv) as H.
  cbv zeta in H. destruct H as (_ & H & _). exact H.
Defined.
